(** * GameManager: registry migrations, command wrappers and the game store

    A shallow embedding of the parts of the GameManager front end (Vue 3 +
    TypeScript over a Tauri command boundary) and of its SQL migrations that
    the specification talks about, together with the properties that hold
    of them.

    Conventions.
    - A JavaScript string is a [string]; non-ASCII text is kept as its UTF-8
      bytes.
    - A JavaScript array is a [list]; [arr[i] = v] on an index returned by
      [findIndex] is stdpp's [<[i:=v]>].
    - A JavaScript object used as a dictionary is a [gmap string _]; its
      property read also walks the prototype chain ([js_get]).
    - A command sent over the Tauri boundary is answered by the back end,
      whose code is not part of the front end; its answer is an explicit
      argument ([InvokeOutcome]) and every command issued is logged. *)

From Stdlib Require Import ZArith Lia Ascii String.
From stdpp Require Import base strings list gmap pretty.

Set Warnings "-register-all".
Local Open Scope string_scope.
Local Open Scope Z_scope.

(** ** SQL values and three-valued logic (SQLite) *)
Module Sql.

(** A nullable TEXT cell. *)
Definition text := option string.

(** SQL truth values: TRUE, FALSE and NULL (unknown). *)
Inductive tri := TTrue | TFalse | TNull.

Definition tri_or (a b : tri) : tri :=
  match a, b with
  | TTrue, _ | _, TTrue => TTrue
  | TFalse, TFalse => TFalse
  | _, _ => TNull
  end.

(** [x IS NULL] is never unknown. *)
Definition is_null (x : text) : tri :=
  match x with None => TTrue | Some _ => TFalse end.

(** [x = 'lit'] is unknown on NULL. *)
Definition eq_lit (x : text) (lit : string) : tri :=
  match x with
  | None => TNull
  | Some s => if String.eqb s lit then TTrue else TFalse
  end.

(** A WHERE clause keeps exactly the rows on which it is TRUE. *)
Definition holds (t : tri) : bool :=
  match t with TTrue => true | _ => false end.

End Sql.

(** ** The [games] table of [0001_init.sql] and migration
    [0002_add_profile_key.sql] *)
Module Migrations.
Import Sql.

(** A row of [games] as created by [0001_init.sql]. *)
Record GameRow1 := mkRow1 {
  r1_id : string;
  r1_title : string;
  r1_engine_type : string;
  r1_path : string;
  r1_runtime_version : text;
  r1_created_at : Z;
  r1_updated_at : Z
}.

(** A row of [games] once the [profile_key] column exists. *)
Record GameRow2 := mkRow2 {
  id : string;
  title : string;
  engine_type : string;
  path : string;
  runtime_version : text;
  created_at : Z;
  updated_at : Z;
  profile_key : text
}.

(** [ALTER TABLE games ADD COLUMN profile_key TEXT;]
    the column has no default, so every existing row reads NULL. *)
Definition add_column_profile_key (r : GameRow1) : GameRow2 :=
  {| id := r1_id r; title := r1_title r; engine_type := r1_engine_type r;
     path := r1_path r; runtime_version := r1_runtime_version r;
     created_at := r1_created_at r; updated_at := r1_updated_at r;
     profile_key := None |}.

Definition alter_table_add_profile_key (t : list GameRow1) : list GameRow2 :=
  map add_column_profile_key t.

(** [WHERE profile_key IS NULL OR profile_key = ''] *)
Definition backfill_where (r : GameRow2) : bool :=
  holds (tri_or (is_null (profile_key r)) (eq_lit (profile_key r) "")).

(** [SET profile_key = id] *)
Definition set_profile_key_id (r : GameRow2) : GameRow2 :=
  {| id := id r; title := title r; engine_type := engine_type r;
     path := path r; runtime_version := runtime_version r;
     created_at := created_at r; updated_at := updated_at r;
     profile_key := Some (id r) |}.

(** [UPDATE games SET profile_key = id WHERE ...] *)
Definition update_backfill (t : list GameRow2) : list GameRow2 :=
  map (fun r => if backfill_where r then set_profile_key_id r else r) t.

(** [0002_add_profile_key.sql]; the trailing [CREATE INDEX] changes no row. *)
Definition migration_0002 (t : list GameRow1) : list GameRow2 :=
  update_backfill (alter_table_add_profile_key t).

(** Forgetting the new column gives back the 0001 row. *)
Definition drop_profile_key (r : GameRow2) : GameRow1 :=
  {| r1_id := id r; r1_title := title r; r1_engine_type := engine_type r;
     r1_path := path r; r1_runtime_version := runtime_version r;
     r1_created_at := created_at r; r1_updated_at := updated_at r |}.

End Migrations.

(** ** JavaScript strings: whitespace, [trim], [split] *)
Module JsString.

Definition bytes (s : string) : list ascii := list_ascii_of_string s.
Definition unbytes (l : list ascii) : string := string_of_list_ascii l.

Definition tok (codes : list N) : list ascii := map ascii_of_N codes.

(** ECMAScript WhiteSpace and LineTerminator code points, as UTF-8:
    U+0009..U+000D, U+0020, U+00A0, U+1680, U+2000..U+200A, U+2028,
    U+2029, U+202F, U+205F, U+3000, U+FEFF. [trim] and the regular
    expression class [\s] use the same set. *)
Definition ws_tokens : list (list ascii) :=
  map tok
    [ [9]; [10]; [11]; [12]; [13]; [32]; [194; 160]; [225; 154; 128];
      [226; 128; 128]; [226; 128; 129]; [226; 128; 130]; [226; 128; 131];
      [226; 128; 132]; [226; 128; 133]; [226; 128; 134]; [226; 128; 135];
      [226; 128; 136]; [226; 128; 137]; [226; 128; 138]; [226; 128; 168];
      [226; 128; 169]; [226; 128; 175]; [226; 129; 159]; [227; 128; 128];
      [239; 187; 191] ]%N.

Fixpoint strip_prefix (p l : list ascii) : option (list ascii) :=
  match p, l with
  | [], _ => Some l
  | _ :: _, [] => None
  | a :: p', b :: l' => if Ascii.eqb a b then strip_prefix p' l' else None
  end.

(** The rest of [l] after one leading token of [toks], if any. *)
Fixpoint strip_any (toks : list (list ascii)) (l : list ascii) : option (list ascii) :=
  match toks with
  | [] => None
  | t :: toks' =>
      match strip_prefix t l with
      | Some r => Some r
      | None => strip_any toks' l
      end
  end.

Fixpoint drop_tokens (fuel : nat) (toks : list (list ascii)) (l : list ascii) : list ascii :=
  match fuel with
  | O => l
  | S fuel' =>
      match strip_any toks l with
      | Some r => drop_tokens fuel' toks r
      | None => l
      end
  end.

Definition trim_start_bytes (l : list ascii) : list ascii :=
  drop_tokens (length l) ws_tokens l.

(** UTF-8 is self-synchronising, so trailing white space is removed on the
    reversed byte sequence with the reversed tokens. *)
Definition trim_end_bytes (l : list ascii) : list ascii :=
  rev (drop_tokens (length l) (map (@rev ascii) ws_tokens) (rev l)).

(** [s.trim()] *)
Definition trim (s : string) : string :=
  unbytes (trim_end_bytes (trim_start_bytes (bytes s))).

(** Pieces of [l] between the matches of a separator; [sep l] is the rest
    after one separator match at the head of [l]. [cur] is the piece under
    construction, reversed. *)
Fixpoint split_go (fuel : nat) (sep : list ascii -> option (list ascii))
    (cur : list ascii) (l : list ascii) : list (list ascii) :=
  match fuel with
  | O => [rev cur]
  | S fuel' =>
      match l with
      | [] => [rev cur]
      | c :: l' =>
          match sep l with
          | Some r => rev cur :: split_go fuel' sep [] r
          | None => split_go fuel' sep (c :: cur) l'
          end
      end
  end.

Definition split_bytes (sep : list ascii -> option (list ascii)) (s : string) : list string :=
  map unbytes (split_go (S (length (bytes s))) sep [] (bytes s)).

(** One match of [/\r?\n/] at the head. *)
Definition sep_newline (l : list ascii) : option (list ascii) :=
  match strip_prefix (tok [13; 10]%N) l with
  | Some r => Some r
  | None => strip_prefix (tok [10]%N) l
  end.

(** One match of [/\s+/] at the head: a maximal run of white space. *)
Definition sep_spaces (l : list ascii) : option (list ascii) :=
  match strip_any ws_tokens l with
  | Some r => Some (drop_tokens (length r) ws_tokens r)
  | None => None
  end.

(** [s.split(/\r?\n/)] *)
Definition split_lines (s : string) : list string := split_bytes sep_newline s.

(** [s.split(/\s+/)] *)
Definition split_spaces (s : string) : list string := split_bytes sep_spaces s.

Definition is_empty (s : string) : bool :=
  match s with EmptyString => true | _ => false end.

(** [xs.join(sep)] *)
Fixpoint join (sep : string) (xs : list string) : string :=
  match xs with
  | [] => ""
  | [x] => x
  | x :: rest => x ++ sep ++ join sep rest
  end.

Definition LF : string := String (ascii_of_N 10) EmptyString.
Definition CR : string := String (ascii_of_N 13) EmptyString.

End JsString.

(** ** JavaScript values as seen by the error formatter *)
Module Js.

(** Result of an operation that may throw. *)
Inductive completion (V A : Type) :=
| Normal (a : A)
| Throw (e : V).
Arguments Normal {V A} a.
Arguments Throw {V A} e.

(** A number with its [Number::toString] text. *)
Inductive number :=
| Finite (text : string)
| NaN
| PosInfinity
| NegInfinity.

(** A value of type [unknown]. Primitives are explicit. An object (or
    function) is described by what the operations applied to it observe;
    getters, [toJSON], [toString] and proxies can make each of them return
    anything or throw, so they are independent fields.
    - [callable]: [typeof] is ["function"] rather than ["object"];
    - [instanceof_Error]: [Error.prototype] is on the prototype chain;
    - [message]: the value of the property [message] ([VUndefined] when
      there is none); property reads are taken not to throw;
    - [json]: the result of [JSON.stringify], [None] standing for
      [undefined];
    - [to_string]: the result of [String(_)]. *)
Inductive value :=
| VUndefined
| VNull
| VBool (b : bool)
| VNum (n : number)
| VBigInt (text : string)
| VStr (s : string)
| VSymbol (description : string)
| VObject (callable : bool) (instanceof_Error : bool)
          (message : value)
          (json : completion value (option string))
          (to_string : completion value string).

Definition result := completion value.

Definition bind {A B} (c : result A) (k : A -> result B) : result B :=
  match c with
  | Normal a => k a
  | Throw e => Throw e
  end.

(** An ordinary [Error] instance created by [new Error(msg)]: the message
    is an own, non-enumerable string property, so the object serialises
    to ["{}"]. *)
Definition new_Error (msg : string) : value :=
  VObject false true (VStr msg) (Normal (Some "{}"))
          (Normal (if JsString.is_empty msg then "Error" else "Error: " ++ msg)).

(** The [TypeError] the runtime raises. *)
Definition TypeError (msg : string) : value :=
  VObject false true (VStr msg) (Normal (Some "{}"))
          (Normal ("TypeError: " ++ msg)).

Definition is_VStr (v : value) : bool :=
  match v with VStr _ => true | _ => false end.

(** [typeof v === "object"] (true of [null]). *)
Definition typeof_object (v : value) : bool :=
  match v with
  | VNull => true
  | VObject callable _ _ _ _ => negb callable
  | _ => false
  end.

(** ToBoolean. *)
Definition truthy (v : value) : bool :=
  match v with
  | VUndefined | VNull => false
  | VBool b => b
  | VNum (Finite t) => negb (String.eqb t "0" || String.eqb t "-0")
  | VNum NaN => false
  | VNum _ => true
  | VBigInt t => negb (String.eqb t "0")
  | VStr s => negb (JsString.is_empty s)
  | VSymbol _ => true
  | VObject _ _ _ _ _ => true
  end.

(** [v instanceof Error]; false of every primitive. *)
Definition instanceof_Error (v : value) : bool :=
  match v with
  | VObject _ ie _ _ _ => ie
  | _ => false
  end.

(** [v.message] on an object. *)
Definition get_message (v : value) : value :=
  match v with
  | VObject _ _ m _ _ => m
  | _ => VUndefined
  end.

(** [JSON.stringify(v)]: [undefined], functions and symbols give
    [undefined]; a BigInt throws; non-finite numbers give ["null"].
    A string is quoted and escaped by the runtime ([quote]). *)
Definition JSON_stringify (quote : string -> string) (v : value) : result (option string) :=
  match v with
  | VUndefined => Normal None
  | VNull => Normal (Some "null")
  | VBool true => Normal (Some "true")
  | VBool false => Normal (Some "false")
  | VNum (Finite t) => Normal (Some t)
  | VNum _ => Normal (Some "null")
  | VBigInt _ => Throw (TypeError "Do not know how to serialize a BigInt")
  | VStr s => Normal (Some (quote s))
  | VSymbol _ => Normal None
  | VObject _ _ _ j _ => j
  end.

(** [String(v)]. *)
Definition String_ (v : value) : result string :=
  match v with
  | VUndefined => Normal "undefined"
  | VNull => Normal "null"
  | VBool true => Normal "true"
  | VBool false => Normal "false"
  | VNum (Finite t) => Normal t
  | VNum NaN => Normal "NaN"
  | VNum PosInfinity => Normal "Infinity"
  | VNum NegInfinity => Normal "-Infinity"
  | VBigInt t => Normal t
  | VStr s => Normal s
  | VSymbol d => Normal ("Symbol(" ++ d ++ ")")
  | VObject _ _ _ _ s => s
  end.

(** ToString, as applied by a template literal: a symbol throws. *)
Definition ToString (v : value) : result string :=
  match v with
  | VSymbol _ => Throw (TypeError "Cannot convert a Symbol value to a string")
  | _ => String_ v
  end.

End Js.

(** ** [src/lib/tauri.ts] *)
Module Tauri.
Import Js.

(** How the promise returned by [invoke<T>(command, args)] settles. *)
Inductive InvokeOutcome (T : Type) :=
| Resolved (data : T)
| Rejected (err : value).
Arguments Resolved {T} data.
Arguments Rejected {T} err.

(** [type InvokeResult<T> = { ok: true; data: T } | { ok: false; error: string }].
    The [error] field holds whatever [formatInvokeError] returned at run
    time, hence a [value]. *)
Inductive InvokeResult (T : Type) :=
| Ok (data : T)
| Err (error : value).
Arguments Ok {T} data.
Arguments Err {T} error.

Definition is_ok {T} (r : InvokeResult T) : bool :=
  match r with Ok _ => true | Err _ => false end.

Section Wrappers.
(** The string-quoting part of [JSON.stringify]; never reached by
    [formatInvokeError], which returns a string argument first. *)
Variable quote : string -> string.

(** The tail of [formatInvokeError]:
    [try { return JSON.stringify(err) } catch { return String(err) }]. *)
Definition stringify_or_String (err : value) : result value :=
  match JSON_stringify quote err with
  | Normal (Some s) => Normal (VStr s)
  | Normal None => Normal VUndefined
  | Throw _ =>
      match String_ err with
      | Normal s => Normal (VStr s)
      | Throw e => Throw e
      end
  end.

Definition formatInvokeError (err : value) : result value :=
  if is_VStr err then Normal err
  else if instanceof_Error err then Normal (get_message err)
  else if truthy err && typeof_object err then
    match get_message err with
    | VStr m =>
        if (0 <? String.length (JsString.trim m))%nat then Normal (VStr m)
        else stringify_or_String err
    | _ => stringify_or_String err
    end
  else stringify_or_String err.

(** [invokeResult]: [outcome] is how the awaited [invoke] settled. *)
Definition invokeResult {T} (outcome : InvokeOutcome T) : result (InvokeResult T) :=
  match outcome with
  | Resolved data => Normal (Ok data)
  | Rejected err => bind (formatInvokeError err) (fun e => Normal (Err e))
  end.

(** [safeInvoke]: [None] is [null]. *)
Definition safeInvoke {T} (outcome : InvokeOutcome T) : result (option T) :=
  match outcome with
  | Resolved data => Normal (Some data)
  | Rejected _ => Normal None
  end.

End Wrappers.

End Tauri.

(** ** [src/types]: the values that cross the command boundary *)
Module Types.

(** [interface GameDto] *)
Record GameDto := mkGameDto {
  id : string;
  title : string;
  engineType : string;
  path : string;
  pathValid : bool;
  runtimeVersion : option string;
  coverPath : option string;
  createdAt : Z;
  lastPlayedAt : option Z
}.

(** [interface UpdateGameInput] *)
Record UpdateGameInput := mkUpdateGameInput {
  u_title : option string;
  u_engineType : option string;
  u_path : option string;
  u_runtimeVersion : option string
}.

(** [interface LaunchResult] *)
Record LaunchResult := mkLaunchResult { pid : Z }.

(** [interface GameConfig] (settings.toml) *)
Record GameConfig := mkGameConfig {
  c_engineType : string;
  c_entryPath : string;
  c_runtimeVersion : option string;
  c_args : list string;
  c_sandboxHome : bool;
  c_coverFile : option string
}.

End Types.

(** ** [src/lib/api.ts] *)
Module Api.
Import Js Tauri.

(** The local [invoke] wrapper logs a failure and rethrows it: the promise
    settles as the Tauri one did. *)
Definition invoke {T} (outcome : InvokeOutcome T) : InvokeOutcome T :=
  match outcome with
  | Resolved data => Resolved data
  | Rejected error => Rejected error
  end.

(** [getGame(id)]: what [get_game] answered is handed on as it arrived;
    the type [GameDto | null] it is given is erased at run time. *)
Definition getGame {T} (outcome : InvokeOutcome T) : InvokeOutcome T :=
  invoke outcome.

End Api.

(** ** [src/hooks/useGames.ts] *)
Module UseGames.
Import Js Tauri Types.

(** The three refs of the composable. *)
Record Store := mkStore {
  games : list GameDto;
  loading : bool;
  error : option value
}.

(** [games.value.findIndex(g => g.id === id)]; [None] is [-1]. *)
Fixpoint findIndex (p : GameDto -> bool) (l : list GameDto) : option nat :=
  match l with
  | [] => None
  | g :: l' => if p g then Some O else option_map S (findIndex p l')
  end.

(** [e instanceof Error ? e.message : fallback] *)
Definition error_text (e : value) (fallback : string) : value :=
  if instanceof_Error e then get_message e else VStr fallback.

Definition begin_call (st : Store) : Store :=
  {| games := games st; loading := true; error := None |}.

(** The [finally] block. *)
Definition end_call (st : Store) : Store :=
  {| games := games st; loading := false; error := error st |}.

Definition set_games (gs : list GameDto) (st : Store) : Store :=
  {| games := gs; loading := loading st; error := error st |}.

Definition set_error (e : value) (st : Store) : Store :=
  {| games := games st; loading := loading st; error := Some e |}.

(** [handleUpdateGame(id, input)]; [reply] is how [updateGame(id, input)]
    settled. *)
Definition handleUpdateGame (id' : string) (input : UpdateGameInput)
    (reply : InvokeOutcome GameDto) (st : Store) : bool * Store :=
  let st := begin_call st in
  match Api.invoke reply with
  | Resolved updatedGame =>
      let index := findIndex (fun g => String.eqb (id g) id') (games st) in
      let st :=
        match index with
        | Some i => set_games (<[i := updatedGame]> (games st)) st
        | None => st
        end in
      (true, end_call st)
  | Rejected e =>
      (false, end_call (set_error (error_text e "更新游戏失败") st))
  end.

(** [handleDeleteGame(id)]; [reply] is how [deleteGame(id)] settled. *)
Definition handleDeleteGame (id' : string)
    (reply : InvokeOutcome unit) (st : Store) : bool * Store :=
  let st := begin_call st in
  match Api.invoke reply with
  | Resolved _ =>
      let st := set_games (List.filter (fun g => negb (String.eqb (id g) id')) (games st)) st in
      (true, end_call st)
  | Rejected e =>
      (false, end_call (set_error (error_text e "删除游戏失败") st))
  end.

(** [fetchGames()]; [reply] is how [getGames()] settled. It catches its own
    failure. *)
Definition fetchGames (reply : InvokeOutcome (list GameDto)) (st : Store) : Store :=
  let st := begin_call st in
  match Api.invoke reply with
  | Resolved gs => end_call (set_games gs st)
  | Rejected e => end_call (set_error (error_text e "获取游戏列表失败") st)
  end.

(** [handleLaunchGame(id)]; [launched] is how [launchGame(id)] settled and
    [listed] how the [getGames()] of the refresh that follows a successful
    launch did. The command is sent whatever [pathValid] says: the check is
    left to the back end. *)
Definition handleLaunchGame (id' : string)
    (launched : InvokeOutcome LaunchResult) (listed : InvokeOutcome (list GameDto))
    (st : Store) : bool * Store :=
  let st := begin_call st in
  match Api.invoke launched with
  | Resolved _ => (true, end_call (fetchGames listed st))
  | Rejected e =>
      (false, end_call (set_error (error_text e "启动游戏失败") st))
  end.

(** [interface AddGameInput] *)
Record AddGameInput := mkAddGameInput {
  a_title : option string;
  a_engineType : string;
  a_path : string;
  a_runtimeVersion : option string
}.

(** [handleAddGame(input)]; [reply] is how [addGame(input)] settled. The
    new game is pushed at the end of the list. *)
Definition handleAddGame (input : AddGameInput)
    (reply : InvokeOutcome GameDto) (st : Store) : bool * Store :=
  let st := begin_call st in
  match Api.invoke reply with
  | Resolved newGame => (true, end_call (set_games (games st ++ [newGame])%list st))
  | Rejected e =>
      (false, end_call (set_error (error_text e "添加游戏失败") st))
  end.

(** [getGameById(id)]: [games.value.find(g => g.id === id)]. *)
Definition getGameById (id' : string) (st : Store) : option GameDto :=
  List.find (fun g => String.eqb (id g) id') (games st).

End UseGames.

(** ** Commands issued over the boundary *)
Module Ipc.
Import Js Tauri.

(** Data serialised across the boundary. *)
Inductive json :=
| JNull
| JBool (b : bool)
| JNum (n : Z)
| JStr (s : string)
| JArr (items : list json)
| JObj (fields : list (string * json)).

(** One call of the Tauri [invoke]: the command name and its argument
    record. *)
Record Command := mkCommand {
  cmd_name : string;
  cmd_args : list (string * json)
}.

(** A front-end state [S] together with the log of the commands issued so
    far, most recent first. The back end changes its own state (the
    registry, processes) only when it receives a command. *)
Record World (S : Type) := mkWorld {
  ui : S;
  issued : list Command
}.
Arguments mkWorld {S} ui issued.
Arguments ui {S} w.
Arguments issued {S} w.

(** State passing with exceptions: an async function of the front end. *)
Definition M (S A : Type) : Type := World S -> result A * World S.

Definition ret {S A} (a : A) : M S A := fun w => (Normal a, w).

Definition mbind {S A B} (m : M S A) (k : A -> M S B) : M S B :=
  fun w =>
    match m w with
    | (Normal a, w') => k a w'
    | (Throw e, w') => (Throw e, w')
    end.

Definition lift {S A} (r : result A) : M S A := fun w => (r, w).

Definition modify {S} (f : S -> S) : M S unit :=
  fun w => (Normal tt, mkWorld (f (ui w)) (issued w)).

Definition get {S} : M S S := fun w => (Normal (ui w), w).

(** Send a command; [backend] is the back end's answer to it. *)
Definition send {S T} (backend : Command -> InvokeOutcome T) (c : Command)
  : M S (InvokeOutcome T) :=
  fun w => (Normal (backend c), mkWorld (ui w) (c :: issued w)).

End Ipc.

Declare Scope ipc_scope.
Delimit Scope ipc_scope with ipc.
Notation "x <- m ;; k" := (Ipc.mbind m (fun x => k))
  (at level 100, m at next level, right associativity) : ipc_scope.
Notation "m ;;; k" := (Ipc.mbind m (fun _ => k))
  (at level 100, right associativity) : ipc_scope.

(** ** [src/App.vue]: the application shell with the status bar
    ([setStatus], [launchGame]) *)
Module App.
Import Js Tauri Ipc.

(** [type GameEntry]; [engineType] is a cast of the boundary string. *)
Record GameEntry := mkGameEntry {
  id : string;
  title : string;
  engineType : string;
  version : option string;
  path : string;
  pathValid : bool
}.

(** [type TaskStatus] *)
Record TaskStatus := mkTaskStatus {
  label : string;
  progress : Z
}.

Record AppState := mkAppState {
  games : list GameEntry;
  selectedGameId : string;
  currentTask : option TaskStatus
}.

(** [{ pid: number }]. Where a label is built from a number of a reply (a
    process id here, a count of games or directories elsewhere), the number
    is an integer below 10^21, which a template literal prints as its
    decimal digits ([pretty]); larger ones print with an exponent and are
    not modelled. *)
Record LaunchReply := mkLaunchReply { pid : Z }.

(** [Math.max(0, Math.min(100, Number(progress) || 0))] on an integer. *)
Definition clamp_progress (p : Z) : Z := Z.max 0 (Z.min 100 p).

(** [setStatus(label, progress)] *)
Definition setStatus (l : string) (p : Z) (st : AppState) : AppState :=
  {| games := games st; selectedGameId := selectedGameId st;
     currentTask := Some (mkTaskStatus l (clamp_progress p)) |}.

Definition invalid_path_status : string := "启动失败：游戏路径无效".

Section Launch.
Variable quote : string -> string.
(** The back end's answer to a [launch_game] command. *)
Variable backend : Command -> InvokeOutcome LaunchReply.

(** [launchGame(gameId)] *)
Definition launchGame (gameId : string) : M AppState unit :=
  (st <- get ;;
   match List.find (fun g => String.eqb (id g) gameId) (games st) with
   | None => ret tt
   | Some game =>
       if negb (pathValid game) then
         modify (setStatus invalid_path_status 0)
       else
         modify (setStatus ("启动：" ++ title game ++ "…") 0) ;;;
         outcome <- send backend (mkCommand "launch_game" [("gameId", JStr gameId)]) ;;
         res <- lift (invokeResult quote outcome) ;;
         match res with
         | Err e =>
             text <- lift (ToString e) ;;
             modify (setStatus ("启动失败：" ++ text) 0)
         | Ok data =>
             modify (setStatus ("已启动（PID " ++ pretty (pid data) ++ "）") 100)
         end
   end)%ipc.

End Launch.

End App.

(** ** [features/games/GameSettingsModal.vue]: launch arguments and HOME
    isolation ([loadLaunchConfig], [saveLaunchConfig]) *)
Module GameSettingsModal.
Import Js Tauri Ipc.

(** [{ args: string[]; sandboxHome: boolean }] as answered by
    [get_game_launch_config]; [args] may be missing ([args ?? []]). *)
Record LaunchConfigReply := mkLaunchConfigReply {
  r_args : option (list string);
  r_sandboxHome : bool
}.

(** What reading [res.data.sandboxHome] raises when [res.data] is [null];
    the text of the message is the engine's. *)
Definition null_read : value :=
  TypeError "Cannot read properties of null (reading 'sandboxHome')".

Record ContainerInfo := mkContainerInfo {
  profileDir : string;
  userDataDir : string;
  settingsToml : string
}.

(** The refs of the component. *)
Record ModalState := mkModalState {
  titleDraft : string;
  containerInfo : option ContainerInfo;
  launchArgsText : string;
  sandboxHome : bool
}.

(** [const sandboxHome = ref(true)], [const launchArgsText = ref("")] *)
Definition initial : ModalState := mkModalState "" None "" true.

Definition set_launch (text : string) (sandbox : bool) (st : ModalState) : ModalState :=
  {| titleDraft := titleDraft st; containerInfo := containerInfo st;
     launchArgsText := text; sandboxHome := sandbox |}.

(** The argument list [saveLaunchConfig] derives from the text area:
    [split(/\r?\n/).map(s => s.trim()).filter(s => s.length > 0)]. *)
Definition launch_args (text : string) : list string :=
  List.filter (fun s => negb (JsString.is_empty s))
              (map JsString.trim (JsString.split_lines text)).

Section Commands.
Variable quote : string -> string.
(** The answer to [get_game_launch_config]; [None] is a reply that
    carries nothing ([null]), which the declared type of the reply leaves
    out but the run time does not. *)
Variable get_backend : Command -> InvokeOutcome (option LaunchConfigReply).
Variable update_backend : Command -> InvokeOutcome unit.

(** [loadLaunchConfig(gameId)]. With [res.ok] and [res.data] being [null]
    the first statement after the guard, [sandboxHome.value =
    res.data.sandboxHome], throws before either ref is written. *)
Definition loadLaunchConfig (gameId : string) : M ModalState unit :=
  (outcome <- send get_backend (mkCommand "get_game_launch_config" [("gameId", JStr gameId)]) ;;
   res <- lift (invokeResult quote outcome) ;;
   match res with
   | Err _ => modify (set_launch "" true)
   | Ok None => lift (Throw null_read)
   | Ok (Some data) =>
       modify (fun st =>
         set_launch (JsString.join JsString.LF (default [] (r_args data)))
                    (r_sandboxHome data) st)
   end)%ipc.

(** [saveLaunchConfig()] for the game shown ([props.game]). *)
Definition saveLaunchConfig (game : option string) : M ModalState unit :=
  match game with
  | None => ret tt
  | Some gameId =>
      (st <- get ;;
       outcome <- send update_backend
         (mkCommand "update_game_launch_config"
            [("input", JObj [("gameId", JStr gameId);
                             ("args", JArr (map JStr (launch_args (launchArgsText st))));
                             ("sandboxHome", JBool (sandboxHome st))])]) ;;
       res <- lift (invokeResult quote outcome) ;;
       ret tt)%ipc
  end.

End Commands.

End GameSettingsModal.

(** ** [src/types/engine.ts] and [src/constants/engines.ts] *)
Module Engines.

(** [enum EngineType] *)
Inductive EngineType :=
| RpgMakerVX
| RpgMakerVXAce
| RpgMakerMV
| RpgMakerMZ
| NWjs
| RenPy
| Other.

(** The string each member stands for. *)
Definition EngineType_value (e : EngineType) : string :=
  match e with
  | RpgMakerVX => "rpgmakervx"
  | RpgMakerVXAce => "rpgmakervxace"
  | RpgMakerMV => "rpgmakermv"
  | RpgMakerMZ => "rpgmakermz"
  | NWjs => "nwjs"
  | RenPy => "renpy"
  | Other => "other"
  end.

Definition EngineType_members : list EngineType :=
  [RpgMakerVX; RpgMakerVXAce; RpgMakerMV; RpgMakerMZ; NWjs; RenPy; Other].

(** [ENGINE_DISPLAY_NAMES: Record<EngineType, string>] *)
Definition ENGINE_DISPLAY_NAMES : gmap string string :=
  <[EngineType_value RpgMakerVX := "RPG Maker VX"]>
  (<[EngineType_value RpgMakerVXAce := "RPG Maker VX Ace"]>
  (<[EngineType_value RpgMakerMV := "RPG Maker MV (NW.js)"]>
  (<[EngineType_value RpgMakerMZ := "RPG Maker MZ (NW.js)"]>
  (<[EngineType_value NWjs := "NWjs"]>
  (<[EngineType_value RenPy := "RenPy"]>
  (<[EngineType_value Other := "Other"]> ∅)))))).

(** [SUPPORTED_ENGINES] *)
Definition SUPPORTED_ENGINES : list EngineType :=
  [RpgMakerVX; RpgMakerVXAce; RpgMakerMV; RpgMakerMZ; RenPy; Other].

(** [ENGINE_ICONS: Record<string, string>] *)
Definition ENGINE_ICONS : gmap string string :=
  <[EngineType_value RpgMakerVX := "ri:gamepad-line"]>
  (<[EngineType_value RpgMakerVXAce := "ri:gamepad-line"]>
  (<[EngineType_value RpgMakerMV := "ri:gamepad-line"]>
  (<[EngineType_value RpgMakerMZ := "ri:gamepad-line"]>
  (<[EngineType_value RenPy := "ri:book-2-line"]>
  (<[EngineType_value Other := "ri:question-line"]> ∅))))).

(** The properties every object literal inherits from [Object.prototype]. *)
Definition Object_prototype_names : list string :=
  [ "constructor"; "__defineGetter__"; "__defineSetter__"; "hasOwnProperty";
    "__lookupGetter__"; "__lookupSetter__"; "isPrototypeOf";
    "propertyIsEnumerable"; "toString"; "valueOf"; "__proto__";
    "toLocaleString" ].

Definition string_in (k : string) (l : list string) : bool :=
  existsb (String.eqb k) l.

(** What [obj[k]] evaluates to on an object literal with string values. *)
Inductive property :=
| PString (s : string)
| PInherited (name : string)
| PUndefined.

(** [obj[k]]: own properties first, then the prototype. *)
Definition js_get (obj : gmap string string) (k : string) : property :=
  match obj !! k with
  | Some v => PString v
  | None => if string_in k Object_prototype_names then PInherited k else PUndefined
  end.

(** [p || fallback]: the empty string and [undefined] are falsy, an
    inherited function or object is truthy. *)
Definition or_else (p : property) (fallback : property) : property :=
  match p with
  | PString s => if JsString.is_empty s then fallback else p
  | PInherited _ => p
  | PUndefined => fallback
  end.

(** [getEngineDisplayName(engineType)] *)
Definition getEngineDisplayName (engineType : string) : property :=
  or_else (js_get ENGINE_DISPLAY_NAMES engineType) (PString engineType).

(** [getEngineIcon(engineType)] *)
Definition getEngineIcon (engineType : string) : property :=
  or_else (js_get ENGINE_ICONS engineType)
          (js_get ENGINE_ICONS (EngineType_value Other)).

End Engines.

(** ** Boundary objects: what a typed value looks like on the wire *)
Module Wire.
Import Ipc Types.

(** An object literal: properties in order, [None] for [undefined]. *)
Definition object := list (string * option json).

(** [JSON.stringify] drops the properties whose value is [undefined]. *)
Fixpoint serialise (o : object) : list (string * json) :=
  match o with
  | [] => []
  | (k, Some v) :: o' => (k, v) :: serialise o'
  | (_, None) :: o' => serialise o'
  end.

Fixpoint field (k : string) (fs : list (string * json)) : option json :=
  match fs with
  | [] => None
  | (k', v) :: fs' => if String.eqb k k' then Some v else field k fs'
  end.

Definition keys (fs : list (string * json)) : list string := map fst fs.

Definition opt_str (s : option string) : option json := option_map JStr s.
Definition opt_num (n : option Z) : option json := option_map JNum n.

(** The properties [interface GameDto] declares. *)
Definition GameDto_object (g : GameDto) : object :=
  [ ("id", Some (JStr (id g)));
    ("title", Some (JStr (title g)));
    ("engineType", Some (JStr (engineType g)));
    ("path", Some (JStr (path g)));
    ("pathValid", Some (JBool (pathValid g)));
    ("runtimeVersion", opt_str (runtimeVersion g));
    ("coverPath", opt_str (coverPath g));
    ("createdAt", Some (JNum (createdAt g)));
    ("lastPlayedAt", opt_num (lastPlayedAt g)) ].

(** The properties [interface GameConfig] declares. *)
Definition GameConfig_object (c : GameConfig) : object :=
  [ ("engineType", Some (JStr (c_engineType c)));
    ("entryPath", Some (JStr (c_entryPath c)));
    ("runtimeVersion", opt_str (c_runtimeVersion c));
    ("args", Some (JArr (map JStr (c_args c))));
    ("sandboxHome", Some (JBool (c_sandboxHome c)));
    ("coverFile", opt_str (c_coverFile c)) ].

Definition GameDto_fields : list string :=
  ["id"; "title"; "engineType"; "path"; "pathValid"; "runtimeVersion";
   "coverPath"; "createdAt"; "lastPlayedAt"].

Definition GameConfig_fields : list string :=
  ["engineType"; "entryPath"; "runtimeVersion"; "args"; "sandboxHome"; "coverFile"].

End Wire.

(** ** [components/games/GameSettingsDialog.vue]: the configuration the
    dialog saves ([handleSave], [toAbsoluteEntryPath], [joinPath]) *)
Module GameSettingsDialog.
Import Ipc Types Wire.

Definition slash : ascii := ascii_of_N 47.
Definition backslash : ascii := ascii_of_N 92.
Definition colon : ascii := ascii_of_N 58.

Definition is_ascii_letter (c : ascii) : bool :=
  let n := N_of_ascii c in
  ((65 <=? n) && (n <=? 90) || (97 <=? n) && (n <=? 122))%N.

(** [value.startsWith('/') || /^[A-Za-z]:[\\/]/.test(value)] *)
Definition isAbsolutePath (value : string) : bool :=
  match JsString.bytes value with
  | c :: rest =>
      Ascii.eqb c slash
      || match rest with
         | c2 :: c3 :: _ =>
             is_ascii_letter c && Ascii.eqb c2 colon
             && (Ascii.eqb c3 backslash || Ascii.eqb c3 slash)
         | _ => false
         end
  | [] => false
  end.

Fixpoint drop_leading (c : ascii) (l : list ascii) : list ascii :=
  match l with
  | a :: l' => if Ascii.eqb a c then drop_leading c l' else l
  | [] => []
  end.

(** [s.replace(/^c+/, '')] *)
Definition strip_leading (c : ascii) (s : string) : string :=
  JsString.unbytes (drop_leading c (JsString.bytes s)).

(** [s.replace(/c+$/, '')] *)
Definition strip_trailing (c : ascii) (s : string) : string :=
  JsString.unbytes (rev (drop_leading c (rev (JsString.bytes s)))).

Definition includes (c : ascii) (s : string) : bool :=
  existsb (Ascii.eqb c) (JsString.bytes s).

(** [joinPath(base, sub)] *)
Definition joinPath (base sub : string) : string :=
  if includes backslash base then
    strip_trailing backslash base ++ String backslash "" ++ strip_leading backslash sub
  else
    strip_trailing slash base ++ String slash "" ++ strip_leading slash sub.

(** The refs of the dialog and its [game] prop. *)
Record Dialog := mkDialog {
  game : option GameDto;
  title : string;
  engineType : string;
  path : string;
  runtimeVersion : string;
  entryPath : string;
  argsText : string;
  sandboxHome : bool;
  coverFile : string;
  bottlesAvailable : bool;
  bottlesInstalled : bool;
  bottlesEnabled : bool;
  bottleName : string
}.

(** [toAbsoluteEntryPath(value)] *)
Definition toAbsoluteEntryPath (d : Dialog) (value : string) : string :=
  let trimmed := JsString.trim value in
  match game d with
  | None => trimmed
  | Some g =>
      if JsString.is_empty trimmed then trimmed
      else if isAbsolutePath trimmed then trimmed
      else joinPath (Types.path g) trimmed
  end.

(** [s || undefined] *)
Definition or_undefined (s : string) : option string :=
  if JsString.is_empty s then None else Some s.

(** [a || b] on strings *)
Definition or_string (a b : string) : string :=
  if JsString.is_empty a then b else a.

(** [argsText.split(/\s+/).map(s => s.trim()).filter(Boolean)] *)
Definition save_args (text : string) : list string :=
  List.filter (fun s => negb (JsString.is_empty s))
              (map JsString.trim (JsString.split_spaces text)).

Definition usingBottles (d : Dialog) : bool :=
  String.eqb (engineType d) "other"
  && bottlesAvailable d && bottlesEnabled d && bottlesInstalled d.

(** The object literal [settings] of [handleSave]. *)
Definition save_settings (d : Dialog) : object :=
  [ ("engineType", Some (JStr (engineType d)));
    ("entryPath",
     Some (JStr (toAbsoluteEntryPath d
                   (or_string (JsString.trim (entryPath d)) (JsString.trim (path d))))));
    ("runtimeVersion", opt_str (or_undefined (JsString.trim (runtimeVersion d))));
    ("args", Some (JArr (map JStr (save_args (argsText d)))));
    ("sandboxHome", Some (JBool (sandboxHome d)));
    ("useBottles", Some (JBool (usingBottles d)));
    ("bottleName",
     if usingBottles d then opt_str (or_undefined (JsString.trim (bottleName d)))
     else None);
    ("coverFile", opt_str (or_undefined (JsString.trim (coverFile d)))) ].

(** The payload of the [save] event. *)
Record SavePayload := mkSavePayload {
  s_id : string;
  s_title : string;
  s_engineType : string;
  s_path : string;
  s_runtimeVersion : option string;
  s_settings : object
}.

(** [handleSave()]: nothing is emitted without a game. *)
Definition handleSave (d : Dialog) : option SavePayload :=
  match game d with
  | None => None
  | Some g =>
      Some {| s_id := Types.id g;
              s_title := JsString.trim (title d);
              s_engineType := engineType d;
              s_path := JsString.trim (path d);
              s_runtimeVersion := or_undefined (JsString.trim (runtimeVersion d));
              s_settings := save_settings d |}
  end.

(** [saveGameSettings(id, input)] sends [save_game_settings]. *)
Definition saveGameSettings_command (p : SavePayload) : Command :=
  mkCommand "save_game_settings"
            [("id", JStr (s_id p)); ("input", JObj (serialise (s_settings p)))].

Definition saved_fields : list string :=
  ["engineType"; "entryPath"; "runtimeVersion"; "args"; "sandboxHome";
   "useBottles"; "bottleName"; "coverFile"].





Definition is_boolean (v : json) : bool :=
  match v with JBool _ => true | _ => false end.


End GameSettingsDialog.

(** ** The registry behind the command boundary (sections 3, 4.2 and 6 of
    the specification) *)
Module Registry.
Import Ipc Types Wire.

(** Modelled from the spec: the engine types, "a closed tagged variant
    internally" (section 9); the registry and its engine types are not part
    of the front end. *)
Inductive EngineType :=
| RpgMakerVX
| RpgMakerVXAce
| RpgMakerMV
| RpgMakerMZ
| RenPy
| Other.

(** The open string that stands for an engine type in the boundary layer;
    the strings are those of [enum EngineType] in [src/types/engine.ts]. *)
Definition engine_to_boundary (t : EngineType) : string :=
  match t with
  | RpgMakerVX => "rpgmakervx"
  | RpgMakerVXAce => "rpgmakervxace"
  | RpgMakerMV => "rpgmakermv"
  | RpgMakerMZ => "rpgmakermz"
  | RenPy => "renpy"
  | Other => "other"
  end.

(** Modelled from the spec: "unknown boundary strings map to Other rather
    than failing". *)
Definition engine_of_boundary (s : string) : EngineType :=
  if String.eqb s "rpgmakervx" then RpgMakerVX
  else if String.eqb s "rpgmakervxace" then RpgMakerVXAce
  else if String.eqb s "rpgmakermv" then RpgMakerMV
  else if String.eqb s "rpgmakermz" then RpgMakerMZ
  else if String.eqb s "renpy" then RenPy
  else Other.

(** Modelled from the spec: the Game entity of the Registry (section 3),
    whose code is not part of the front end. [pathValid] is not stored. *)
Record Game := mkGame {
  id : string;
  title : string;
  engineType : EngineType;
  path : string;
  profileKey : string;
  runtimeVersion : option string;
  coverImagePath : option string;
  createdAt : Z;
  updatedAt : Z;
  lastPlayedAt : option Z
}.

(** Modelled from the spec: the error kinds of section 7 that the modelled
    operations report. *)
Inductive Error :=
| InvalidPath
| GameNotFound.

(** Modelled from the spec: the durable store of Game rows, newest first. *)
Definition registry := list Game.

Section Backend.
(** The file system: whether a path exists and is readable. *)
Variable path_exists : string -> bool.
(** The Classifier applied to the directory at a path. *)
Variable classify_path : string -> EngineType.
(** The title derived from the directory name. *)
Variable title_of_path : string -> string.

(** Modelled from the spec: the row a newly discovered game gets. It
    "assigns a new id and profileKey"; the profile key "defaults to id". *)
Definition new_game (new_id : string) (now : Z) (p : string)
    (t : option EngineType) (ttl : option string) : Game :=
  {| id := new_id;
     title := default (title_of_path p) ttl;
     engineType := default (classify_path p) t;
     path := p;
     profileKey := new_id;
     runtimeVersion := None;
     coverImagePath := None;
     createdAt := now;
     updatedAt := now;
     lastPlayedAt := None |}.

(** Modelled from the spec: [import(path, engineType) -> Game]. It
    "validates path exists, classifies if engine type is unspecified,
    derives a title from the directory name if none supplied, assigns a new
    id and profileKey, inserts the Game, and returns it. Fails with
    InvalidPath if the path does not exist or is not readable." The fresh
    identifier and the clock are inputs. *)
Definition import (new_id : string) (now : Z) (p : string)
    (t : option EngineType) (ttl : option string) (reg : registry)
  : Error + Game * registry :=
  if path_exists p then
    let g := new_game new_id now p t ttl in inr (g, g :: reg)
  else inl InvalidPath.

(** Modelled from the spec: the command [importGameDir: path, engineType?
    -> Game], which takes the engine type in its boundary form. *)
Definition importGameDir (new_id : string) (now : Z) (p : string)
    (t : option string) (reg : registry) : Error + Game * registry :=
  import new_id now p (option_map engine_of_boundary t) None reg.

(** Modelled from the spec: [getGame: id -> Game?], with [pathValid]
    "computed on read by checking filesystem existence". *)
Definition getGame (id' : string) (reg : registry) : option (Game * bool) :=
  match List.find (fun g => String.eqb (id g) id') reg with
  | Some g => Some (g, path_exists (path g))
  | None => None
  end.

(** Modelled from the spec: a Game as the object a command returns over
    the boundary: the fields of the Game entity (section 3), the engine type
    as its string, and [pathValid] as computed. *)
Definition Game_object (g : Game) (valid : bool) : object :=
  [ ("id", Some (JStr (id g)));
    ("title", Some (JStr (title g)));
    ("engineType", Some (JStr (engine_to_boundary (engineType g))));
    ("path", Some (JStr (path g)));
    ("pathValid", Some (JBool valid));
    ("profileKey", Some (JStr (profileKey g)));
    ("runtimeVersion", opt_str (runtimeVersion g));
    ("coverImagePath", opt_str (coverImagePath g));
    ("createdAt", Some (JNum (createdAt g)));
    ("updatedAt", Some (JNum (updatedAt g)));
    ("lastPlayedAt", opt_num (lastPlayedAt g)) ].

(** Modelled from the spec: what the [getGame] command answers, [None]
    being no Game. *)
Definition getGame_reply (id' : string) (reg : registry)
  : option (list (string * json)) :=
  option_map (fun gv => serialise (Game_object (fst gv) (snd gv))) (getGame id' reg).

End Backend.

End Registry.

(** ** The scanner (section 4.2 of the specification) *)
Module Scanner.
Import Registry.

(** Modelled from the spec: a directory tree on disk. A directory has a
    name, may be unreadable, holds files (by name) and subdirectories. *)
Inductive Dir :=
| mkDir (name : string) (readable : bool) (files : list string) (subdirs : list Dir).

Definition name (d : Dir) : string := let 'mkDir n _ _ _ := d in n.
Definition readable (d : Dir) : bool := let 'mkDir _ r _ _ := d in r.
Definition files (d : Dir) : list string := let 'mkDir _ _ f _ := d in f.
Definition subdirs (d : Dir) : list Dir := let 'mkDir _ _ _ s := d in s.

(** Modelled from the spec: the result of [scan]. *)
Record ScanResult := mkScanResult {
  scannedDirs : nat;
  foundGames : nat;
  imported : nat;
  skippedExisting : nat
}.

(** Modelled from the spec: a directory visited by the walk, as its path
    below the root (the directory names leading to it) and the directory
    itself. *)
Definition visit := (list string * Dir)%type.

(** Modelled from the spec: the "bounded-depth traversal from root (depth 0
    = root itself; traversal never descends past maxDepth)"; "the walk does
    not abort on an unreadable subdirectory -- it is skipped and traversal
    continues". [remaining] is the number of levels still allowed below
    [dir]; the result lists the directories visited, in order. *)
Fixpoint traverse (remaining : nat) (here : list string) (dir : Dir) : list visit :=
  if readable dir then
    (here, dir)
      :: match remaining with
         | O => []
         | S r => flat_map (fun c => traverse r (here ++ [name c]) c) (subdirs dir)
         end
  else [].

(** Modelled from the spec: the resolved path of a visited directory. *)
Definition resolve (root : string) (below : list string) : string :=
  fold_left (fun p n => p ++ "/" ++ n) below root.

(** Modelled from the spec: whether "a Game with that resolved path"
    exists in the Registry. *)
Definition path_known (p : string) (reg : registry) : bool :=
  existsb (fun g => String.eqb (path g) p) reg.

Section Scan.
(** The Classifier on the file names of a directory: [Some t] is a
    positive classification with engine type [t]. *)
Variable classify : list string -> option EngineType.
(** The title derived from a directory. *)
Variable title_of_path : string -> string.
(** The identifier generator: the id of the n-th row ever inserted. *)
Variable fresh_id : nat -> string.
Variable now : Z.

(** Modelled from the spec: what happens at one directory. "At each
    directory it applies the Classifier; a positive classification is
    counted in foundGames; if a Game with that resolved path does not
    already exist in the Registry, it is imported and imported increments,
    else skippedExisting increments." *)
Definition scan_step (root : string) (acc : registry * ScanResult) (v : visit)
  : registry * ScanResult :=
  let '(reg, res) := acc in
  let res := {| scannedDirs := S (scannedDirs res); foundGames := foundGames res;
                imported := imported res; skippedExisting := skippedExisting res |} in
  match classify (files (snd v)) with
  | None => (reg, res)
  | Some t =>
      let p := resolve root (fst v) in
      if path_known p reg then
        (reg,
         {| scannedDirs := scannedDirs res; foundGames := S (foundGames res);
            imported := imported res; skippedExisting := S (skippedExisting res) |})
      else
        (new_game (fun _ => t) title_of_path (fresh_id (length reg)) now p (Some t) None
           :: reg,
         {| scannedDirs := scannedDirs res; foundGames := S (foundGames res);
            imported := S (imported res); skippedExisting := skippedExisting res |})
  end.

Definition no_result : ScanResult := mkScanResult 0 0 0 0.

(** Modelled from the spec: [scan(root, maxDepth)] over the tree found at
    [root]; it returns the new registry and the counters. *)
Definition scan (root : string) (tree : Dir) (maxDepth : nat) (reg : registry)
  : registry * ScanResult :=
  fold_left (scan_step root) (traverse maxDepth [] tree) (reg, no_result).

(** Modelled from the spec: the directories [scan] visits. *)
Definition visited (tree : Dir) (maxDepth : nat) : list visit :=
  traverse maxDepth [] tree.

End Scan.

(** [d] lies at the end of the path [below] under [tree]. *)
Fixpoint at_path (tree : Dir) (below : list string) (d : Dir) : Prop :=
  match below with
  | [] => d = tree
  | n :: below' => exists c, In c (subdirs tree) /\ name c = n /\ at_path c below' d
  end.

End Scanner.

(** ** Runtime acquisition (section 4.3 of the specification) *)
Module Acquisition.

(** Modelled from the spec: the Engine entity of the Registry, whose code
    is not part of the front end. *)
Record Engine := mkEngine {
  e_id : string;
  e_name : string;
  e_version : string;
  e_engineType : string;
  e_installPath : string;
  e_installedAt : Z
}.

(** Modelled from the spec: a downloaded artifact, by its content. *)
Definition Artifact := string.

(** Modelled from the spec: the state an install acts on: the Engine rows
    of the Registry, the install directories on disk, and the temporary
    location downloads go to. *)
Record System := mkSystem {
  engines : list Engine;
  install_dirs : list (string * Artifact);
  temp_files : list (string * Artifact)
}.

(** Modelled from the spec: "State machine per install task: Resolving ->
    Downloading -> Verifying -> Installing -> Installed, with Failed
    reachable from any non-terminal state." *)
Inductive Stage :=
| Resolving
| Downloading
| Verifying
| Installing
| Installed
| Failed.

(** Modelled from the spec: what [resolveStable] answers,
    [{version, downloadTarget}]. *)
Record Stable := mkStable {
  version : string;
  downloadTarget : string
}.

(** Modelled from the spec: how a download ends, completely or broken off
    with part of the bytes. *)
Inductive Fetch :=
| Fetched (a : Artifact)
| BrokenOff (partial : Artifact).

(** Modelled from the spec: the world outside an install task: the version
    source, the network, the expected size when it is known, whether the
    final rename succeeds, and the clock. *)
Record Env := mkEnv {
  resolveStable : string -> option Stable;
  fetch : string -> string -> Fetch;
  expected_size : string -> string -> option nat;
  rename_succeeds : bool;
  clock : Z
}.

(** Modelled from the spec: an install task. *)
Record Task := mkTask {
  stage : Stage;
  family : string;
  flavor : string;
  stable : option Stable
}.

Definition with_stage (s : Stage) (t : Task) : Task :=
  {| stage := s; family := family t; flavor := flavor t; stable := stable t |}.

Definition temp_path (t : Task) : string :=
  "tmp/" ++ family t ++ "-" ++ flavor t ++ ".part".

Definition final_dir (t : Task) (v : string) : string :=
  "engines/" ++ family t ++ "/" ++ v ++ "-" ++ flavor t.

Fixpoint lookup_file (p : string) (fs : list (string * Artifact)) : option Artifact :=
  match fs with
  | [] => None
  | (p', a) :: fs' => if String.eqb p p' then Some a else lookup_file p fs'
  end.

Definition remove_file (p : string) (fs : list (string * Artifact))
  : list (string * Artifact) :=
  List.filter (fun f => negb (String.eqb (fst f) p)) fs.

Definition write_temp (p : string) (a : Artifact) (sys : System) : System :=
  {| engines := engines sys; install_dirs := install_dirs sys;
     temp_files := (p, a) :: remove_file p (temp_files sys) |}.

(** Modelled from the spec: "verifies completeness (size/checksum if
    available)". *)
Definition complete (env : Env) (s : Stable) (fl : string) (a : Artifact) : bool :=
  match expected_size env (downloadTarget s) fl with
  | Some n => Nat.eqb (String.length a) n
  | None => true
  end.

(** Modelled from the spec: "atomically moves the verified artifact into
    its final install directory and only then inserts the Engine row". *)
Definition install (env : Env) (t : Task) (s : Stable) (a : Artifact) (sys : System)
  : System :=
  let dir := final_dir t (version s) in
  {| engines :=
       mkEngine (family t ++ "-" ++ version s ++ "-" ++ flavor t)
                (family t) (version s) (family t) dir (clock env)
       :: engines sys;
     install_dirs := (dir, a) :: install_dirs sys;
     temp_files := remove_file (temp_path t) (temp_files sys) |}.

(** Modelled from the spec: one transition of an install task. The
    download goes "to a temporary location"; a failed step leads to
    [Failed]; [Installed] and [Failed] are terminal. *)
Definition step (env : Env) (ts : Task * System) : Task * System :=
  let '(t, sys) := ts in
  match stage t with
  | Resolving =>
      match resolveStable env (family t) with
      | Some s =>
          ({| stage := Downloading; family := family t; flavor := flavor t;
              stable := Some s |}, sys)
      | None => (with_stage Failed t, sys)
      end
  | Downloading =>
      match stable t with
      | Some s =>
          match fetch env (downloadTarget s) (flavor t) with
          | Fetched a => (with_stage Verifying t, write_temp (temp_path t) a sys)
          | BrokenOff a => (with_stage Failed t, write_temp (temp_path t) a sys)
          end
      | None => (with_stage Failed t, sys)
      end
  | Verifying =>
      match stable t, lookup_file (temp_path t) (temp_files sys) with
      | Some s, Some a =>
          if complete env s (flavor t) a then (with_stage Installing t, sys)
          else (with_stage Failed t, sys)
      | _, _ => (with_stage Failed t, sys)
      end
  | Installing =>
      match stable t, lookup_file (temp_path t) (temp_files sys) with
      | Some s, Some a =>
          if rename_succeeds env then (with_stage Installed t, install env t s a sys)
          else (with_stage Failed t, sys)
      | _, _ => (with_stage Failed t, sys)
      end
  | Installed | Failed => (t, sys)
  end.

(** Modelled from the spec: the task after [n] transitions; a crash after
    [n] transitions leaves the system as [run] gives it. *)
Fixpoint run (env : Env) (n : nat) (ts : Task * System) : Task * System :=
  match n with
  | O => ts
  | S n' => run env n' (step env ts)
  end.

Definition start (fam fl : string) : Task :=
  {| stage := Resolving; family := fam; flavor := fl; stable := None |}.

(** Modelled from the spec: [downloadAndInstall(engineFamily, flavor)],
    the four transitions from [Resolving]. *)
Definition downloadAndInstall (env : Env) (fam fl : string) (sys : System)
  : Task * System :=
  run env 4 (start fam fl, sys).

End Acquisition.

(** ** [features/games/GameSettingsModal.vue]: renaming and deleting
    ([saveTitle], [deleteGame]) *)
Module GameSettingsModalActions.
Import Js Tauri Ipc GameSettingsModal.

(** What the component emits to its parent. *)
Inductive Emit :=
| UpdateOpen (v : bool)
| Deleted (gameId : string)
| TitleUpdated (gameId : string).

(** The refs, and the events emitted so far, most recent first. *)
Definition Modal := (ModalState * list Emit)%type.

Definition emit (e : Emit) : M Modal unit :=
  modify (fun m : Modal => (fst m, e :: snd m)).

(** [close()] *)
Definition close : M Modal unit := emit (UpdateOpen false).

Section Actions.
Variable quote : string -> string.
Variable title_backend : Command -> InvokeOutcome unit.
Variable delete_backend : Command -> InvokeOutcome unit.

(** [saveTitle()]; [game] is the id of [props.game]. *)
Definition saveTitle (game : option string) : M Modal unit :=
  match game with
  | None => ret tt
  | Some gameId =>
      (m <- get ;;
       let title := JsString.trim (titleDraft (fst m)) in
       if JsString.is_empty title then ret tt
       else
         outcome <- send title_backend
           (mkCommand "update_game_title" [("gameId", JStr gameId); ("title", JStr title)]) ;;
         res <- lift (invokeResult quote outcome) ;;
         if is_ok res then emit (TitleUpdated gameId) else ret tt)%ipc
  end.

(** [deleteGame()]; [confirmed] is the answer of the confirmation dialog. *)
Definition deleteGame (game : option string) (confirmed : bool) : M Modal unit :=
  match game with
  | None => ret tt
  | Some gameId =>
      if negb confirmed then ret tt
      else
        (outcome <- send delete_backend (mkCommand "delete_game" [("gameId", JStr gameId)]) ;;
         res <- lift (invokeResult quote outcome) ;;
         if is_ok res then (emit (Deleted gameId) ;;; close) else ret tt)%ipc
  end.

End Actions.

End GameSettingsModalActions.

(** ** [src/App.vue]: the other operations of the shell ([refreshGames],
    [pickDirectory], [importGame], [scanGames], [downloadNwjsStable],
    [cleanupContainers], [engineLabel]) *)
Module AppShell.
Import Js Tauri Ipc App.

(** An element of the answer to [list_games]; [engineType] may be missing
    ([?? "unknown"]). *)
Record ListedGame := mkListedGame {
  l_id : string;
  l_title : string;
  l_engineType : option string;
  l_path : string;
  l_pathValid : bool;
  l_runtimeVersion : option string
}.

(** The answer to [import_game_dir]. *)
Record ImportedGame := mkImportedGame {
  i_id : string;
  i_title : string;
  i_engineType : string;
  i_path : string;
  i_pathValid : bool
}.

(** The answer to [scan_games]. *)
Record ScanReply := mkScanReply {
  s_taskId : string;
  s_scannedDirs : Z;
  s_foundGames : Z;
  s_imported : Z;
  s_skippedExisting : Z
}.

(** The answers to [get_nwjs_stable_info] and [download_nwjs_stable]. *)
Record StableInfo := mkStableInfo { n_version : string; n_target : string }.
Record Installed := mkInstalled {
  d_version : string;
  d_target : string;
  d_installDir : string
}.

(** The answer to [cleanup_unused_containers]. *)
Record CleanupReply := mkCleanupReply { deleted : Z }.

(** The shell: the refs of [App.AppState] and those of the two modals. *)
Record Shell := mkShell {
  core : AppState;
  settingsOpen : bool;
  gameSettingsOpen : bool;
  gameSettingsGameId : option string
}.

Definition with_core (f : AppState -> AppState) (s : Shell) : Shell :=
  {| core := f (core s); settingsOpen := settingsOpen s;
     gameSettingsOpen := gameSettingsOpen s;
     gameSettingsGameId := gameSettingsGameId s |}.

(** [openSettings()] *)
Definition openSettings (s : Shell) : Shell :=
  {| core := core s; settingsOpen := true;
     gameSettingsOpen := gameSettingsOpen s;
     gameSettingsGameId := gameSettingsGameId s |}.

(** [openGameSettings(id)] *)
Definition openGameSettings (id' : string) (s : Shell) : Shell :=
  {| core := core s; settingsOpen := settingsOpen s;
     gameSettingsOpen := true; gameSettingsGameId := Some id' |}.

(** [onKeyDown(e)] with [escape] telling whether the key is Escape. *)
Definition onKeyDown (escape : bool) (s : Shell) : Shell :=
  if escape then
    {| core := core s; settingsOpen := false; gameSettingsOpen := false;
       gameSettingsGameId := gameSettingsGameId s |}
  else s.

(** [engineLabel(engineType)] *)
Definition engineLabel (engineType : string) : string :=
  if String.eqb engineType "rmmz" then "RPG Maker MZ"
  else if String.eqb engineType "rmmv" then "RPG Maker MV"
  else "未知类型".

(** The element of [games] made from a listed game. *)
Definition to_entry (g : ListedGame) : GameEntry :=
  {| id := l_id g; title := l_title g;
     engineType := default "unknown" (l_engineType g);
     version := None; path := l_path g; pathValid := l_pathValid g |}.

(** [selectId ?? games.value[0]?.id ?? ""] *)
Definition select (selectId : option string) (gs : list GameEntry) : string :=
  match selectId with
  | Some i => i
  | None => match gs with g :: _ => id g | [] => "" end
  end.

(** How the directory dialog ends. *)
Inductive DialogOutcome :=
| DialogThrew (err : value)
| DialogNull
| DialogPath (p : string)
| DialogPaths (ps : list string).

(** [pickDirectory(title)] *)
Definition pickDirectory (d : DialogOutcome) : option string :=
  match d with
  | DialogThrew _ => None
  | DialogNull => None
  | DialogPath p => if JsString.is_empty p then None else Some p
  | DialogPaths ps => match ps with p :: _ => Some p | [] => None end
  end.

(** [!dir] *)
Definition not_picked (dir : option string) : bool :=
  match dir with
  | None => true
  | Some p => JsString.is_empty p
  end.

Section Operations.
Variable quote : string -> string.
Variable list_backend : Command -> InvokeOutcome (list ListedGame).
Variable import_backend : Command -> InvokeOutcome ImportedGame.
Variable scan_backend : Command -> InvokeOutcome ScanReply.
Variable info_backend : Command -> InvokeOutcome StableInfo.
Variable download_backend : Command -> InvokeOutcome Installed.
Variable cleanup_backend : Command -> InvokeOutcome CleanupReply.

(** [refreshGames(selectId)] *)
Definition refreshGames (selectId : option string) : M AppState unit :=
  (outcome <- send list_backend (mkCommand "list_games" []) ;;
   list <- lift (safeInvoke outcome) ;;
   match list with
   | None => ret tt
   | Some l =>
       modify (fun st =>
         let gs := map to_entry l in
         {| games := gs; selectedGameId := select selectId gs;
            currentTask := currentTask st |})
   end)%ipc.

(** An operation on the core refs, run in the shell. *)
Definition on_core {A} (m : M AppState A) : M Shell A :=
  fun w =>
    let r := m (mkWorld (core (ui w)) (issued w)) in
    (fst r, mkWorld (with_core (fun _ => ui (snd r)) (ui w)) (issued (snd r))).

(** [importGame()] *)
Definition importGame (dialog : DialogOutcome) : M Shell unit :=
  let dir := pickDirectory dialog in
  if not_picked dir then ret tt
  else
    (on_core (modify (setStatus "导入中…" 0)) ;;;
     outcome <- send import_backend
       (mkCommand "import_game_dir" [("path", JStr (default "" dir))]) ;;
     res <- lift (invokeResult quote outcome) ;;
     match res with
     | Err e =>
         text <- lift (ToString e) ;;
         on_core (modify (setStatus ("导入失败：" ++ text) 0))
     | Ok data =>
         on_core (refreshGames (Some (i_id data))) ;;;
         modify (openGameSettings (i_id data)) ;;;
         on_core (modify (setStatus ("已导入：" ++ i_title data) 100))
     end)%ipc.

(** [scanGames()] *)
Definition scanGames (dialog : DialogOutcome) : M AppState unit :=
  let root := pickDirectory dialog in
  if not_picked root then ret tt
  else
    (modify (setStatus "开始扫描…" 0) ;;;
     outcome <- send scan_backend
       (mkCommand "scan_games" [("root", JStr (default "" root)); ("maxDepth", JNum 6)]) ;;
     res <- lift (invokeResult quote outcome) ;;
     match res with
     | Err e =>
         text <- lift (ToString e) ;;
         modify (setStatus ("扫描失败：" ++ text) 0)
     | Ok data =>
         refreshGames None ;;;
         modify (setStatus ("扫描完成：新增 " ++ pretty (s_imported data)
                            ++ "（已存在 " ++ pretty (s_skippedExisting data) ++ "）") 100)
     end)%ipc.

(** [downloadNwjsStable()] *)
Definition downloadNwjsStable : M AppState unit :=
  (infoOutcome <- send info_backend (mkCommand "get_nwjs_stable_info" []) ;;
   infoRes <- lift (invokeResult quote infoOutcome) ;;
   match infoRes with
   | Ok info => modify (setStatus ("准备下载 NW.js " ++ n_version info ++ "…") 0)
   | Err e =>
       text <- lift (ToString e) ;;
       modify (setStatus ("准备下载 NW.js…（" ++ text ++ "）") 0)
   end ;;;
   dlOutcome <- send download_backend
     (mkCommand "download_nwjs_stable" [("flavor", JStr "normal")]) ;;
   dlRes <- lift (invokeResult quote dlOutcome) ;;
   match dlRes with
   | Ok data => modify (setStatus ("已安装 NW.js " ++ d_version data) 100)
   | Err e =>
       text <- lift (ToString e) ;;
       modify (setStatus ("下载失败：" ++ text) 0)
   end)%ipc.

(** [cleanupContainers()] *)
Definition cleanupContainers : M AppState unit :=
  (modify (setStatus "清理无用容器…" 0) ;;;
   outcome <- send cleanup_backend (mkCommand "cleanup_unused_containers" []) ;;
   res <- lift (invokeResult quote outcome) ;;
   match res with
   | Err e =>
       text <- lift (ToString e) ;;
       modify (setStatus ("清理失败：" ++ text) 0)
   | Ok data =>
       modify (setStatus ("已清理：无用容器 " ++ pretty (deleted data) ++ " 个") 100)
   end)%ipc.

End Operations.

End AppShell.

(** ** [hooks/useGameLibraryActions.ts]: saving a game from the settings
    dialog ([handleGameSave]) *)
Module GameLibraryActions.
Import Js Tauri Ipc Types Wire GameSettingsDialog.

(** A toast shown to the user. *)
Inductive Toast :=
| ToastSuccess (text : string)
| ToastError (text : value).

(** What the options of the composable did: the toasts shown (most recent
    first), whether the settings dialog was closed, how often the list was
    refreshed. *)
Record Effects := mkEffects {
  toasts : list Toast;
  settingsClosed : bool;
  refreshes : nat
}.

Definition toast (t : Toast) (e : Effects) : Effects :=
  {| toasts := t :: toasts e; settingsClosed := settingsClosed e;
     refreshes := refreshes e |}.

Definition closeGameSettings (e : Effects) : Effects :=
  {| toasts := toasts e; settingsClosed := true; refreshes := refreshes e |}.

Definition refresh (e : Effects) : Effects :=
  {| toasts := toasts e; settingsClosed := settingsClosed e;
     refreshes := S (refreshes e) |}.

(** [updateGame(id, input)] as a command. *)
Definition update_game_command (p : SavePayload) : Command :=
  mkCommand "update_game"
    [("id", JStr (s_id p));
     ("input", JObj (serialise
        [("title", Some (JStr (s_title p)));
         ("engineType", Some (JStr (s_engineType p)));
         ("path", Some (JStr (s_path p)));
         ("runtimeVersion", opt_str (s_runtimeVersion p))]))].

Section Save.
Variable update_backend : Command -> InvokeOutcome GameDto.
Variable settings_backend : Command -> InvokeOutcome unit.

(** [e instanceof Error ? e.message : '保存失败'] *)
Definition save_error (e : value) : value :=
  if instanceof_Error e then get_message e else VStr "保存失败".

(** [handleGameSave(payload)] *)
Definition handleGameSave (p : SavePayload) : M Effects unit :=
  (updated <- send update_backend (update_game_command p) ;;
   match Api.invoke updated with
   | Rejected e => modify (toast (ToastError (save_error e)))
   | Resolved _ =>
       saved <- send settings_backend (saveGameSettings_command p) ;;
       match Api.invoke saved with
       | Rejected e => modify (toast (ToastError (save_error e)))
       | Resolved _ =>
           modify (toast (ToastSuccess "已保存游戏设置")) ;;;
           modify closeGameSettings ;;;
           modify refresh
       end
   end)%ipc.

End Save.

End GameLibraryActions.

(** ** Numbers, as far as the status bar and the scan form use them *)
Module Numbers.

(** A JavaScript number: NaN, or a point of a totally ordered set that also
    holds the two infinities. Only comparisons are made on it. *)
Inductive number (num : Type) :=
| NaN
| Num (x : num).
Arguments NaN {num}.
Arguments Num {num} x.

Section Order.
Context {num : Type}.
(** [a <= b] *)
Variable leb : num -> num -> bool.
(** [x === 0] *)
Variable is_zero : num -> bool.

(** [p || d]: NaN and zero are falsy. *)
Definition or_number (p : number num) (d : num) : num :=
  match p with
  | NaN => d
  | Num x => if is_zero x then d else x
  end.

(** [Math.min(hi, x)] and [Math.max(lo, x)] on numbers that are not NaN. *)
Definition math_min (hi x : num) : num := if leb x hi then x else hi.
Definition math_max (lo x : num) : num := if leb lo x then x else lo.

(** [Math.max(0, Math.min(100, Number(progress) || 0))] *)
Definition safe_progress (zero hundred : num) (progress : number num) : num :=
  math_max zero (math_min hundred (or_number progress zero)).

(** [Math.max(1, Number(maxDepth) || 1)] *)
Definition safe_depth (one : num) (maxDepth : number num) : num :=
  math_max one (or_number maxDepth one).

End Order.

End Numbers.

(** ** [hooks/useTaskStatus.ts]: the status task and its clear timer
    ([updateTask]) *)
Module TaskStatus.
Import Numbers.

Section Status.
Context {num : Type}.
Variable leb : num -> num -> bool.
Variable is_zero : num -> bool.
Variables zero hundred : num.

(** The composable: the task shown, the id kept in [taskClearTimer], and the
    timers of the window that are armed; [next] is the id the next
    [setTimeout] returns. *)
Record State := mkState {
  currentTask : option (string * num);
  taskClearTimer : option nat;
  armed : list nat;
  next : nat
}.

Definition initial : State := mkState None None [] 1.

(** [window.clearTimeout(id)] *)
Definition clearTimeout (t : nat) (l : list nat) : list nat :=
  List.filter (fun x => negb (Nat.eqb x t)) l.

(** [updateTask(label, progress)] *)
Definition updateTask (label : string) (progress : number num) (st : State) : State :=
  let armed1 :=
    match taskClearTimer st with
    | Some t => clearTimeout t (armed st)
    | None => armed st
    end in
  let safeProgress := safe_progress leb is_zero zero hundred progress in
  if leb hundred safeProgress then
    {| currentTask := Some (label, safeProgress);
       taskClearTimer := Some (next st);
       armed := next st :: armed1;
       next := S (next st) |}
  else
    {| currentTask := Some (label, safeProgress);
       taskClearTimer := None;
       armed := armed1;
       next := next st |}.

(** The callback of the timer: an armed timer fires once and clears the
    task; it leaves [taskClearTimer] alone. *)
Definition fire (t : nat) (st : State) : State :=
  if existsb (Nat.eqb t) (armed st) then
    {| currentTask := None;
       taskClearTimer := taskClearTimer st;
       armed := clearTimeout t (armed st);
       next := next st |}
  else st.

(** [statusBarVisible] *)
Definition statusBarVisible (st : State) : bool :=
  match currentTask st with Some _ => true | None => false end.

(** What can happen to the composable. *)
Inductive Event :=
| Update (label : string) (progress : number num)
| Fire (t : nat).

Definition step (st : State) (e : Event) : State :=
  match e with
  | Update l p => updateTask l p st
  | Fire t => fire t st
  end.

Definition run (es : list Event) : State := fold_left step es initial.

End Status.

End TaskStatus.

(** ** [src/App.vue]: dragging files onto the window ([handleDragEnter],
    [handleDragOver], [handleDragLeave], [handleDrop]) *)
Module DragDrop.

Record State := mkState {
  isDragging : bool;
  dragCounter : Z;
  pendingImportPath : string;
  importOpen : bool;
  notices : list string
}.

Definition initial : State := mkState false 0 "" false [].

(** [handleDragEnter(event)]; [files] tells whether the transfer carries
    files. *)
Definition handleDragEnter (files : bool) (st : State) : State :=
  if negb files then st
  else {| isDragging := true; dragCounter := dragCounter st + 1;
          pendingImportPath := pendingImportPath st; importOpen := importOpen st;
          notices := notices st |}.

(** [handleDragOver(event)] only marks the drop as a copy. *)
Definition handleDragOver (files : bool) (st : State) : State := st.

(** [handleDragLeave(event)] *)
Definition handleDragLeave (files : bool) (st : State) : State :=
  if negb files then st
  else
    let c := dragCounter st - 1 in
    if c <=? 0 then
      {| isDragging := false; dragCounter := 0;
         pendingImportPath := pendingImportPath st; importOpen := importOpen st;
         notices := notices st |}
    else
      {| isDragging := isDragging st; dragCounter := c;
         pendingImportPath := pendingImportPath st; importOpen := importOpen st;
         notices := notices st |}.

(** [handleDrop(event)]; [dropped] lists the [path] of each dropped file,
    [None] when the file has none. *)
Definition handleDrop (dropped : list (option string)) (st : State) : State :=
  match dropped with
  | [] =>
      {| isDragging := false; dragCounter := 0;
         pendingImportPath := pendingImportPath st; importOpen := importOpen st;
         notices := notices st |}
  | first :: _ =>
      match first with
      | Some p =>
          if JsString.is_empty p then
            {| isDragging := false; dragCounter := 0;
               pendingImportPath := pendingImportPath st; importOpen := importOpen st;
               notices := "仅支持拖拽本地可执行文件" :: notices st |}
          else
            {| isDragging := false; dragCounter := 0;
               pendingImportPath := p; importOpen := true;
               notices := "已选择拖拽文件，请选择引擎类型" :: notices st |}
      | None =>
          {| isDragging := false; dragCounter := 0;
             pendingImportPath := pendingImportPath st; importOpen := importOpen st;
             notices := "仅支持拖拽本地可执行文件" :: notices st |}
      end
  end.

Inductive Event :=
| DragEnter (files : bool)
| DragOver (files : bool)
| DragLeave (files : bool)
| Drop (dropped : list (option string)).

Definition step (st : State) (e : Event) : State :=
  match e with
  | DragEnter f => handleDragEnter f st
  | DragOver f => handleDragOver f st
  | DragLeave f => handleDragLeave f st
  | Drop d => handleDrop d st
  end.

(** The DOM handlers are installed only when the window's own drag events
    cannot be had ([initDragDrop] falls back to [setupDomDragDrop]). *)
Definition run (es : list Event) : State := fold_left step es initial.

(** A drag event of the window: its [type] and its [paths]. *)
Record WindowEvent := mkWindowEvent {
  type : string;
  paths : list string
}.

(** The callback [initDragDrop] gives to [onDragDropEvent]. *)
Definition onDragDropEvent (e : WindowEvent) (st : State) : State :=
  if String.eqb (type e) "enter" || String.eqb (type e) "over" then
    {| isDragging := true; dragCounter := dragCounter st;
       pendingImportPath := pendingImportPath st; importOpen := importOpen st;
       notices := notices st |}
  else if String.eqb (type e) "leave" then
    {| isDragging := false; dragCounter := 0;
       pendingImportPath := pendingImportPath st; importOpen := importOpen st;
       notices := notices st |}
  else if String.eqb (type e) "drop" then
    match paths e with
    | p :: _ =>
        if JsString.is_empty p then
          {| isDragging := false; dragCounter := 0;
             pendingImportPath := pendingImportPath st; importOpen := importOpen st;
             notices := "仅支持拖拽本地可执行文件" :: notices st |}
        else
          {| isDragging := false; dragCounter := 0;
             pendingImportPath := p; importOpen := true;
             notices := "已选择拖拽文件，请选择引擎类型" :: notices st |}
    | [] =>
        {| isDragging := false; dragCounter := 0;
           pendingImportPath := pendingImportPath st; importOpen := importOpen st;
           notices := "仅支持拖拽本地可执行文件" :: notices st |}
    end
  else st.

Definition run_window (es : list WindowEvent) : State :=
  fold_left (fun st e => onDragDropEvent e st) es initial.

End DragDrop.

(** ** [components/ScanDialog.vue]: the scan form ([submit]) *)
Module ScanDialog.
Import Numbers.

Section Form.
Context {num : Type}.
Variable leb : num -> num -> bool.
Variable is_zero : num -> bool.
Variable one : num.

(** [submit()]: what is emitted, if anything; [maxDepth] is
    [Number(maxDepth.value)]. *)
Definition submit (root : string) (maxDepth : number num) : option (string * num) :=
  if JsString.is_empty root then None
  else Some (root, safe_depth leb is_zero one maxDepth).

End Form.

End ScanDialog.

(** ** [src/App.vue]: asking before a game is deleted ([onDeleteGame],
    [confirmDeleteGame]) *)
Module DeleteConfirm.
Import Js Tauri Types UseGames.

(** The refs of the page that the two handlers touch, the store of
    [useGames], the toasts shown (most recent first) and the ids for which
    [deleteGame] was called (most recent first). *)
Record Page := mkPage {
  store : Store;
  pendingDeleteId : option string;
  pendingDeleteTitle : string;
  deleteConfirmOpen : bool;
  toasts : list string;
  deleteCalls : list string
}.

(** [onDeleteGame(id)] *)
Definition onDeleteGame (id' : string) (p : Page) : Page :=
  let game := List.find (fun g => String.eqb (id g) id') (games (store p)) in
  {| store := store p;
     pendingDeleteId := Some id';
     pendingDeleteTitle := match game with Some g => title g | None => "" end;
     deleteConfirmOpen := true;
     toasts := toasts p;
     deleteCalls := deleteCalls p |}.

(** [!pendingDeleteId.value] *)
Definition no_pending (p : option string) : bool :=
  match p with
  | None => true
  | Some i => JsString.is_empty i
  end.

(** [confirmDeleteGame()]; [reply] is how [deleteGame(id)] settles if it is
    called. *)
Definition confirmDeleteGame (reply : InvokeOutcome unit) (p : Page) : Page :=
  if no_pending (pendingDeleteId p) then p
  else
    let id' := default "" (pendingDeleteId p) in
    let r := handleDeleteGame id' reply (store p) in
    {| store := snd r;
       pendingDeleteId := None;
       pendingDeleteTitle := pendingDeleteTitle p;
       deleteConfirmOpen := false;
       toasts := if fst r then "游戏删除成功" :: toasts p else toasts p;
       deleteCalls := id' :: deleteCalls p |}.

End DeleteConfirm.

(** ** [hooks/useMaintenanceActions.ts]: the guarded maintenance handlers
    ([handleDownloadNwjs], [handleCleanupContainers], [handleRemoveEngine]) *)
Module Maintenance.
Import Js Tauri UseGames.

(** What the handlers read from an answer of the back end: [info.version]
    and [res.deleted]. *)
Record Answer := mkAnswer { a_version : string; a_deleted : Z }.

(** The functions of [lib/api] the handlers call. *)
Inductive ApiCall :=
| GetNwjsStableInfo
| DownloadNwjsStable (flavor : string)
| CleanupUnusedContainers
| DeleteEngine (engineId : string).

(** A handler suspended at an [await]: what it waits for. *)
Inductive Waiting :=
| AwaitInfo
| AwaitDownload
| AwaitCleanup
| AwaitRemove (name : string).

(** [maintenanceLoading], the suspended handlers in the order they started,
    and what has been observed: the calls made, the toasts, the calls to
    [options.updateTask] and the [gm:refresh-engines] events dispatched
    (each most recent first). *)
Record State := mkState {
  maintenanceLoading : bool;
  waiting : list Waiting;
  calls : list ApiCall;
  toasts : list value;
  tasks : list (string * Z);
  refreshes : nat
}.

Definition initial : State := mkState false [] [] [] [] 0.

(** The start of a guarded handler, up to its first [await]. *)
Definition start (w : Waiting) (c : ApiCall) (st : State) : State :=
  if maintenanceLoading st then st
  else
    {| maintenanceLoading := true;
       waiting := (waiting st ++ [w])%list;
       calls := c :: calls st;
       toasts := toasts st; tasks := tasks st; refreshes := refreshes st |}.

(** [handleDownloadNwjs()], [handleCleanupContainers()] and
    [handleRemoveEngine(engine)] up to their first [await]. *)
Definition handleDownloadNwjs : State -> State := start AwaitInfo GetNwjsStableInfo.
Definition handleCleanupContainers : State -> State :=
  start AwaitCleanup CleanupUnusedContainers.
Definition handleRemoveEngine (engineId name : string) : State -> State :=
  start (AwaitRemove name) (DeleteEngine engineId).

(** The [catch] and [finally] blocks. *)
Definition failed (e : value) (fallback : string) (rest : list Waiting) (st : State) : State :=
  {| maintenanceLoading := false;
     waiting := rest;
     calls := calls st;
     toasts := error_text e fallback :: toasts st;
     tasks := tasks st; refreshes := refreshes st |}.

(** A handler that ends well: its toast, its call to [updateTask] if any,
    its event if any, and the [finally] block. *)
Definition done (toast : string) (task : list (string * Z)) (event : nat)
    (rest : list Waiting) (st : State) : State :=
  {| maintenanceLoading := false;
     waiting := rest;
     calls := calls st;
     toasts := VStr toast :: toasts st;
     tasks := (task ++ tasks st)%list;
     refreshes := (event + refreshes st)%nat |}.

(** The rest of the handler suspended as [w] once its promise has settled;
    [before] and [after] are the other suspended handlers. *)
Definition resume (w : Waiting) (r : InvokeOutcome Answer)
    (before after : list Waiting) (st : State) : State :=
  match w, r with
  | AwaitInfo, Resolved info =>
      {| maintenanceLoading := maintenanceLoading st;
         waiting := (before ++ AwaitDownload :: after)%list;
         calls := DownloadNwjsStable "normal" :: calls st;
         toasts := toasts st;
         tasks := ("下载 NW.js " ++ a_version info, 0) :: tasks st;
         refreshes := refreshes st |}
  | AwaitInfo, Rejected e => failed e "下载失败" (before ++ after)%list st
  | AwaitDownload, Resolved _ =>
      done "NW.js 下载完成" [("下载完成", 100)] 1 (before ++ after)%list st
  | AwaitDownload, Rejected e => failed e "下载失败" (before ++ after)%list st
  | AwaitCleanup, Resolved res =>
      done ("清理完成：" ++ pretty (a_deleted res) ++ " 个") [] 0 (before ++ after)%list st
  | AwaitCleanup, Rejected e => failed e "清理失败" (before ++ after)%list st
  | AwaitRemove name, Resolved _ =>
      done ("已卸载 " ++ name) [] 1 (before ++ after)%list st
  | AwaitRemove name, Rejected e => failed e "卸载失败" (before ++ after)%list st
  end.

(** What can happen: a handler is called, or the promise that the [k]-th
    suspended handler waits for settles. *)
Inductive Event :=
| CallDownload
| CallCleanup
| CallRemove (engineId name : string)
| Settle (k : nat) (r : InvokeOutcome Answer).

Definition step (st : State) (e : Event) : State :=
  match e with
  | CallDownload => handleDownloadNwjs st
  | CallCleanup => handleCleanupContainers st
  | CallRemove i n => handleRemoveEngine i n st
  | Settle k r =>
      match nth_error (waiting st) k with
      | Some w => resume w r (firstn k (waiting st)) (skipn (S k) (waiting st)) st
      | None => st
      end
  end.

Definition run (es : list Event) : State := fold_left step es initial.

(** The calls that are still unanswered: one for each suspended handler. *)
Definition in_flight (st : State) : nat := length (waiting st).

End Maintenance.

(** ** The later launch path: [onLaunchGame] of the later [src/App.vue]
    calls [handleLaunchGame] of [hooks/useGames.ts], which calls
    [launchGame] of [lib/api.ts] *)
Module LaunchPaths.
Import Js Tauri Types Ipc UseGames.

(** The command [launchGame(id)] of [lib/api.ts] sends, and the one
    [getGames()] sends. *)
Definition launch_game_command (id' : string) : Command :=
  mkCommand "launch_game" [("id", JStr id')].
Definition get_games_command : Command := mkCommand "get_games" [].

Section Commands.
Variable launch_backend : Command -> InvokeOutcome LaunchResult.
Variable list_backend : Command -> InvokeOutcome (list GameDto).

(** [handleLaunchGame(id)] with the commands it sends. Nothing is looked
    up in [games] before [launchGame(id)] is awaited. *)
Definition handleLaunchGame (id' : string) : M Store bool :=
  (modify begin_call ;;;
   launched <- send launch_backend (launch_game_command id') ;;
   match Api.invoke launched with
   | Resolved _ =>
       listed <- send list_backend get_games_command ;;
       modify (fetchGames listed) ;;;
       modify end_call ;;;
       ret true
   | Rejected e =>
       modify (set_error (error_text e "启动游戏失败")) ;;;
       modify end_call ;;;
       ret false
   end)%ipc.

End Commands.

End LaunchPaths.

(** ** [src/lib/tauri.ts]: [formatInvokeError] on objects whose reads can
    throw *)
Module Reads.
Import Js Tauri.

(** An object or function as [formatInvokeError] may meet it in full: the
    test [err instanceof Error] and the read of [err.message] are steps of
    their own that can throw (a proxy whose trap throws, a getter that
    throws), and both stand outside the [try]. [typeof] cannot throw, never
    gives ["string"] for an object, and an object is truthy. *)
Record object := mkObject {
  callable : bool;
  instanceof_Error_test : result bool;
  message_read : result value;
  json : result (option string);
  to_string : result string
}.

(** The objects of [Js.value] are those whose two reads return. *)
Definition of_value (c ie : bool) (m : value)
    (j : result (option string)) (s : result string) : object :=
  mkObject c (Normal ie) (Normal m) j s.

Section Formatter.
Variable quote : string -> string.

(** [try { return JSON.stringify(err) } catch { return String(err) }] *)
Definition stringify_or_String (x : object) : result value :=
  Tauri.stringify_or_String quote
    (VObject (callable x) false VUndefined (json x) (to_string x)).

(** [formatInvokeError(err)] for an object [err], statement by statement. *)
Definition formatInvokeError (x : object) : result value :=
  bind (instanceof_Error_test x) (fun is_error =>
    if is_error then message_read x
    else if negb (callable x) then
      bind (message_read x) (fun message =>
        match message with
        | VStr m =>
            if (0 <? String.length (JsString.trim m))%nat then Normal (VStr m)
            else stringify_or_String x
        | _ => stringify_or_String x
        end)
    else stringify_or_String x).

End Formatter.

End Reads.

(** * Properties *)

Module JsStringFacts.
Import JsString.

Example trim_sample : trim ("  --test" ++ LF) = "--test".
Proof. reflexivity. Qed.

Example trim_nbsp : trim (unbytes (tok [194; 160; 97; 32; 98; 227; 128; 128]%N)) = "a b".
Proof. reflexivity. Qed.

Example split_lines_sample :
  split_lines ("--a" ++ CR ++ LF ++ LF ++ " --b") = ["--a"; ""; " --b"].
Proof. reflexivity. Qed.

Example split_lines_empty : split_lines "" = [""].
Proof. reflexivity. Qed.

Example split_spaces_sample : split_spaces " a   b " = [""; "a"; "b"; ""].
Proof. reflexivity. Qed.

Example split_spaces_empty : split_spaces "" = [""].
Proof. reflexivity. Qed.

Example join_sample : join LF ["a"; "b"; "c"] = "a" ++ LF ++ "b" ++ LF ++ "c".
Proof. reflexivity. Qed.

End JsStringFacts.

Module MigrationFacts.
Import Sql Migrations.

Lemma backfill_where_null r : profile_key r = None -> backfill_where r = true.
Proof. unfold backfill_where. intros ->. reflexivity. Qed.

Lemma backfill_where_empty r : profile_key r = Some "" -> backfill_where r = true.
Proof. unfold backfill_where. intros ->. reflexivity. Qed.

Lemma backfill_where_set r s :
  profile_key r = Some s -> s <> "" -> backfill_where r = false.
Proof.
  unfold backfill_where. intros -> Hs. cbn.
  destruct (String.eqb_spec s ""); [contradiction | reflexivity].
Qed.

(** The UPDATE leaves a row whose key is already set alone. *)
Lemma update_backfill_keeps t r s :
  In r t -> profile_key r = Some s -> s <> "" -> In r (update_backfill t).
Proof.
  intros Hin Hk Hs. unfold update_backfill. apply in_map_iff.
  exists r. split; [| exact Hin].
  now rewrite (backfill_where_set r s Hk Hs).
Qed.

Lemma migrate_row r :
  (if backfill_where (add_column_profile_key r)
   then set_profile_key_id (add_column_profile_key r)
   else add_column_profile_key r)
  = set_profile_key_id (add_column_profile_key r).
Proof. reflexivity. Qed.

Lemma migration_0002_map t :
  migration_0002 t = map (fun r => set_profile_key_id (add_column_profile_key r)) t.
Proof.
  unfold migration_0002, update_backfill, alter_table_add_profile_key.
  rewrite map_map. apply map_ext. intros r. apply migrate_row.
Qed.

(** C1. After migration 0002 has run on a [games] table created before the
    [profile_key] column existed, every row carries [profile_key = id]:
    the new column is NULL on every pre-existing row, so the backfill's
    WHERE clause selects all of them; the rows are otherwise unchanged
    (same rows, same order, same values in the old columns). *)
Theorem migration_0002_backfills_every_row (t : list GameRow1) :
  Forall (fun r => profile_key r = Some (id r)) (migration_0002 t)
  /\ map drop_profile_key (migration_0002 t) = t
  /\ Forall (fun r => backfill_where r = true) (alter_table_add_profile_key t).
Proof.
  rewrite migration_0002_map. repeat split.
  - induction t as [| r t IH]; constructor; [reflexivity | exact IH].
  - induction t as [| r t IH]; [reflexivity |].
    cbn [map]. rewrite IH. destruct r; reflexivity.
  - unfold alter_table_add_profile_key.
    induction t as [| r t IH]; constructor; [reflexivity | exact IH].
Qed.

Example migration_0002_sample :
  migration_0002
    [ mkRow1 "a1" "Foo" "rpgmakermv" "/games/Foo" None 10 10;
      mkRow1 "" "游戏" "other" "/games/Bar" (Some "0.80") 11 12 ]
  = [ mkRow2 "a1" "Foo" "rpgmakermv" "/games/Foo" None 10 10 (Some "a1");
      mkRow2 "" "游戏" "other" "/games/Bar" (Some "0.80") 11 12 (Some "") ].
Proof. reflexivity. Qed.

End MigrationFacts.

Module TauriFacts.
Import Js Tauri.

Section Facts.
Variable quote : string -> string.

(** [safeInvoke] never throws: it gives the data, or [null]. *)
Lemma safeInvoke_total {T} (o : InvokeOutcome T) :
  safeInvoke o = Normal (match o with Resolved d => Some d | Rejected _ => None end).
Proof. destruct o; reflexivity. Qed.

Lemma invokeResult_resolved {T} (d : T) :
  invokeResult quote (Resolved d) = Normal (Ok d).
Proof. reflexivity. Qed.

(** The cases the formatter was written for. *)
Lemma formatInvokeError_string s : formatInvokeError quote (VStr s) = Normal (VStr s).
Proof. reflexivity. Qed.

Lemma formatInvokeError_new_Error msg :
  formatInvokeError quote (new_Error msg) = Normal (VStr msg).
Proof. reflexivity. Qed.

Lemma formatInvokeError_message_object ie m j ts :
  ie = false ->
  (0 < String.length (JsString.trim m))%nat ->
  formatInvokeError quote (VObject false ie (VStr m) j ts) = Normal (VStr m).
Proof.
  intros -> Hm. apply Nat.ltb_lt in Hm.
  unfold formatInvokeError. cbn -[JsString.trim Nat.ltb].
  rewrite Hm. reflexivity.
Qed.

(** When [JSON.stringify] throws, [String] takes over. *)
Lemma formatInvokeError_bigint t : formatInvokeError quote (VBigInt t) = Normal (VStr t).
Proof.
  unfold formatInvokeError. cbn.
  destruct (negb (String.eqb t "0")); reflexivity.
Qed.

(** [JSON.stringify(undefined)] is [undefined], and it does not throw:
    the formatter returns [undefined], which is not a string. *)
Lemma formatInvokeError_undefined : formatInvokeError quote VUndefined = Normal VUndefined.
Proof. reflexivity. Qed.

Lemma formatInvokeError_symbol d : formatInvokeError quote (VSymbol d) = Normal VUndefined.
Proof. reflexivity. Qed.

(** A function value that [JSON.stringify] skips. *)
Definition plain_function (src : string) : value :=
  VObject true false VUndefined (Normal None) (Normal src).

Lemma formatInvokeError_function src :
  formatInvokeError quote (plain_function src) = Normal VUndefined.
Proof. reflexivity. Qed.

(** An [Error] whose [message] was overwritten with a number. *)
Definition error_with_numeric_message : value :=
  VObject false true (VNum (Finite "42")) (Normal (Some "{}"))
          (Normal "Error: 42").

Lemma formatInvokeError_numeric_message :
  formatInvokeError quote error_with_numeric_message = Normal (VNum (Finite "42")).
Proof. reflexivity. Qed.

(** A cyclic object without a prototype: [JSON.stringify] throws on
    the cycle and [String] throws for want of [toString]. *)
Definition cyclic_null_prototype : value :=
  VObject false false VUndefined
          (Throw (TypeError "Converting circular structure to JSON"))
          (Throw (TypeError "Cannot convert object to primitive value")).

Lemma formatInvokeError_can_throw :
  formatInvokeError quote cyclic_null_prototype
  = Throw (TypeError "Cannot convert object to primitive value").
Proof. reflexivity. Qed.

(** C9 (evaluation at the failing input). When the underlying [invoke]
    rejects with [undefined], [invokeResult] resolves to
    [{ ok: false, error: undefined }]: it does not throw, but the
    [error] field is not a string. [safeInvoke] gives [null] on the same
    rejection. *)
Theorem invokeResult_rejected_undefined_error_not_string :
  forall T : Type,
    @invokeResult quote T (Rejected VUndefined) = Normal (Err VUndefined)
    /\ is_VStr VUndefined = false
    /\ @safeInvoke T (Rejected VUndefined) = Normal None.
Proof. intros T. repeat split. Qed.

(** The exception of the formatter escapes [invokeResult]'s [catch]
    block. *)
Lemma invokeResult_can_throw {T} :
  @invokeResult quote T (Rejected cyclic_null_prototype)
  = Throw (TypeError "Cannot convert object to primitive value").
Proof. reflexivity. Qed.

End Facts.

End TauriFacts.

Module UseGamesFacts.
Import Js Tauri Types UseGames.

Lemma findIndex_Some p l i :
  findIndex p l = Some i ->
  exists g, l !! i = Some g /\ p g = true.
Proof.
  revert i. induction l as [| a l IH]; intros i H; cbn in H; [discriminate |].
  destruct (p a) eqn:Hp.
  - injection H as <-. exists a. split; [reflexivity | exact Hp].
  - destruct (findIndex p l) as [j |] eqn:Hj; cbn in H; [| discriminate].
    injection H as <-. destruct (IH j eq_refl) as [g [Hg Hpg]].
    exists g. split; [exact Hg | exact Hpg].
Qed.

(** [findIndex] returns the first match. *)
Lemma findIndex_first p l i j g :
  findIndex p l = Some i -> l !! j = Some g -> (j < i)%nat -> p g = false.
Proof.
  revert i j. induction l as [| a l IH]; intros i j H Hj Hlt; cbn in H; [discriminate |].
  destruct (p a) eqn:Hp.
  - injection H as <-. lia.
  - destruct (findIndex p l) as [k |] eqn:Hk; cbn in H; [| discriminate].
    injection H as <-. destruct j as [| j]; cbn in Hj.
    + injection Hj as <-. exact Hp.
    + eapply IH; [reflexivity | exact Hj | lia].
Qed.

Lemma findIndex_None p l g :
  findIndex p l = None -> In g l -> p g = false.
Proof.
  induction l as [| a l IH]; intros H Hin; [destruct Hin |].
  cbn in H. destruct (p a) eqn:Hp; [discriminate |].
  destruct (findIndex p l) eqn:Hk; cbn in H; [discriminate |].
  destruct Hin as [<- | Hin]; [exact Hp | now apply IH].
Qed.

Definition has_id (id' : string) (g : GameDto) : bool := String.eqb (id g) id'.

Lemma handleUpdateGame_games id' input updated st :
  games (snd (handleUpdateGame id' input (Resolved updated) st))
  = match findIndex (has_id id') (games st) with
    | Some i => <[i := updated]> (games st)
    | None => games st
    end.
Proof.
  unfold handleUpdateGame. cbn. fold (has_id id').
  destruct (findIndex (has_id id') (games st)); reflexivity.
Qed.

Lemma filter_In_id id' (l : list GameDto) g :
  In g (List.filter (fun g => negb (String.eqb (id g) id')) l)
  <-> In g l /\ id g <> id'.
Proof.
  rewrite List.filter_In. split; intros [Hin H]; split; try exact Hin.
  - intros Heq. rewrite Heq, String.eqb_refl in H. discriminate.
  - destruct (String.eqb_spec (id g) id'); [contradiction | reflexivity].
Qed.

(** C10. The store changes only what an operation targets, and nothing
    when the command fails.
    - A successful [handleUpdateGame] returns [true], keeps the length of
      the list, keeps every entry whose id is not the given one, and any
      position whose entry changed is the first position holding that id
      and now holds the updated game (so at most one entry is replaced).
    - A successful [handleDeleteGame] returns [true] and the new list is
      the old one, in order, without the entries of that id.
    - When the command is rejected, both return [false] and the list of
      games is the old one. *)
Theorem useGames_update_delete_frame
    (id' : string) (input : UpdateGameInput) (updated : GameDto)
    (e : value) (st : Store) :
  (let r := handleUpdateGame id' input (Resolved updated) st in
   fst r = true
   /\ length (games (snd r)) = length (games st)
   /\ (forall i g, games st !! i = Some g -> id g <> id' ->
                   games (snd r) !! i = Some g)
   /\ (forall i, games (snd r) !! i <> games st !! i ->
                 findIndex (has_id id') (games st) = Some i
                 /\ games (snd r) !! i = Some updated
                 /\ exists g, games st !! i = Some g /\ id g = id'))
  /\ (let r := handleDeleteGame id' (Resolved tt) st in
      fst r = true
      /\ games (snd r) = List.filter (fun g => negb (String.eqb (id g) id')) (games st)
      /\ (forall g, In g (games (snd r)) <-> In g (games st) /\ id g <> id'))
  /\ (let r := handleUpdateGame id' input (Rejected e) st in
      fst r = false /\ games (snd r) = games st)
  /\ (let r := handleDeleteGame id' (Rejected e) st in
      fst r = false /\ games (snd r) = games st).
Proof.
  split; [| split; [| split]].
  - cbv zeta. split; [reflexivity |].
    rewrite handleUpdateGame_games.
    destruct (findIndex (has_id id') (games st)) as [k |] eqn:Hk.
    + destruct (findIndex_Some _ _ _ Hk) as [g0 [Hg0 Hp0]].
      split; [apply length_insert |]. split.
      * intros i g Hi Hne. destruct (decide (k = i)) as [-> | Hki].
        -- rewrite Hg0 in Hi. injection Hi as ->.
           unfold has_id in Hp0. apply String.eqb_eq in Hp0. contradiction.
        -- rewrite list_lookup_insert_ne by exact Hki. exact Hi.
      * intros i Hi. destruct (decide (k = i)) as [-> | Hki].
        -- split; [reflexivity |]. split.
           ++ apply list_lookup_insert_eq. eapply lookup_lt_Some. exact Hg0.
           ++ exists g0. split; [exact Hg0 |].
              unfold has_id in Hp0. now apply String.eqb_eq in Hp0.
        -- rewrite list_lookup_insert_ne in Hi by exact Hki. contradiction.
    + split; [reflexivity |]. split.
      * intros i g Hi _. exact Hi.
      * intros i Hi. contradiction.
  - cbv zeta. split; [reflexivity |]. split; [reflexivity |].
    intros g. apply filter_In_id.
  - cbv zeta. split; reflexivity.
  - cbv zeta. split; reflexivity.
Qed.

(** A launch the back end rejects changes no game of the list. *)
Lemma handleLaunchGame_rejected id' e listed st :
  let r := handleLaunchGame id' (Rejected e) listed st in
  fst r = false /\ games (snd r) = games st /\ loading (snd r) = false.
Proof. repeat split. Qed.

Definition sample_game (i t : string) : GameDto :=
  mkGameDto i t "rpgmakermv" ("/games/" ++ t) true None None 1 None.

Example handleUpdateGame_sample :
  let st := mkStore [sample_game "a" "A"; sample_game "b" "B"; sample_game "c" "C"] false None in
  handleUpdateGame "b" (mkUpdateGameInput (Some "B2") None None None)
                   (Resolved (sample_game "b" "B2")) st
  = (true, mkStore [sample_game "a" "A"; sample_game "b" "B2"; sample_game "c" "C"] false None).
Proof. reflexivity. Qed.

Example handleDeleteGame_sample :
  let st := mkStore [sample_game "a" "A"; sample_game "b" "B"; sample_game "a" "A2"] false None in
  handleDeleteGame "a" (Resolved tt) st
  = (true, mkStore [sample_game "b" "B"] false None).
Proof. reflexivity. Qed.

Example handleDeleteGame_rejected_sample :
  let st := mkStore [sample_game "a" "A"] false None in
  handleDeleteGame "a" (Rejected (VStr "db locked")) st
  = (false, mkStore [sample_game "a" "A"] false (Some (VStr "删除游戏失败"))).
Proof. reflexivity. Qed.

End UseGamesFacts.

Module AppFacts.
Import Js Tauri Ipc App.

Lemma find_unique_id (gs : list GameEntry) (g : GameEntry) :
  NoDup (map id gs) -> In g gs ->
  List.find (fun g' => String.eqb (id g') (id g)) gs = Some g.
Proof.
  induction gs as [| a gs IH]; intros Hnd Hin; [destruct Hin |].
  cbn [map] in Hnd. apply NoDup_cons in Hnd as [Hnotin Hnd].
  cbn [List.find]. destruct Hin as [-> | Hin].
  - now rewrite String.eqb_refl.
  - destruct (String.eqb_spec (id a) (id g)) as [Heq | Hne].
    + exfalso. apply Hnotin. rewrite Heq.
      apply list_elem_of_In, in_map, Hin.
    + now apply IH.
Qed.

Section Facts.
Variable quote : string -> string.
Variable backend : Command -> InvokeOutcome LaunchReply.

(** For every game of the list whose [pathValid] is false (ids being
    unique, as in the registry), [launchGame] on its id ends normally
    with the status "launch failed: game path invalid" at progress 0,
    issues no command at all (so no [launch_game] reaches the back end
    and nothing is spawned there), and leaves the list of games and the
    selection as they were. *)
Theorem launchGame_invalid_path_no_launch
    (w : World AppState) (g : GameEntry) :
  NoDup (map id (games (ui w))) ->
  In g (games (ui w)) ->
  pathValid g = false ->
  let r := launchGame quote backend (id g) w in
  fst r = Normal tt
  /\ issued (snd r) = issued w
  /\ games (ui (snd r)) = games (ui w)
  /\ selectedGameId (ui (snd r)) = selectedGameId (ui w)
  /\ currentTask (ui (snd r)) = Some (mkTaskStatus invalid_path_status 0).
Proof.
  intros Hnd Hin Hpv. cbv zeta.
  unfold launchGame, mbind, get. cbn [ui].
  rewrite (find_unique_id _ _ Hnd Hin), Hpv. cbn.
  repeat split.
Qed.

(** With a valid path the command is issued exactly once. *)
Lemma launchGame_valid_path_issues_command
    (w : World AppState) (g : GameEntry) :
  NoDup (map id (games (ui w))) ->
  In g (games (ui w)) ->
  pathValid g = true ->
  issued (snd (launchGame quote backend (id g) w))
  = mkCommand "launch_game" [("gameId", JStr (id g))] :: issued w.
Proof.
  intros Hnd Hin Hpv.
  unfold launchGame, mbind, get. cbn [ui].
  rewrite (find_unique_id _ _ Hnd Hin), Hpv.
  cbn -[pretty invokeResult ToString].
  destruct (invokeResult quote _) as [[d | e] | e]; cbn -[pretty ToString];
    [reflexivity | | reflexivity].
  destruct (ToString e); reflexivity.
Qed.

End Facts.

Definition moved_game : GameEntry :=
  mkGameEntry "g1" "Foo" "rmmv" None "/games/Foo" false.

Definition sample_world : World AppState :=
  mkWorld (mkAppState [mkGameEntry "g0" "Bar" "rmmz" None "/games/Bar" true; moved_game]
                      "g0" None) [].

Lemma launchGame_invalid_path_no_launch_witness :
  let r := launchGame (fun s => s) (fun _ => Resolved (mkLaunchReply 4242))
                      "g1" sample_world in
  fst r = Normal tt
  /\ issued (snd r) = []
  /\ games (ui (snd r)) = games (ui sample_world)
  /\ selectedGameId (ui (snd r)) = "g0"
  /\ currentTask (ui (snd r)) = Some (mkTaskStatus invalid_path_status 0).
Proof.
  apply (launchGame_invalid_path_no_launch (fun s => s)
           (fun _ => Resolved (mkLaunchReply 4242)) sample_world moved_game).
  - refine (bool_decide_unpack (NoDup _) _). vm_compute. exact I.
  - cbn. right. left. reflexivity.
  - reflexivity.
Defined.

Example launchGame_valid_sample :
  launchGame (fun s => s) (fun _ => Resolved (mkLaunchReply 4242)) "g0" sample_world
  = (Normal tt,
     mkWorld (mkAppState (games (ui sample_world)) "g0"
                (Some (mkTaskStatus "已启动（PID 4242）" 100)))
             [mkCommand "launch_game" [("gameId", JStr "g0")]]).
Proof. vm_compute. reflexivity. Qed.

End AppFacts.

Module LaunchPathsFacts.
Import Js Tauri Types Ipc UseGames LaunchPaths.

Section Facts.
Variable launch_backend : Command -> InvokeOutcome LaunchResult.
Variable list_backend : Command -> InvokeOutcome (list GameDto).

(** The commands are those whose outcomes [UseGames.handleLaunchGame] is
    given, and the store ends as it says. *)
Lemma handleLaunchGame_store (id' : string) (w : World Store) :
  let r := handleLaunchGame launch_backend list_backend id' w in
  let pure := UseGames.handleLaunchGame id' (launch_backend (launch_game_command id'))
                (list_backend get_games_command) (ui w) in
  fst r = Normal (fst pure) /\ ui (snd r) = snd pure.
Proof.
  cbv zeta. unfold handleLaunchGame, UseGames.handleLaunchGame, mbind, modify, send, ret.
  cbn [fst snd ui issued].
  destruct (launch_backend (launch_game_command id')); split; reflexivity.
Qed.

(** [launch_game] goes out first, whatever the list holds; [get_games]
    follows exactly when the launch was accepted. *)
Lemma handleLaunchGame_issued (id' : string) (w : World Store) :
  issued (snd (handleLaunchGame launch_backend list_backend id' w))
  = (match launch_backend (launch_game_command id') with
     | Resolved _ => [get_games_command; launch_game_command id']
     | Rejected _ => [launch_game_command id']
     end ++ issued w)%list.
Proof.
  unfold handleLaunchGame, mbind, modify, send, ret. cbn [fst snd ui issued].
  destruct (launch_backend (launch_game_command id')); reflexivity.
Qed.

End Facts.

Definition moved_dto : GameDto :=
  mkGameDto "g1" "Foo" "rpgmakermv" "/games/Foo" false None None 1 None.

(** C2, as stated, fails on the later launch path. The list holds a game
    whose [pathValid] is false; [handleLaunchGame] on its id sends
    [launch_game] all the same, and when the back end refuses, what the
    store shows is the fixed text of the operation, not an invalid-path
    error. *)
Lemma launch_unguarded_counterexample :
  let w := mkWorld (mkStore [moved_dto] false None) [] in
  let r := handleLaunchGame (fun _ => Rejected (VStr "InvalidPath")) (fun _ => Resolved [])
                            "g1" w in
  In moved_dto (games (ui w))
  /\ pathValid moved_dto = false
  /\ issued (snd r) = [launch_game_command (id moved_dto)]
  /\ issued (snd r) <> issued w
  /\ error (ui (snd r)) = Some (VStr "启动游戏失败").
Proof.
  cbv zeta. split; [now left |]. split; [reflexivity |]. split; [reflexivity |].
  split; [discriminate | reflexivity].
Qed.

Section Guard.
Variable quote : string -> string.
Variable backend : Command -> InvokeOutcome App.LaunchReply.
Variable launch_backend : Command -> InvokeOutcome LaunchResult.
Variable list_backend : Command -> InvokeOutcome (list GameDto).

(** C2, amended. The guard is the one of [launchGame] in the application
    shell, and it reads the [pathValid] flag the list holds. For a game of
    the list (ids being unique) whose flag is false, [launchGame] fails with
    the invalid-path status, issues no command at all (so nothing is spawned
    and [lastPlayedAt] is not touched) and leaves the list and the selection
    as they were; when the flag is true it sends [launch_game]. The later
    path, [handleLaunchGame], sends [launch_game] for any id whatever the
    list holds; when the back end refuses, it returns [false], the list is
    as it was, and nothing else was sent. *)
Theorem launch_guarded_by_cached_flag (w : World App.AppState) (g : App.GameEntry) :
  NoDup (map App.id (App.games (ui w))) ->
  In g (App.games (ui w)) ->
  (App.pathValid g = false ->
   let r := App.launchGame quote backend (App.id g) w in
   fst r = Normal tt
   /\ issued (snd r) = issued w
   /\ App.games (ui (snd r)) = App.games (ui w)
   /\ App.selectedGameId (ui (snd r)) = App.selectedGameId (ui w)
   /\ App.currentTask (ui (snd r))
      = Some (App.mkTaskStatus App.invalid_path_status 0))
  /\ (App.pathValid g = true ->
      issued (snd (App.launchGame quote backend (App.id g) w))
      = mkCommand "launch_game" [("gameId", JStr (App.id g))] :: issued w)
  /\ (forall (id' : string) (ws : World Store),
         let r := handleLaunchGame launch_backend list_backend id' ws in
         (exists rest,
             issued (snd r) = (rest ++ launch_game_command id' :: issued ws)%list)
         /\ (forall e,
                launch_backend (launch_game_command id') = Rejected e ->
                fst r = Normal false
                /\ games (ui (snd r)) = games (ui ws)
                /\ issued (snd r) = launch_game_command id' :: issued ws)).
Proof.
  intros Hnd Hin. split; [| split].
  - intros Hpv. now apply AppFacts.launchGame_invalid_path_no_launch.
  - intros Hpv. now apply AppFacts.launchGame_valid_path_issues_command.
  - intros id' ws. cbv zeta. rewrite handleLaunchGame_issued.
    destruct (handleLaunchGame_store launch_backend list_backend id' ws) as [Hfst Hui].
    rewrite Hfst, Hui. split.
    + destruct (launch_backend (launch_game_command id'));
        [exists [get_games_command] | exists []]; reflexivity.
    + intros e ->. repeat split.
Qed.

End Guard.

Lemma launch_guarded_by_cached_flag_witness :
  let r := App.launchGame (fun s => s) (fun _ => Resolved (App.mkLaunchReply 4242))
                          "g1" AppFacts.sample_world in
  NoDup (map App.id (App.games (ui AppFacts.sample_world)))
  /\ In AppFacts.moved_game (App.games (ui AppFacts.sample_world))
  /\ App.pathValid AppFacts.moved_game = false
  /\ fst r = Normal tt
  /\ issued (snd r) = []
  /\ App.currentTask (ui (snd r)) = Some (App.mkTaskStatus App.invalid_path_status 0).
Proof.
  cbv zeta.
  assert (Hnd : NoDup (map App.id (App.games (ui AppFacts.sample_world)))).
  { refine (bool_decide_unpack (NoDup _) _). vm_compute. exact I. }
  assert (Hin : In AppFacts.moved_game (App.games (ui AppFacts.sample_world))).
  { cbn. right. left. reflexivity. }
  destruct (launch_guarded_by_cached_flag (fun s => s)
              (fun _ => Resolved (App.mkLaunchReply 4242))
              (fun _ => Rejected (VStr "InvalidPath")) (fun _ => Resolved [])
              AppFacts.sample_world AppFacts.moved_game Hnd Hin) as (Hguard & _).
  destruct (Hguard eq_refl) as (H1 & H2 & _ & _ & H5).
  split; [exact Hnd |]. split; [exact Hin |]. split; [reflexivity |].
  split; [exact H1 |]. split; [exact H2 | exact H5].
Defined.

End LaunchPathsFacts.

Module GameSettingsModalFacts.
Import Js Tauri Ipc GameSettingsModal.

Lemma launch_args_empty : launch_args "" = [].
Proof. reflexivity. Qed.

Example launch_args_sample :
  launch_args ("--disable-gpu" ++ JsString.CR ++ JsString.LF ++ "  " ++ JsString.LF
               ++ " --force-device-scale-factor=1 ")
  = ["--disable-gpu"; "--force-device-scale-factor=1"].
Proof. reflexivity. Qed.

Section Facts.
Variable quote : string -> string.
Variable get_backend : Command -> InvokeOutcome (option LaunchConfigReply).
Variable update_backend : Command -> InvokeOutcome unit.

(** C8, amended. When loading the launch configuration of a game fails
    (the command is rejected and [invokeResult] reports [ok: false]), the
    modal falls back to [sandboxHome = true] and an empty argument text, and
    the argument list taken from that text, the one a later save sends, is
    the empty list. *)
Theorem loadLaunchConfig_defaults_when_absent
    (gameId : string) (w : World ModalState) (e msg : value) :
  get_backend (mkCommand "get_game_launch_config" [("gameId", JStr gameId)]) = Rejected e ->
  formatInvokeError quote e = Normal msg ->
  let r := loadLaunchConfig quote get_backend gameId w in
  fst r = Normal tt
  /\ sandboxHome (ui (snd r)) = true
  /\ launchArgsText (ui (snd r)) = ""
  /\ launch_args (launchArgsText (ui (snd r))) = []
  /\ issued (snd (saveLaunchConfig quote update_backend (Some gameId) (snd r)))
     = mkCommand "update_game_launch_config"
         [("input", JObj [("gameId", JStr gameId); ("args", JArr []);
                          ("sandboxHome", JBool true)])]
       :: issued (snd r).
Proof.
  intros Hrej Hfmt. cbv zeta.
  unfold loadLaunchConfig, mbind, send, lift.
  rewrite Hrej. unfold invokeResult, bind. rewrite Hfmt.
  cbn [fst snd modify set_launch ui issued sandboxHome launchArgsText].
  split; [reflexivity |]. split; [reflexivity |]. split; [reflexivity |].
  split; [exact launch_args_empty |].
  unfold saveLaunchConfig, mbind, get, send, lift.
  cbn [fst snd ui issued sandboxHome launchArgsText].
  change (launchArgsText (set_launch "" true (ui w))) with "".
  change (sandboxHome (set_launch "" true (ui w))) with true.
  rewrite launch_args_empty.
  destruct (invokeResult quote _); reflexivity.
Qed.

(** An answer without [args] also gives the empty list. *)
Lemma loadLaunchConfig_missing_args (gameId : string) (w : World ModalState) (sb : bool) :
  get_backend (mkCommand "get_game_launch_config" [("gameId", JStr gameId)])
    = Resolved (Some (mkLaunchConfigReply None sb)) ->
  let r := loadLaunchConfig quote get_backend gameId w in
  fst r = Normal tt
  /\ sandboxHome (ui (snd r)) = sb
  /\ launch_args (launchArgsText (ui (snd r))) = [].
Proof.
  intros Hres. cbv zeta.
  unfold loadLaunchConfig, mbind, send, lift. rewrite Hres.
  repeat split.
Qed.

End Facts.

(** C8, as stated, fails where loading "returns nothing". The modal shows
    a game after one whose isolation was switched off, so [sandboxHome] is
    still [false]; the command answers with [null]. [loadLaunchConfig]
    throws on reading the reply and sets no default: [sandboxHome] stays
    [false], and that is what the next save sends. *)
Lemma loadLaunchConfig_null_reply_counterexample :
  let w := mkWorld (mkModalState "Foo" None "" false) [] in
  let r := loadLaunchConfig (fun s => s) (fun _ => Resolved None) "g1" w in
  fst r = Throw null_read
  /\ ui (snd r) = ui w
  /\ sandboxHome (ui (snd r)) <> true
  /\ issued (snd (saveLaunchConfig (fun s => s) (fun _ => Resolved tt) (Some "g1") (snd r)))
     = [ mkCommand "update_game_launch_config"
           [("input", JObj [("gameId", JStr "g1"); ("args", JArr []);
                            ("sandboxHome", JBool false)])];
         mkCommand "get_game_launch_config" [("gameId", JStr "g1")] ].
Proof.
  cbv zeta. split; [reflexivity |]. split; [reflexivity |].
  split; [discriminate | reflexivity].
Qed.

Lemma loadLaunchConfig_defaults_when_absent_witness :
  let w := mkWorld (mkModalState "Foo" None "--old" false) [] in
  let r := loadLaunchConfig (fun s => s) (fun _ => Rejected (VStr "no settings.toml")) "g1" w in
  fst r = Normal tt
  /\ sandboxHome (ui (snd r)) = true
  /\ launchArgsText (ui (snd r)) = ""
  /\ launch_args (launchArgsText (ui (snd r))) = []
  /\ issued (snd (saveLaunchConfig (fun s => s) (fun _ => Resolved tt) (Some "g1") (snd r)))
     = mkCommand "update_game_launch_config"
         [("input", JObj [("gameId", JStr "g1"); ("args", JArr []);
                          ("sandboxHome", JBool true)])]
       :: issued (snd r).
Proof.
  apply (loadLaunchConfig_defaults_when_absent (fun s => s)
           (fun _ => Rejected (VStr "no settings.toml")) (fun _ => Resolved tt)
           "g1" _ (VStr "no settings.toml") (VStr "no settings.toml")).
  - reflexivity.
  - reflexivity.
Defined.

End GameSettingsModalFacts.

Module EnginesFacts.
Import Engines.

Example getEngineDisplayName_mv :
  getEngineDisplayName "rpgmakermv" = PString "RPG Maker MV (NW.js)".
Proof. vm_compute. reflexivity. Qed.

Example getEngineIcon_renpy : getEngineIcon "renpy" = PString "ri:book-2-line".
Proof. vm_compute. reflexivity. Qed.

Example getEngineIcon_other : getEngineIcon "other" = PString "ri:question-line".
Proof. vm_compute. reflexivity. Qed.

Example getEngineIcon_constructor : getEngineIcon "constructor" = PInherited "constructor".
Proof. vm_compute. reflexivity. Qed.

Lemma EngineType_members_complete (e : EngineType) : In e EngineType_members.
Proof. destruct e; cbn; tauto. Qed.

Lemma SUPPORTED_ENGINES_spec (e : EngineType) :
  In e SUPPORTED_ENGINES <-> e <> NWjs.
Proof.
  split.
  - intros Hin ->. cbn in Hin. intuition discriminate.
  - intros Hne. destruct e; cbn; tauto.
Qed.

Lemma lookup_ENGINE_ICONS_unknown (s : string) :
  (forall e, EngineType_value e <> s) -> ENGINE_ICONS !! s = None.
Proof.
  intros H. unfold ENGINE_ICONS.
  rewrite !lookup_insert_ne by apply H. apply lookup_empty.
Qed.

Lemma lookup_ENGINE_DISPLAY_NAMES_unknown (s : string) :
  (forall e, EngineType_value e <> s) -> ENGINE_DISPLAY_NAMES !! s = None.
Proof.
  intros H. unfold ENGINE_DISPLAY_NAMES.
  rewrite !lookup_insert_ne by apply H. apply lookup_empty.
Qed.

(** C6, as stated, fails: the enum has a seventh member [NWjs], which is
    not among [SUPPORTED_ENGINES]; and on the unknown string ["unity"] the
    display name is the string itself, not the display name of [Other]. *)
Lemma engine_type_claim_counterexample :
  In NWjs EngineType_members
  /\ ~ In NWjs SUPPORTED_ENGINES
  /\ (forall e, In e SUPPORTED_ENGINES -> EngineType_value e <> "unity")
  /\ getEngineDisplayName "unity" = PString "unity"
  /\ getEngineDisplayName (EngineType_value Other) = PString "Other"
  /\ getEngineDisplayName "unity" <> getEngineDisplayName (EngineType_value Other).
Proof.
  split; [cbn; tauto |].
  split; [cbn; intuition discriminate |].
  split; [intros e _; destruct e; discriminate |].
  split; [vm_compute; reflexivity |].
  split; [vm_compute; reflexivity |].
  vm_compute. discriminate.
Qed.

(** C6, amended. The enum has exactly the seven members
    [RpgMakerVX, RpgMakerVXAce, RpgMakerMV, RpgMakerMZ, NWjs, RenPy, Other]
    and [SUPPORTED_ENGINES] is the six without [NWjs]. For every string that
    is neither the value of a member nor a name inherited from
    [Object.prototype], neither lookup fails: [getEngineIcon] gives the icon
    of [Other], and [getEngineDisplayName] gives the string itself. *)
Theorem engine_lookup_unknown_string (s : string) :
  (forall e, EngineType_value e <> s) ->
  string_in s Object_prototype_names = false ->
  (forall e, In e EngineType_members)
  /\ (forall e, In e SUPPORTED_ENGINES <-> e <> NWjs)
  /\ getEngineIcon s = getEngineIcon (EngineType_value Other)
  /\ getEngineIcon s = PString "ri:question-line"
  /\ getEngineDisplayName s = PString s.
Proof.
  intros Hval Hproto.
  split; [exact EngineType_members_complete |].
  split; [exact SUPPORTED_ENGINES_spec |].
  assert (Hicon : getEngineIcon s = PString "ri:question-line").
  { unfold getEngineIcon, js_get.
    rewrite (lookup_ENGINE_ICONS_unknown s Hval), Hproto. vm_compute. reflexivity. }
  split; [rewrite Hicon; vm_compute; reflexivity |].
  split; [exact Hicon |].
  unfold getEngineDisplayName, js_get.
  rewrite (lookup_ENGINE_DISPLAY_NAMES_unknown s Hval), Hproto. reflexivity.
Qed.

Lemma engine_lookup_unknown_string_witness :
  (forall e, In e EngineType_members)
  /\ (forall e, In e SUPPORTED_ENGINES <-> e <> NWjs)
  /\ getEngineIcon "unity" = getEngineIcon (EngineType_value Other)
  /\ getEngineIcon "unity" = PString "ri:question-line"
  /\ getEngineDisplayName "unity" = PString "unity".
Proof.
  apply (engine_lookup_unknown_string "unity").
  - intros e. destruct e; discriminate.
  - reflexivity.
Defined.

End EnginesFacts.

Module WireFacts.
Import Ipc Types Wire.

Lemma keys_serialise_incl (o : object) : incl (keys (serialise o)) (map fst o).
Proof.
  induction o as [| [k [v |]] o IH]; cbn.
  - apply incl_refl.
  - apply incl_cons; [left; reflexivity | apply incl_tl, IH].
  - apply incl_tl, IH.
Qed.

Lemma field_not_key k fs : ~ In k (keys fs) -> field k fs = None.
Proof.
  induction fs as [| [k' v] fs IH]; cbn; intros H; [reflexivity |].
  destruct (String.eqb_spec k k') as [-> | Hne]; [exfalso; apply H; now left |].
  apply IH. intros Hin. apply H. now right.
Qed.

Lemma field_Some_key k fs v : field k fs = Some v -> In k (keys fs).
Proof.
  induction fs as [| [k' v'] fs IH]; cbn; intros H; [discriminate |].
  destruct (String.eqb_spec k k') as [-> | Hne]; [now left | right; now apply IH].
Qed.

Lemma GameDto_keys (g : GameDto) :
  incl (keys (serialise (GameDto_object g))) GameDto_fields.
Proof. apply keys_serialise_incl. Qed.

Lemma GameConfig_keys (c : GameConfig) :
  incl (keys (serialise (GameConfig_object c))) GameConfig_fields.
Proof. apply keys_serialise_incl. Qed.

Lemma GameDto_no_field (g : GameDto) (k : string) :
  ~ In k GameDto_fields -> field k (serialise (GameDto_object g)) = None.
Proof.
  intros H. apply field_not_key. intros Hin. apply H.
  exact (GameDto_keys g k Hin).
Qed.

Lemma GameConfig_no_field (c : GameConfig) (k : string) :
  ~ In k GameConfig_fields -> field k (serialise (GameConfig_object c)) = None.
Proof.
  intros H. apply field_not_key. intros Hin. apply H.
  exact (GameConfig_keys c k Hin).
Qed.

Lemma not_in_fields_compute (k : string) (l : list string) :
  existsb (String.eqb k) l = false -> ~ In k l.
Proof.
  intros H Hin. assert (existsb (String.eqb k) l = true) as Ht.
  { apply existsb_exists. exists k. split; [exact Hin | apply String.eqb_refl]. }
  congruence.
Qed.

End WireFacts.

Module GameSettingsDialogFacts.
Import Ipc Types Wire WireFacts GameSettingsDialog.

Example isAbsolutePath_samples :
  isAbsolutePath "/games/Foo" = true
  /\ isAbsolutePath "C:\Games\Foo" = true
  /\ isAbsolutePath "d:/x" = true
  /\ isAbsolutePath "Game.exe" = false
  /\ isAbsolutePath "" = false.
Proof. repeat split. Qed.

Example joinPath_samples :
  joinPath "/games/Foo/" "Game.exe" = "/games/Foo/Game.exe"
  /\ joinPath "C:\Games\Foo\" "\www\index.html" = "C:\Games\Foo\www\index.html".
Proof. repeat split. Qed.

Definition foo_game : GameDto :=
  mkGameDto "g1" "Foo" "rpgmakermv" "/games/Foo" true None None 1 None.

Definition foo_dialog : Dialog :=
  mkDialog (Some foo_game) "Foo" "rpgmakermv" "/games/Foo" "" "Game.exe"
           "--test" true "" false false false "".

Example handleSave_sample :
  option_map (fun p => serialise (s_settings p)) (handleSave foo_dialog)
  = Some [ ("engineType", JStr "rpgmakermv");
           ("entryPath", JStr "/games/Foo/Game.exe");
           ("args", JArr [JStr "--test"]);
           ("sandboxHome", JBool true);
           ("useBottles", JBool false) ].
Proof. reflexivity. Qed.

Lemma save_settings_keys (d : Dialog) :
  incl (keys (serialise (save_settings d))) saved_fields.
Proof.
  eapply incl_tran; [apply keys_serialise_incl |]. apply incl_refl.
Qed.

Lemma save_settings_useBottles (d : Dialog) :
  field "useBottles" (serialise (save_settings d)) = Some (JBool (usingBottles d)).
Proof.
  unfold save_settings.
  destruct (or_undefined (JsString.trim (runtimeVersion d))); reflexivity.
Qed.

Lemma save_settings_bottleName (d : Dialog) :
  field "bottleName" (serialise (save_settings d))
  = if usingBottles d
    then opt_str (or_undefined (JsString.trim (bottleName d)))
    else None.
Proof.
  unfold save_settings.
  destruct (or_undefined (JsString.trim (runtimeVersion d)));
    destruct (usingBottles d); cbn -[JsString.trim];
    destruct (or_undefined (JsString.trim (bottleName d))); cbn -[JsString.trim];
    try reflexivity;
    destruct (or_undefined (JsString.trim (coverFile d))); reflexivity.
Qed.






End GameSettingsDialogFacts.

Module RegistryFacts.
Import Js Tauri Ipc Types Wire WireFacts Registry.

(** The interface [GameDto] of the front end declares no [profileKey]; a
    declaration does not change the object that arrives. *)
Lemma profileKey_not_GameDto_field : ~ In "profileKey" GameDto_fields.
Proof. apply not_in_fields_compute. reflexivity. Qed.

(** Every engine type survives the boundary, and a string that names none
    becomes [Other]. *)
Lemma engine_boundary_round_trip (t : EngineType) :
  engine_of_boundary (engine_to_boundary t) = t.
Proof. destruct t; reflexivity. Qed.

Lemma engine_of_boundary_unknown (s : string) :
  (forall t, s <> engine_to_boundary t) -> engine_of_boundary s = Other.
Proof.
  intros H. unfold engine_of_boundary.
  repeat match goal with
         | |- context [String.eqb s ?k] =>
             destruct (String.eqb_spec s k) as [-> | _]
         end;
    try reflexivity.
  - now destruct (H RpgMakerVX).
  - now destruct (H RpgMakerVXAce).
  - now destruct (H RpgMakerMV).
  - now destruct (H RpgMakerMZ).
  - now destruct (H RenPy).
Qed.

Section Facts.
Variable path_exists : string -> bool.
Variable classify_path : string -> EngineType.
Variable title_of_path : string -> string.

Lemma import_invalid_path new_id now p t ttl reg :
  path_exists p = false ->
  import path_exists classify_path title_of_path new_id now p t ttl reg = inl InvalidPath.
Proof. unfold import. intros ->. reflexivity. Qed.

Lemma import_inversion new_id now p t ttl reg g reg' :
  import path_exists classify_path title_of_path new_id now p t ttl reg = inr (g, reg') ->
  path_exists p = true
  /\ g = new_game classify_path title_of_path new_id now p t ttl
  /\ reg' = g :: reg.
Proof.
  unfold import. destruct (path_exists p); [| discriminate].
  intros [= <- <-]. repeat split.
Qed.

(** C5. For every path [p] and engine type [t]: [import(p, t)] returns a
    new game unless the path does not exist (it then fails with
    [InvalidPath] and there is no new game), and [getGame] on the new game's
    id returns that game: its path is [p], its engine type is [t] and its
    profile key equals its id. The value the [getGame] command hands over
    the boundary, which the front end's [getGame] passes on as it arrived,
    carries a [profileKey] field holding that id, next to the path and the
    engine type in its boundary form. *)
Theorem import_then_getGame
    (new_id : string) (now : Z) (p : string) (t : EngineType) (ttl : option string)
    (reg : registry) :
  match import path_exists classify_path title_of_path new_id now p (Some t) ttl reg with
  | inl e => e = InvalidPath /\ path_exists p = false
  | inr (g, reg') =>
      path_exists p = true
      /\ getGame path_exists (id g) reg' = Some (g, true)
      /\ path g = p /\ engineType g = t /\ profileKey g = id g
      /\ exists o,
           Api.getGame (Resolved (getGame_reply path_exists (id g) reg'))
           = Resolved (Some o)
           /\ field "id" o = Some (JStr (id g))
           /\ field "path" o = Some (JStr p)
           /\ field "engineType" o = Some (JStr (engine_to_boundary t))
           /\ field "profileKey" o = Some (JStr (id g))
           /\ In "profileKey" (keys o)
  end.
Proof.
  destruct (import path_exists classify_path title_of_path new_id now p (Some t) ttl reg)
    as [e | [g reg']] eqn:Himp.
  - unfold import in Himp. destruct (path_exists p); [discriminate |].
    injection Himp as <-. split; reflexivity.
  - apply import_inversion in Himp as (Hex & -> & ->).
    set (g := new_game classify_path title_of_path new_id now p (Some t) ttl).
    assert (Hget : getGame path_exists (id g) (g :: reg) = Some (g, true)).
    { unfold getGame. cbn [List.find]. rewrite String.eqb_refl.
      cbn [path g new_game]. now rewrite Hex. }
    split; [exact Hex |]. split; [exact Hget |]. do 3 (split; [reflexivity |]).
    exists (serialise (Game_object g true)).
    split; [unfold getGame_reply; now rewrite Hget |].
    repeat split. cbn. do 5 right. now left.
Qed.

(** Over the command, an engine type given as a string that names none is
    stored as [Other]. *)
Lemma importGameDir_unknown_engine new_id now p s reg :
  path_exists p = true ->
  (forall t, s <> engine_to_boundary t) ->
  exists g reg',
    importGameDir path_exists classify_path title_of_path new_id now p (Some s) reg
      = inr (g, reg')
    /\ engineType g = Other.
Proof.
  intros Hex Hs. unfold importGameDir, import. rewrite Hex. cbn [option_map].
  rewrite (engine_of_boundary_unknown s Hs). eexists _, _. split; reflexivity.
Qed.

End Facts.

(** The scenario of the specification: [/games/Foo] imported as
    [rpgmakermv]. *)
Example import_getGame_sample :
  let exists_ := fun _ : string => true in
  let g := mkGame "g1" "Foo" RpgMakerMV "/games/Foo" "g1" None None 1700 1700 None in
  import exists_ (fun _ => Other) (fun _ => "Foo") "g1" 1700 "/games/Foo"
         (Some RpgMakerMV) None []
    = inr (g, [g])
  /\ getGame exists_ "g1" [g] = Some (g, true)
  /\ getGame_reply exists_ "g1" [g]
     = Some [ ("id", JStr "g1"); ("title", JStr "Foo"); ("engineType", JStr "rpgmakermv");
              ("path", JStr "/games/Foo"); ("pathValid", JBool true);
              ("profileKey", JStr "g1"); ("createdAt", JNum 1700);
              ("updatedAt", JNum 1700) ].
Proof. repeat split. Qed.

End RegistryFacts.

Module ScannerFacts.
Import Registry Scanner.

(** Every directory the walk reaches really lies in the tree, at most
    [remaining] levels below its starting point. *)
Lemma traverse_sound (remaining : nat) :
  forall here dir v,
    In v (traverse remaining here dir) ->
    exists q, fst v = (here ++ q)%list /\ at_path dir q (snd v) /\ (length q <= remaining)%nat.
Proof.
  induction remaining as [| r IH]; intros here dir v Hin; cbn in Hin;
    destruct (readable dir); try contradiction.
  - destruct Hin as [<- | []]. exists []. cbn. rewrite app_nil_r. repeat split. lia.
  - destruct Hin as [<- | Hin].
    + exists []. cbn. rewrite app_nil_r. repeat split. lia.
    + apply in_flat_map in Hin. destruct Hin as [c [Hc Hv]].
      destruct (IH _ _ _ Hv) as [q [Hq [Hat Hlen]]].
      exists (name c :: q). split; [| split].
      * rewrite Hq, <- app_assoc. reflexivity.
      * cbn. exists c. repeat split; assumption.
      * cbn. lia.
Qed.

Section Facts.
Variable classify : list string -> option EngineType.
Variable title_of_path : string -> string.
Variable fresh_id : nat -> string.
Variable now : Z.
Variable root : string.

Local Abbreviation step := (scan_step classify title_of_path fresh_id now root).

Definition is_game (v : visit) : bool :=
  match classify (files (snd v)) with Some _ => true | None => false end.

Definition count_games (l : list visit) : nat := length (List.filter is_game l).

Lemma path_known_cons g reg p :
  path_known p reg = true -> path_known p (g :: reg) = true.
Proof. unfold path_known. cbn. intros ->. apply orb_true_r. Qed.

Lemma path_known_new p reg new_id t ttl :
  path_known p (new_game (fun _ => t) title_of_path new_id now p (Some t) ttl :: reg) = true.
Proof. unfold path_known. cbn. now rewrite String.eqb_refl. Qed.

(** One step never forgets a path, and it leaves the path of a game it
    visits known. *)
Lemma step_known acc v :
  (forall p, path_known p (fst acc) = true -> path_known p (fst (step acc v)) = true)
  /\ (is_game v = true -> path_known (resolve root (fst v)) (fst (step acc v)) = true).
Proof.
  destruct acc as [reg res]. unfold scan_step, is_game. cbn [fst].
  destruct (classify (files (snd v))) as [t |]; [| split; [auto | discriminate]].
  destruct (path_known (resolve root (fst v)) reg) eqn:Hk; cbn [fst].
  - split; [auto | intros _; exact Hk].
  - split; [intros p Hp; now apply path_known_cons | intros _; apply path_known_new].
Qed.

Lemma fold_known l : forall acc,
  (forall p, path_known p (fst acc) = true ->
             path_known p (fst (fold_left step l acc)) = true)
  /\ (forall v, In v l -> is_game v = true ->
                path_known (resolve root (fst v)) (fst (fold_left step l acc)) = true).
Proof.
  induction l as [| a l IH]; intros acc; cbn [fold_left].
  - split; [auto | intros v []].
  - destruct (IH (step acc a)) as [IHmono IHvis].
    destruct (step_known acc a) as [Hmono Hvis]. split.
    + intros p Hp. apply IHmono, Hmono, Hp.
    + intros v [<- | Hin] Hg; [apply IHmono, Hvis, Hg | now apply IHvis].
Qed.

(** When every game of the list is already known, the fold imports
    nothing and changes no row. *)
Lemma fold_all_known l : forall reg res,
  (forall v, In v l -> is_game v = true -> path_known (resolve root (fst v)) reg = true) ->
  fold_left step l (reg, res)
  = (reg, {| scannedDirs := length l + scannedDirs res;
             foundGames := count_games l + foundGames res;
             imported := imported res;
             skippedExisting := count_games l + skippedExisting res |}).
Proof.
  induction l as [| a l IH]; intros reg res Hall; cbn [fold_left].
  - destruct res; reflexivity.
  - assert (Htail : forall v, In v l -> is_game v = true ->
                      path_known (resolve root (fst v)) reg = true).
    { intros v Hv. apply Hall. now right. }
    specialize (Hall a (or_introl eq_refl)).
    unfold count_games. cbn [List.filter length]. fold (count_games l).
    unfold scan_step at 2. unfold is_game in Hall |- *.
    destruct (classify (files (snd a))) as [t |].
    + rewrite (Hall eq_refl). rewrite (IH _ _ Htail).
      unfold count_games, is_game. cbn. f_equal. f_equal; lia.
    + rewrite (IH _ _ Htail).
      unfold count_games, is_game. cbn. f_equal. f_equal; lia.
Qed.

(** The counters of any scan add up. *)
Lemma fold_counts l : forall acc,
  let r := fold_left step l acc in
  scannedDirs (snd r) = (length l + scannedDirs (snd acc))%nat
  /\ foundGames (snd r) = (count_games l + foundGames (snd acc))%nat
  /\ (imported (snd r) + skippedExisting (snd r)
      = count_games l + imported (snd acc) + skippedExisting (snd acc))%nat.
Proof.
  induction l as [| a l IH]; intros acc; cbn [fold_left].
  - cbn. repeat split; lia.
  - destruct (IH (step acc a)) as [Hs [Hf Hi]]. cbv zeta.
    rewrite Hs, Hf, Hi. clear Hs Hf Hi IH.
    assert (Hc : count_games (a :: l)
                 = ((if is_game a then 1 else 0) + count_games l)%nat).
    { unfold count_games. cbn [List.filter]. destruct (is_game a); reflexivity. }
    rewrite Hc. clear Hc. generalize (count_games l). intros k.
    destruct acc as [reg res]. unfold scan_step, is_game.
    destruct (classify (files (snd a))) as [t |].
    + destruct (path_known _ reg); cbn; repeat split; lia.
    + cbn. repeat split; lia.
Qed.

(** C4. [scan(T, d)] visits only directories of [T] that lie at most [d]
    levels below its root, and scanning a second time, with the registry
    the first scan produced and the same tree, imports nothing: every game
    found is counted as already existing, as many games are found as the
    first time, and the registry is unchanged. *)
Theorem scan_bounded_and_idempotent (tree : Dir) (d : nat) (reg : registry) :
  (forall v, In v (visited tree d) ->
             (length (fst v) <= d)%nat /\ at_path tree (fst v) (snd v))
  /\ (let first := scan classify title_of_path fresh_id now root tree d reg in
      let second := scan classify title_of_path fresh_id now root tree d (fst first) in
      imported (snd second) = O
      /\ skippedExisting (snd second) = foundGames (snd second)
      /\ foundGames (snd second) = foundGames (snd first)
      /\ foundGames (snd first)
         = (imported (snd first) + skippedExisting (snd first))%nat
      /\ scannedDirs (snd second) = length (visited tree d)
      /\ fst second = fst first).
Proof.
  split.
  - intros v Hv. destruct (traverse_sound _ _ _ _ Hv) as [q [Hq [Hat Hlen]]].
    cbn in Hq. subst q. split; assumption.
  - cbv zeta. unfold scan, visited.
    set (l := traverse d [] tree).
    destruct (fold_known l (reg, no_result)) as [_ Hvis].
    destruct (fold_counts l (reg, no_result)) as [_ [Hf Hi]]. cbv zeta in Hf, Hi.
    destruct (fold_left step l (reg, no_result)) as [reg1 res1] eqn:Hfirst.
    cbn [fst snd] in *.
    rewrite (fold_all_known l reg1 no_result Hvis).
    unfold no_result in *.
    cbn [fst snd scannedDirs foundGames imported skippedExisting] in *.
    repeat split; lia.
Qed.

End Facts.

Definition sample_tree : Dir :=
  mkDir "games" true []
    [ mkDir "Foo" true ["Game.exe"; "www"] [mkDir "www" true ["index.html"] []];
      mkDir "locked" false [] [mkDir "Hidden" true ["Game.exe"] []];
      mkDir "deep" true []
        [mkDir "a" true [] [mkDir "Bar" true ["Game.exe"] []]] ].

Definition sample_classify (fs : list string) : option EngineType :=
  if existsb (String.eqb "Game.exe") fs then Some RpgMakerMV else None.

Example scan_sample :
  let first := scan sample_classify (fun p => p) (fun n => pretty n) 1700
                    "/home/u/games" sample_tree 2 [] in
  map fst (visited sample_tree 2) = [[]; ["Foo"]; ["Foo"; "www"]; ["deep"]; ["deep"; "a"]]
  /\ snd first = mkScanResult 5 1 1 0
  /\ map path (fst first) = ["/home/u/games/Foo"]
  /\ snd (scan sample_classify (fun p => p) (fun n => pretty n) 1700
               "/home/u/games" sample_tree 2 (fst first))
     = mkScanResult 5 1 0 1.
Proof. vm_compute. repeat split. Qed.

End ScannerFacts.

Module AcquisitionFacts.
Import Acquisition.

Definition visible (sys : System) : list Engine * list (string * Artifact) :=
  (engines sys, install_dirs sys).

Lemma write_temp_visible p a sys : visible (write_temp p a sys) = visible sys.
Proof. reflexivity. Qed.

(** A transition that does not end in [Installed] changes neither the
    Engine rows nor the install directories. *)
Lemma step_visible env t sys :
  stage (fst (step env (t, sys))) <> Installed ->
  visible (snd (step env (t, sys))) = visible sys.
Proof.
  unfold step. destruct (stage t) eqn:Hst.
  - destruct (resolveStable env (family t)); intros _; reflexivity.
  - destruct (stable t) as [s |]; [| intros _; reflexivity].
    destruct (fetch env (downloadTarget s) (flavor t)); intros _; reflexivity.
  - destruct (stable t) as [s |]; [| intros _; reflexivity].
    destruct (lookup_file _ _) as [a |]; [| intros _; reflexivity].
    destruct (complete env s (flavor t) a); intros _; reflexivity.
  - destruct (stable t) as [s |]; [| intros _; reflexivity].
    destruct (lookup_file _ _) as [a |]; [| intros _; reflexivity].
    destruct (rename_succeeds env); [| intros _; reflexivity].
    cbn. intros H. contradiction.
  - cbn. intros H. congruence.
  - intros _. reflexivity.
Qed.

Lemma step_terminal env t sys :
  stage t = Installed \/ stage t = Failed -> step env (t, sys) = (t, sys).
Proof. unfold step. intros [-> | ->]; reflexivity. Qed.

(** Once [Installed], a task stays [Installed]. *)
Lemma run_Installed env n : forall t sys,
  stage t = Installed -> run env n (t, sys) = (t, sys).
Proof.
  induction n as [| n IH]; intros t sys H; [reflexivity |].
  cbn [run]. rewrite step_terminal by (left; exact H). now apply IH.
Qed.

Lemma run_visible env n : forall t sys,
  stage (fst (run env n (t, sys))) <> Installed ->
  visible (snd (run env n (t, sys))) = visible sys.
Proof.
  induction n as [| n IH]; intros t sys H; [reflexivity |].
  cbn [run] in *. destruct (step env (t, sys)) as [t1 sys1] eqn:Hstep.
  assert (Ht1 : stage t1 <> Installed).
  { intros Hi. apply H. now rewrite (run_Installed env n t1 sys1 Hi). }
  rewrite (IH t1 sys1 H).
  pose proof (step_visible env t sys) as Hv. rewrite Hstep in Hv. now apply Hv.
Qed.

(** Four transitions always reach a terminal stage. *)
Lemma downloadAndInstall_terminates env fam fl sys :
  let r := downloadAndInstall env fam fl sys in
  stage (fst r) = Installed \/ stage (fst r) = Failed.
Proof.
  cbv zeta. unfold downloadAndInstall, run, start, step. cbn [stage family flavor stable].
  destruct (resolveStable env fam) as [s |]; cbn; [| now right].
  destruct (fetch env (downloadTarget s) fl) as [a | a]; cbn; [| now right].
  rewrite String.eqb_refl.
  destruct (complete env s fl a); cbn; [| now right].
  rewrite String.eqb_refl.
  destruct (rename_succeeds env); cbn; [now left | now right].
Qed.

(** C3. For every engine family and flavor, and whatever the version
    source, the network, the verification and the final rename do: as long
    as the install task has not reached [Installed], that is after a crash
    following any number of transitions or after a failure at any stage, the
    Engine rows of the Registry and the install directories are exactly what
    they were before the call. *)
Theorem downloadAndInstall_atomic
    (env : Env) (fam fl : string) (sys : System) (n : nat) :
  stage (fst (run env n (start fam fl, sys))) <> Installed ->
  engines (snd (run env n (start fam fl, sys))) = engines sys
  /\ install_dirs (snd (run env n (start fam fl, sys))) = install_dirs sys.
Proof.
  intros H. pose proof (run_visible env n (start fam fl) sys H) as Hv.
  unfold visible in Hv. injection Hv as He Hd. split; assumption.
Qed.

Definition truncating_env : Env :=
  mkEnv (fun _ => Some (mkStable "0.94.0" "linux-x64"))
        (fun _ _ => BrokenOff "PK..")
        (fun _ _ => Some 1024%nat) true 1700.

Definition good_env : Env :=
  mkEnv (fun _ => Some (mkStable "0.94.0" "linux-x64"))
        (fun _ _ => Fetched "PK..zip")
        (fun _ _ => Some 7%nat) true 1700.

Definition old_system : System :=
  mkSystem [mkEngine "nwjs-0.90.0-normal" "nwjs" "0.90.0" "nwjs"
                     "engines/nwjs/0.90.0-normal" 1600]
           [("engines/nwjs/0.90.0-normal", "old")] [].

Lemma downloadAndInstall_atomic_witness :
  engines (snd (run truncating_env 4 (start "nwjs" "normal", old_system)))
    = engines old_system
  /\ install_dirs (snd (run truncating_env 4 (start "nwjs" "normal", old_system)))
    = install_dirs old_system.
Proof.
  apply (downloadAndInstall_atomic truncating_env "nwjs" "normal" old_system 4).
  vm_compute. discriminate.
Defined.

Example downloadAndInstall_broken_off :
  downloadAndInstall truncating_env "nwjs" "normal" old_system
  = (mkTask Failed "nwjs" "normal" (Some (mkStable "0.94.0" "linux-x64")),
     mkSystem (engines old_system) (install_dirs old_system)
              [("tmp/nwjs-normal.part", "PK..")]).
Proof. vm_compute. reflexivity. Qed.

Example downloadAndInstall_success :
  downloadAndInstall good_env "nwjs" "normal" old_system
  = (mkTask Installed "nwjs" "normal" (Some (mkStable "0.94.0" "linux-x64")),
     mkSystem (mkEngine "nwjs-0.94.0-normal" "nwjs" "0.94.0" "nwjs"
                        "engines/nwjs/0.94.0-normal" 1700 :: engines old_system)
              (("engines/nwjs/0.94.0-normal", "PK..zip") :: install_dirs old_system)
              []).
Proof. vm_compute. reflexivity. Qed.

End AcquisitionFacts.

(** * Further properties of the code *)

Module BackfillFacts.
Import Sql Migrations MigrationFacts.

(** The key a row has after the UPDATE of migration 0002. *)
Definition backfilled_key (r : GameRow2) : text :=
  match profile_key r with
  | None => Some (id r)
  | Some k => if String.eqb k "" then Some (id r) else Some k
  end.

Lemma backfill_row_key r :
  profile_key (if backfill_where r then set_profile_key_id r else r) = backfilled_key r.
Proof.
  unfold backfill_where, backfilled_key.
  destruct (profile_key r) as [k |] eqn:Hk; cbn; [| reflexivity].
  destruct (String.eqb k ""); cbn; [reflexivity | exact Hk].
Qed.

Lemma backfill_row_idempotent r :
  let r' := if backfill_where r then set_profile_key_id r else r in
  (if backfill_where r' then set_profile_key_id r' else r') = r'.
Proof.
  cbv zeta. destruct (backfill_where r) eqn:Hw; [| now rewrite Hw].
  unfold backfill_where. cbn.
  destruct (String.eqb (id r) ""); reflexivity.
Qed.

Lemma backfill_row_old_columns r :
  drop_profile_key (if backfill_where r then set_profile_key_id r else r)
  = drop_profile_key r.
Proof. destruct (backfill_where r); reflexivity. Qed.

(** The UPDATE of migration 0002 on any [games] table that already has the
    column: running it again changes nothing, it touches no other column,
    and each row's key afterwards is its old key when that was set and not
    empty, and its id otherwise; in particular no key is NULL afterwards. *)
Theorem update_backfill_idempotent_and_conservative (t : list GameRow2) :
  update_backfill (update_backfill t) = update_backfill t
  /\ map drop_profile_key (update_backfill t) = map drop_profile_key t
  /\ map profile_key (update_backfill t) = map backfilled_key t
  /\ Forall (fun r => profile_key r <> None) (update_backfill t).
Proof.
  unfold update_backfill. repeat split.
  - rewrite map_map. apply map_ext. intros r. apply backfill_row_idempotent.
  - rewrite map_map. apply map_ext. intros r. apply backfill_row_old_columns.
  - rewrite map_map. apply map_ext. intros r. apply backfill_row_key.
  - induction t as [| r t IH]; constructor; [| exact IH].
    rewrite backfill_row_key. unfold backfilled_key.
    destruct (profile_key r) as [k |]; [destruct (String.eqb k "") |]; discriminate.
Qed.

End BackfillFacts.

Module FormatErrorFacts.
Import Js Tauri.

Section Facts.
Variable quote : string -> string.

Lemma stringify_or_String_cases (err : value) :
  match stringify_or_String quote err with
  | Normal (VStr _) => True
  | Normal v => JSON_stringify quote err = Normal None /\ v = VUndefined
  | Throw e => (exists e', JSON_stringify quote err = Throw e') /\ String_ err = Throw e
  end.
Proof.
  unfold stringify_or_String.
  destruct (JSON_stringify quote err) as [[s |] | e'] eqn:Hj.
  - exact I.
  - split; reflexivity.
  - destruct (String_ err) as [s | e]; [exact I |].
    split; [exists e'; reflexivity | reflexivity].
Qed.

(** On a value whose [instanceof] test and [message] read return, every
    way [formatInvokeError] can fail to give a string: the value is an
    [Error] whose [message] is not a string (the message is returned as it
    is); or [JSON.stringify] returns [undefined] ([undefined] is returned);
    or [JSON.stringify] and [String] both throw (the exception of [String]
    escapes). *)
Lemma formatInvokeError_cases (err : value) :
  match formatInvokeError quote err with
  | Normal (VStr _) => True
  | Normal v =>
      (instanceof_Error err = true /\ v = get_message err)
      \/ (instanceof_Error err = false
          /\ JSON_stringify quote err = Normal None /\ v = VUndefined)
  | Throw e =>
      instanceof_Error err = false
      /\ (exists e', JSON_stringify quote err = Throw e')
      /\ String_ err = Throw e
  end.
Proof.
  unfold formatInvokeError.
  destruct (is_VStr err) eqn:Hs.
  { destruct err; try discriminate. exact I. }
  destruct (instanceof_Error err) eqn:Hie.
  { destruct (get_message err); try exact I; left; split; reflexivity. }
  pose proof (stringify_or_String_cases err) as Hc.
  assert (Hgoal :
    match stringify_or_String quote err with
    | Normal (VStr _) => True
    | Normal v =>
        (false = true /\ v = get_message err)
        \/ (false = false /\ JSON_stringify quote err = Normal None /\ v = VUndefined)
    | Throw e =>
        false = false /\ (exists e', JSON_stringify quote err = Throw e')
        /\ String_ err = Throw e
    end).
  { destruct (stringify_or_String quote err) as [v | e].
    - destruct v; try exact I; right; (split; [reflexivity | exact Hc]).
    - split; [reflexivity | exact Hc]. }
  destruct (truthy err && typeof_object err); [| exact Hgoal].
  destruct (get_message err) as [| | | | | m | | ]; try exact Hgoal.
  destruct (0 <? String.length (JsString.trim m))%nat; [exact I | exact Hgoal].
Qed.

(** On an object that is not an [Error], a [message] that is a string with
    something other than white space in it is the answer, whatever
    [JSON.stringify] and [String] would do; a blank [message] is ignored and
    the object is serialised instead. *)
Theorem formatInvokeError_message_precedence
    (m : string) (j : result (option string)) (ts : result string) :
  let err := VObject false false (VStr m) j ts in
  (JsString.trim m <> "" -> formatInvokeError quote err = Normal (VStr m))
  /\ (JsString.trim m = "" ->
      formatInvokeError quote err = stringify_or_String quote err).
Proof.
  cbv zeta. unfold formatInvokeError. cbn -[JsString.trim Nat.ltb stringify_or_String].
  split; intros H.
  - destruct (JsString.trim m) eqn:Ht; [contradiction | reflexivity].
  - rewrite H. reflexivity.
Qed.

End Facts.

End FormatErrorFacts.

Module FormatReadsFacts.
Import Js Tauri.

Section Facts.
Variable quote : string -> string.

(** Where both reads return, the two ways of writing the function agree. *)
Lemma formatInvokeError_of_value c ie m j s :
  Reads.formatInvokeError quote (Reads.of_value c ie m j s)
  = formatInvokeError quote (VObject c ie m j s).
Proof.
  unfold Reads.formatInvokeError, Reads.of_value, Reads.stringify_or_String, formatInvokeError.
  cbn -[stringify_or_String JsString.trim Nat.ltb].
  destruct ie; [reflexivity |]. destruct c; reflexivity.
Qed.

Lemma reads_tail_cases (x : Reads.object) :
  match Reads.stringify_or_String quote x with
  | Normal (VStr _) => True
  | Normal v => Reads.json x = Normal None /\ v = VUndefined
  | Throw e => (exists e', Reads.json x = Throw e') /\ Reads.to_string x = Throw e
  end.
Proof.
  exact (FormatErrorFacts.stringify_or_String_cases quote
           (VObject (Reads.callable x) false VUndefined (Reads.json x) (Reads.to_string x))).
Qed.

Lemma reads_tail_outcome (x : Reads.object) :
  Reads.instanceof_Error_test x = Normal false ->
  match Reads.stringify_or_String quote x with
  | Normal (VStr _) => True
  | Normal v =>
      (Reads.instanceof_Error_test x = Normal true
       /\ Reads.message_read x = Normal v)
      \/ (Reads.instanceof_Error_test x = Normal false
          /\ Reads.json x = Normal None /\ v = VUndefined)
  | Throw e =>
      Reads.instanceof_Error_test x = Throw e
      \/ (Reads.instanceof_Error_test x = Normal true
          /\ Reads.message_read x = Throw e)
      \/ (Reads.instanceof_Error_test x = Normal false
          /\ Reads.callable x = false
          /\ Reads.message_read x = Throw e)
      \/ (Reads.instanceof_Error_test x = Normal false
          /\ (exists e', Reads.json x = Throw e')
          /\ Reads.to_string x = Throw e)
  end.
Proof.
  intros Hie. pose proof (reads_tail_cases x) as Ht.
  destruct (Reads.stringify_or_String quote x) as [v | e].
  - destruct v; try exact I; right; (split; [exact Hie | exact Ht]).
  - right. right. right. split; [exact Hie | exact Ht].
Qed.

(** The outcomes of [formatInvokeError] that are not strings, for every
    value. A primitive gives a string unless it is [undefined] or a symbol
    ([JSON.stringify] returns [undefined], and so does the function). For an
    object or function, with the [instanceof] test and the read of
    [message] taken as steps that can throw, a result that is not a string
    is the [message] of an [Error], returned as it is, or the [undefined]
    that [JSON.stringify] gave; and an exception is the one of the
    [instanceof] test, of the read of [message] (made on an [Error] and on
    any other object, not on a function), or of [String] after
    [JSON.stringify] threw too. Conversely the exception of the test always
    escapes, and on an [Error] the outcome is the read of [message],
    whatever it is. *)
Theorem formatInvokeError_failures :
  (forall err : value,
      match err with
      | VObject _ _ _ _ _ => True
      | _ =>
          match formatInvokeError quote err with
          | Normal (VStr _) => True
          | Normal v =>
              v = VUndefined /\ (err = VUndefined \/ exists d, err = VSymbol d)
          | Throw _ => False
          end
      end)
  /\ (forall x : Reads.object,
         match Reads.formatInvokeError quote x with
         | Normal (VStr _) => True
         | Normal v =>
             (Reads.instanceof_Error_test x = Normal true
              /\ Reads.message_read x = Normal v)
             \/ (Reads.instanceof_Error_test x = Normal false
                 /\ Reads.json x = Normal None /\ v = VUndefined)
         | Throw e =>
             Reads.instanceof_Error_test x = Throw e
             \/ (Reads.instanceof_Error_test x = Normal true
                 /\ Reads.message_read x = Throw e)
             \/ (Reads.instanceof_Error_test x = Normal false
                 /\ Reads.callable x = false
                 /\ Reads.message_read x = Throw e)
             \/ (Reads.instanceof_Error_test x = Normal false
                 /\ (exists e', Reads.json x = Throw e')
                 /\ Reads.to_string x = Throw e)
         end)
  /\ (forall x e,
         Reads.instanceof_Error_test x = Throw e ->
         Reads.formatInvokeError quote x = Throw e)
  /\ (forall x,
         Reads.instanceof_Error_test x = Normal true ->
         Reads.formatInvokeError quote x = Reads.message_read x)
  /\ (forall x e,
         Reads.instanceof_Error_test x = Normal false ->
         Reads.callable x = false ->
         Reads.message_read x = Throw e ->
         Reads.formatInvokeError quote x = Throw e)
  /\ (forall c ie m j s,
         Reads.formatInvokeError quote (Reads.of_value c ie m j s)
         = formatInvokeError quote (VObject c ie m j s)).
Proof.
  split; [| split; [| split; [| split; [| split]]]].
  - intros err. destruct err as [| | [] | [] | t | s | d | c ie m j ts];
      cbn; try exact I.
    + split; [reflexivity | now left].
    + now destruct (negb _ && false).
    + now destruct (negb _ && false).
    + split; [reflexivity | right; now exists d].
  - intros x. unfold Reads.formatInvokeError.
    pose proof (reads_tail_outcome x) as Htail.
    destruct (Reads.instanceof_Error_test x) as [[] | e0] eqn:Hie; cbn [bind].
    + destruct (Reads.message_read x) as [v | e] eqn:Hm.
      * destruct v; try exact I; left; split; reflexivity.
      * right. left. split; reflexivity.
    + specialize (Htail eq_refl).
      destruct (Reads.callable x) eqn:Hc; cbn [negb]; [exact Htail |].
      destruct (Reads.message_read x) as [v | e] eqn:Hm; cbn [bind].
      * destruct v as [| | | | | m | |]; try exact Htail.
        destruct (0 <? String.length (JsString.trim m))%nat; [exact I | exact Htail].
      * right. right. left. repeat split.
    + left. reflexivity.
  - intros x e H. unfold Reads.formatInvokeError. now rewrite H.
  - intros x H. unfold Reads.formatInvokeError. now rewrite H.
  - intros x e Hie Hc Hm. unfold Reads.formatInvokeError. now rewrite Hie, Hc, Hm.
  - apply formatInvokeError_of_value.
Qed.

(** A proxy whose [getPrototypeOf] trap throws, and an object whose
    [message] is a getter that throws: the exception escapes
    [formatInvokeError] although both would serialise. *)
Example formatInvokeError_throwing_reads :
  Reads.formatInvokeError quote
    (Reads.mkObject false (Throw (VStr "trap")) (Normal VUndefined)
                    (Normal (Some "{}")) (Normal "[object Object]"))
  = Throw (VStr "trap")
  /\ Reads.formatInvokeError quote
       (Reads.mkObject false (Normal false) (Throw (VStr "getter"))
                       (Normal (Some "{}")) (Normal "[object Object]"))
     = Throw (VStr "getter").
Proof. split; reflexivity. Qed.

End Facts.

End FormatReadsFacts.

Module UseGamesStoreFacts.
Import Js Tauri Types UseGames UseGamesFacts.

Definition ids (gs : list GameDto) : list string := map id gs.

Lemma filter_no_match id' (gs : list GameDto) :
  ~ In id' (ids gs) ->
  List.filter (fun g => negb (String.eqb (id g) id')) gs = gs.
Proof.
  induction gs as [| g gs IH]; intros H; [reflexivity |].
  cbn. destruct (String.eqb_spec (id g) id') as [Heq | Hne].
  - exfalso. apply H. left. exact Heq.
  - cbn. f_equal. apply IH. intros Hin. apply H. right. exact Hin.
Qed.

Lemma filter_app_last id' (gs : list GameDto) (g : GameDto) :
  id g = id' ->
  List.filter (fun g => negb (String.eqb (id g) id')) (gs ++ [g])%list
  = List.filter (fun g => negb (String.eqb (id g) id')) gs.
Proof.
  intros Hid. rewrite List.filter_app. cbn.
  rewrite Hid, String.eqb_refl. cbn. apply app_nil_r.
Qed.

Lemma find_filter_none id' (gs : list GameDto) :
  List.find (fun g => String.eqb (id g) id')
            (List.filter (fun g => negb (String.eqb (id g) id')) gs) = None.
Proof.
  induction gs as [| g gs IH]; [reflexivity |].
  cbn. destruct (String.eqb (id g) id') eqn:He; cbn; [exact IH |].
  rewrite He. exact IH.
Qed.

Lemma filter_filter_same id' (gs : list GameDto) :
  let f := fun g => negb (String.eqb (id g) id') in
  List.filter f (List.filter f gs) = List.filter f gs.
Proof.
  cbv zeta. induction gs as [| g gs IH]; [reflexivity |].
  cbn. destruct (String.eqb (id g) id') eqn:He; cbn; [exact IH |].
  rewrite He. cbn. f_equal. exact IH.
Qed.

(** [handleAddGame] appends: on success the list is the old one followed by
    the new game, so every game keeps its position; when the command is
    rejected it returns [false] and the list is the old one. *)
Theorem handleAddGame_appends
    (input : AddGameInput) (newGame : GameDto) (e : value) (st : Store) :
  (let r := handleAddGame input (Resolved newGame) st in
   fst r = true
   /\ games (snd r) = (games st ++ [newGame])%list
   /\ (forall i g, games st !! i = Some g -> games (snd r) !! i = Some g)
   /\ games (snd r) !! length (games st) = Some newGame)
  /\ (let r := handleAddGame input (Rejected e) st in
      fst r = false /\ games (snd r) = games st).
Proof.
  split; cbv zeta; cbn.
  - split; [reflexivity |]. split; [reflexivity |]. split.
    + intros i g Hi. now apply lookup_app_l_Some.
    + rewrite lookup_app_r by lia. now rewrite Nat.sub_diag.
  - split; reflexivity.
Qed.

(** Adding a game whose id no listed game has and then deleting that id
    gives back the list as it was. *)
Theorem handleAddGame_then_handleDeleteGame
    (input : AddGameInput) (newGame : GameDto) (st : Store) :
  ~ In (id newGame) (ids (games st)) ->
  games (snd (handleDeleteGame (id newGame) (Resolved tt)
                (snd (handleAddGame input (Resolved newGame) st))))
  = games st.
Proof.
  intros Hfresh. cbn.
  rewrite filter_app_last by reflexivity. now apply filter_no_match.
Qed.

Lemma handleAddGame_then_handleDeleteGame_witness :
  let st := mkStore [sample_game "a" "A"; sample_game "b" "B"] false None in
  games (snd (handleDeleteGame "c" (Resolved tt)
                (snd (handleAddGame (mkAddGameInput None "rpgmakermv" "/games/C" None)
                                    (Resolved (sample_game "c" "C")) st))))
  = games st.
Proof.
  apply (handleAddGame_then_handleDeleteGame
           (mkAddGameInput None "rpgmakermv" "/games/C" None) (sample_game "c" "C")
           (mkStore [sample_game "a" "A"; sample_game "b" "B"] false None)).
  cbn. intros [H | [H | []]]; discriminate.
Defined.

(** After a successful [handleDeleteGame] the id is no longer found by
    [getGameById], and deleting the same id again changes nothing more. *)
Theorem handleDeleteGame_gone_and_idempotent (id' : string) (st : Store) :
  let st1 := snd (handleDeleteGame id' (Resolved tt) st) in
  getGameById id' st1 = None
  /\ games (snd (handleDeleteGame id' (Resolved tt) st1)) = games st1.
Proof.
  cbv zeta. unfold getGameById. cbn. split.
  - apply find_filter_none.
  - apply filter_filter_same.
Qed.

End UseGamesStoreFacts.

Module UseGamesInvariantFacts.
Import Js Tauri Types UseGames UseGamesFacts UseGamesStoreFacts.

Lemma ids_insert_same (gs : list GameDto) (i : nat) (g u : GameDto) :
  gs !! i = Some g -> id u = id g -> ids (<[i := u]> gs) = ids gs.
Proof.
  revert i. induction gs as [| a gs IH]; intros i Hi Hid; [discriminate |].
  destruct i as [| i]; cbn in *.
  - injection Hi as ->. now rewrite Hid.
  - f_equal. now apply IH.
Qed.

Lemma NoDup_ids_filter (p : GameDto -> bool) (gs : list GameDto) :
  NoDup (ids gs) -> NoDup (ids (List.filter p gs)).
Proof.
  induction gs as [| a gs IH]; intros H; [exact H |].
  cbn in H. apply NoDup_cons in H as [Hnotin Hnd]. cbn.
  destruct (p a); [| now apply IH].
  cbn. apply NoDup_cons. split; [| now apply IH].
  intros Hin. apply Hnotin. apply list_elem_of_In in Hin. apply list_elem_of_In.
  unfold ids in *. apply in_map_iff in Hin. destruct Hin as [g [Hg Hgin]].
  apply List.filter_In in Hgin. apply in_map_iff. exists g. tauto.
Qed.

Lemma findIndex_has_id id' (gs : list GameDto) (i : nat) :
  findIndex (has_id id') gs = Some i -> exists g, gs !! i = Some g /\ id g = id'.
Proof.
  intros H. destruct (findIndex_Some _ _ _ H) as [g [Hg Hp]].
  exists g. split; [exact Hg |]. unfold has_id in Hp. now apply String.eqb_eq.
Qed.

Lemma findIndex_absent id' (gs : list GameDto) :
  ~ In id' (ids gs) -> findIndex (has_id id') gs = None.
Proof.
  induction gs as [| a gs IH]; intros H; [reflexivity |].
  cbn. unfold has_id at 1. destruct (String.eqb_spec (id a) id') as [Heq | Hne].
  - exfalso. apply H. left. exact Heq.
  - rewrite IH; [reflexivity |]. intros Hin. apply H. right. exact Hin.
Qed.

Lemma findIndex_present id' (gs : list GameDto) :
  In id' (ids gs) -> exists i, findIndex (has_id id') gs = Some i.
Proof.
  induction gs as [| a gs IH]; intros H; [destruct H |].
  cbn. unfold has_id at 1. destruct (String.eqb_spec (id a) id') as [Heq | Hne].
  - exists O. reflexivity.
  - destruct H as [H | H]; [contradiction |].
    destruct (IH H) as [i Hi]. exists (S i). now rewrite Hi.
Qed.

Lemma find_insert_first id' (gs : list GameDto) (i : nat) (u : GameDto) :
  findIndex (has_id id') gs = Some i -> id u = id' ->
  List.find (fun g => String.eqb (id g) id') (<[i := u]> gs) = Some u.
Proof.
  revert i. induction gs as [| a gs IH]; intros i H Hu; [discriminate |].
  cbn in H. unfold has_id at 1 in H.
  destruct (String.eqb (id a) id') eqn:Ha.
  - injection H as <-. cbn. now rewrite Hu, String.eqb_refl.
  - destruct (findIndex (has_id id') gs) as [j |] eqn:Hj; cbn in H; [| discriminate].
    injection H as <-. cbn. rewrite Ha. now apply IH.
Qed.

(** The ids of the list stay pairwise distinct: under a successful add of
    a game whose id is not listed, under a successful update whose answer
    carries the id that was asked for, and under any delete. *)
Theorem useGames_unique_ids_preserved (st : Store) :
  NoDup (ids (games st)) ->
  (forall input newGame,
      ~ In (id newGame) (ids (games st)) ->
      NoDup (ids (games (snd (handleAddGame input (Resolved newGame) st)))))
  /\ (forall id' input updated,
         id updated = id' ->
         NoDup (ids (games (snd (handleUpdateGame id' input (Resolved updated) st)))))
  /\ (forall id' reply,
         NoDup (ids (games (snd (handleDeleteGame id' reply st))))).
Proof.
  intros Hnd. repeat split.
  - intros input newGame Hfresh. cbn. unfold ids. rewrite map_app. cbn.
    apply NoDup_app. split; [exact Hnd |]. split.
    + intros x Hx Hx'. apply list_elem_of_In in Hx, Hx'.
      destruct Hx' as [<- | []]. contradiction.
    + apply NoDup_singleton.
  - intros id' input updated Hid. rewrite handleUpdateGame_games.
    destruct (findIndex (has_id id') (games st)) as [i |] eqn:Hi; [| exact Hnd].
    destruct (findIndex_has_id _ _ _ Hi) as [g [Hg Hgid]].
    rewrite (ids_insert_same _ _ g); [exact Hnd | exact Hg | congruence].
  - intros id' [[] | e]; cbn; [| exact Hnd]. now apply NoDup_ids_filter.
Qed.

Lemma useGames_unique_ids_preserved_witness :
  let st := mkStore [sample_game "a" "A"; sample_game "b" "B"] false None in
  (forall input newGame,
      ~ In (id newGame) (ids (games st)) ->
      NoDup (ids (games (snd (handleAddGame input (Resolved newGame) st)))))
  /\ (forall id' input updated,
         id updated = id' ->
         NoDup (ids (games (snd (handleUpdateGame id' input (Resolved updated) st)))))
  /\ (forall id' reply,
         NoDup (ids (games (snd (handleDeleteGame id' reply st))))).
Proof.
  apply (useGames_unique_ids_preserved
           (mkStore [sample_game "a" "A"; sample_game "b" "B"] false None)).
  refine (bool_decide_unpack (NoDup _) _). vm_compute. exact I.
Defined.

(** A successful update of a listed id is what [getGameById] then returns,
    provided the answer carries that id; a successful update of an id that
    is not listed returns [true] and changes nothing. *)
Theorem handleUpdateGame_then_getGameById
    (id' : string) (input : UpdateGameInput) (updated : GameDto) (st : Store) :
  (In id' (ids (games st)) -> id updated = id' ->
   getGameById id' (snd (handleUpdateGame id' input (Resolved updated) st))
   = Some updated)
  /\ (~ In id' (ids (games st)) ->
      handleUpdateGame id' input (Resolved updated) st
      = (true, mkStore (games st) false None)).
Proof.
  split.
  - intros Hin Hid. unfold getGameById. rewrite handleUpdateGame_games.
    destruct (findIndex_present _ _ Hin) as [i Hi]. rewrite Hi.
    now apply find_insert_first.
  - intros Hout. unfold handleUpdateGame. cbn. fold (has_id id').
    now rewrite (findIndex_absent _ _ Hout).
Qed.

(** What the store shows after a failure. Only an [Error] instance
    contributes its message; a rejection with a plain string, which is how a
    command failure arrives, is replaced by the fixed text of the
    operation. Whatever happens, [loading] ends [false]. *)
Theorem useGames_error_text (s msg : string) (st : Store) :
  error (fetchGames (Rejected (VStr s)) st) = Some (VStr "获取游戏列表失败")
  /\ (forall input,
         error (snd (handleAddGame input (Rejected (VStr s)) st))
         = Some (VStr "添加游戏失败"))
  /\ (forall i input,
         error (snd (handleUpdateGame i input (Rejected (VStr s)) st))
         = Some (VStr "更新游戏失败"))
  /\ (forall i,
         error (snd (handleDeleteGame i (Rejected (VStr s)) st))
         = Some (VStr "删除游戏失败"))
  /\ (forall i l,
         error (snd (handleLaunchGame i (Rejected (VStr s)) l st))
         = Some (VStr "启动游戏失败"))
  /\ error (fetchGames (Rejected (new_Error msg)) st) = Some (VStr msg)
  /\ (forall i,
         error (snd (handleDeleteGame i (Rejected (new_Error msg)) st))
         = Some (VStr msg))
  /\ (forall i l,
         error (snd (handleLaunchGame i (Rejected (new_Error msg)) l st))
         = Some (VStr msg))
  /\ (forall r, loading (fetchGames r st) = false)
  /\ (forall input r, loading (snd (handleAddGame input r st)) = false)
  /\ (forall i input r, loading (snd (handleUpdateGame i input r st)) = false)
  /\ (forall i r, loading (snd (handleDeleteGame i r st)) = false)
  /\ (forall i r l, loading (snd (handleLaunchGame i r l st)) = false).
Proof.
  repeat split; intros; try reflexivity.
  - destruct r; reflexivity.
  - destruct r; reflexivity.
  - destruct r; reflexivity.
  - destruct r as [[] |]; reflexivity.
  - destruct r; [| reflexivity]. destruct l; reflexivity.
Qed.

(** [handleLaunchGame] after a successful launch: the list becomes the one
    the refresh fetched; when the refresh itself fails the old list is kept
    and the failure text of the refresh is recorded, yet the result is still
    [true]. *)
Theorem handleLaunchGame_refresh
    (id' : string) (reply : LaunchResult) (fetched : list GameDto) (e : value) (st : Store) :
  handleLaunchGame id' (Resolved reply) (Resolved fetched) st
    = (true, mkStore fetched false None)
  /\ handleLaunchGame id' (Resolved reply) (Rejected e) st
    = (true, mkStore (games st) false (Some (error_text e "获取游戏列表失败"))).
Proof. split; reflexivity. Qed.

End UseGamesInvariantFacts.

Module JsStringTrimFacts.
Import JsString.

Lemma strip_prefix_Some (p l r : list ascii) :
  strip_prefix p l = Some r <-> l = (p ++ r)%list.
Proof.
  revert l. induction p as [| a p IH]; intros l; cbn.
  - split; [intros [= ->]; reflexivity | intros ->; reflexivity].
  - destruct l as [| b l]; [split; discriminate |].
    destruct (Ascii.eqb_spec a b) as [-> | Hne].
    + rewrite IH. split; [intros ->; reflexivity | intros [= ->]; reflexivity].
    + split; [discriminate | intros [= Hab _]; congruence].
Qed.

Lemma strip_any_Some toks l r :
  strip_any toks l = Some r -> exists t, In t toks /\ l = (t ++ r)%list.
Proof.
  induction toks as [| t toks IH]; cbn; [discriminate |].
  destruct (strip_prefix t l) as [r' |] eqn:Hp.
  - intros [= <-]. exists t. split; [now left | now apply strip_prefix_Some].
  - intros H. destruct (IH H) as [t' [Hin Hl]]. exists t'. split; [now right | exact Hl].
Qed.

Lemma strip_any_prefixed toks t l r :
  In t toks -> l = (t ++ r)%list -> strip_any toks l <> None.
Proof.
  induction toks as [| t' toks IH]; intros Hin Hl; [destruct Hin |].
  cbn. destruct (strip_prefix t' l) eqn:Hp; [discriminate |].
  destruct Hin as [-> | Hin]; [| now apply IH].
  apply (strip_prefix_Some t l r) in Hl. congruence.
Qed.

Definition nonempty_tokens (toks : list (list ascii)) : Prop :=
  Forall (fun t => t <> []) toks.

Lemma strip_any_shorter toks l r :
  nonempty_tokens toks -> strip_any toks l = Some r -> (length r < length l)%nat.
Proof.
  intros Hne H. destruct (strip_any_Some _ _ _ H) as [t [Hin ->]].
  rewrite length_app. unfold nonempty_tokens in Hne.
  rewrite List.Forall_forall in Hne. specialize (Hne t Hin).
  destruct t; [contradiction | cbn; lia].
Qed.

Lemma strip_any_nil toks : nonempty_tokens toks -> strip_any toks [] = None.
Proof.
  intros Hne. destruct (strip_any toks []) as [r |] eqn:H; [| reflexivity].
  apply (strip_any_shorter _ _ _ Hne) in H. cbn in H. lia.
Qed.

(** With fuel for every byte, [drop_tokens] stops only where no token
    leads. *)
Lemma drop_tokens_no_lead toks : nonempty_tokens toks ->
  forall fuel l, (length l <= fuel)%nat ->
    strip_any toks (drop_tokens fuel toks l) = None.
Proof.
  intros Hne. induction fuel as [| fuel IH]; intros l Hlen; cbn.
  - destruct l; [now apply strip_any_nil | cbn in Hlen; lia].
  - destruct (strip_any toks l) as [r |] eqn:Hs; [| exact Hs].
    apply IH. apply (strip_any_shorter _ _ _ Hne) in Hs. lia.
Qed.

Lemma drop_tokens_fixed toks fuel l :
  strip_any toks l = None -> drop_tokens fuel toks l = l.
Proof. intros H. destruct fuel; cbn; [reflexivity | now rewrite H]. Qed.

Lemma drop_tokens_suffix toks : forall fuel l,
  exists p, l = (p ++ drop_tokens fuel toks l)%list.
Proof.
  induction fuel as [| fuel IH]; intros l; cbn; [exists []; reflexivity |].
  destruct (strip_any toks l) as [r |] eqn:Hs; [| exists []; reflexivity].
  destruct (strip_any_Some _ _ _ Hs) as [t [_ ->]].
  destruct (IH r) as [p Hp]. exists (t ++ p)%list.
  rewrite <- app_assoc. now rewrite <- Hp.
Qed.

Lemma ws_tokens_nonempty : nonempty_tokens ws_tokens.
Proof.
  unfold nonempty_tokens. apply List.Forall_forall. intros t Hin.
  vm_compute in Hin.
  repeat (destruct Hin as [<- | Hin]; [discriminate |]). destruct Hin.
Qed.

Lemma rev_ws_tokens_nonempty : nonempty_tokens (map (@rev ascii) ws_tokens).
Proof.
  unfold nonempty_tokens. apply List.Forall_forall. intros t Hin.
  vm_compute in Hin.
  repeat (destruct Hin as [<- | Hin]; [discriminate |]). destruct Hin.
Qed.

Definition rws : list (list ascii) := map (@rev ascii) ws_tokens.

(** No white space leads, none trails. *)
Definition clean_bytes (l : list ascii) : Prop :=
  strip_any ws_tokens l = None /\ strip_any rws (rev l) = None.

Lemma trim_start_no_lead l : strip_any ws_tokens (trim_start_bytes l) = None.
Proof. apply drop_tokens_no_lead; [apply ws_tokens_nonempty | lia]. Qed.

Lemma trim_bytes_clean l : clean_bytes (trim_end_bytes (trim_start_bytes l)).
Proof.
  set (l1 := trim_start_bytes l). unfold clean_bytes, trim_end_bytes. fold rws.
  rewrite rev_involutive. split.
  - destruct (drop_tokens_suffix rws (length l1) (rev l1)) as [p Hp].
    set (d := drop_tokens (length l1) rws (rev l1)) in *.
    assert (Hl1 : l1 = (rev d ++ rev p)%list).
    { rewrite <- (rev_involutive l1), Hp, rev_app_distr. reflexivity. }
    destruct (strip_any ws_tokens (rev d)) as [r |] eqn:Hs; [| reflexivity].
    exfalso. destruct (strip_any_Some _ _ _ Hs) as [t [Hin Ht]].
    apply (strip_any_prefixed ws_tokens t l1 (r ++ rev p)%list Hin).
    + rewrite Hl1, Ht, <- app_assoc. reflexivity.
    + apply trim_start_no_lead.
  - apply drop_tokens_no_lead; [apply rev_ws_tokens_nonempty |].
    rewrite length_rev. lia.
Qed.

Lemma trim_bytes_fixed l :
  clean_bytes l -> trim_end_bytes (trim_start_bytes l) = l.
Proof.
  intros [Hs He]. unfold trim_start_bytes. rewrite (drop_tokens_fixed _ _ _ Hs).
  unfold trim_end_bytes. fold rws. rewrite (drop_tokens_fixed _ _ _ He).
  apply rev_involutive.
Qed.

Lemma bytes_unbytes l : bytes (unbytes l) = l.
Proof. apply list_ascii_of_string_of_list_ascii. Qed.

Lemma unbytes_bytes s : unbytes (bytes s) = s.
Proof. apply string_of_list_ascii_of_string. Qed.

(** [trim] is idempotent: what it returns has no white space left to
    remove, at either end. *)
Theorem trim_idempotent (s : string) :
  trim (trim s) = trim s /\ clean_bytes (bytes (trim s)).
Proof.
  unfold trim. rewrite bytes_unbytes. split.
  - f_equal. apply trim_bytes_fixed, trim_bytes_clean.
  - apply trim_bytes_clean.
Qed.

Lemma is_empty_false s : is_empty s = false <-> s <> "".
Proof. destruct s; cbn; split; congruence. Qed.

(** Every piece kept by [map trim] then [filter (non-empty)] is non-empty
    and trimmed. *)
Lemma trimmed_nonempty_pieces (pieces : list string) :
  Forall (fun a => a <> "" /\ trim a = a)
         (List.filter (fun s => negb (is_empty s)) (map trim pieces)).
Proof.
  apply List.Forall_forall. intros a Hin. apply List.filter_In in Hin.
  destruct Hin as [Hin Hne]. apply in_map_iff in Hin. destruct Hin as [x [<- _]].
  split; [| apply trim_idempotent].
  apply is_empty_false. now destruct (is_empty (trim x)).
Qed.

End JsStringTrimFacts.

Module JsStringSplitFacts.
Import JsString JsStringTrimFacts.

Definition LFc : ascii := ascii_of_N 10.
Definition CRc : ascii := ascii_of_N 13.

(** Neither CR nor LF. *)
Definition plain_char (c : ascii) : bool :=
  negb (Ascii.eqb c CRc) && negb (Ascii.eqb c LFc).

Definition single_line (s : string) : Prop :=
  forallb plain_char (bytes s) = true.

Lemma bytes_app (a b : string) : bytes (a ++ b) = (bytes a ++ bytes b)%list.
Proof.
  unfold bytes. induction a as [| c a IH]; [reflexivity |].
  change (String c a ++ b) with (String c (a ++ b)).
  cbn [list_ascii_of_string app]. now rewrite IH.
Qed.

Lemma sep_newline_plain c l : plain_char c = true -> sep_newline (c :: l) = None.
Proof.
  intros H.
  destruct c as [[] [] [] [] [] [] [] []]; solve [discriminate H | reflexivity].
Qed.

Lemma sep_newline_LF l : sep_newline (LFc :: l) = Some l.
Proof. reflexivity. Qed.

(** A line followed by LF is cut off as one piece. *)
Lemma split_go_line (x : list ascii) : forall fuel cur rest,
  forallb plain_char x = true -> (length x < fuel)%nat ->
  split_go fuel sep_newline cur (x ++ LFc :: rest)
  = rev (rev x ++ cur) :: split_go (fuel - length x - 1) sep_newline [] rest.
Proof.
  induction x as [| c x IH]; intros fuel cur rest Hx Hfuel.
  - destruct fuel as [| fuel]; [cbn in Hfuel; lia |].
    cbn [app length split_go]. rewrite sep_newline_LF. cbn [rev app].
    replace (S fuel - 0 - 1)%nat with fuel by lia. reflexivity.
  - cbn in Hx. apply andb_true_iff in Hx as [Hc Hx].
    destruct fuel as [| fuel]; [cbn in Hfuel; lia |].
    cbn [app length split_go]. rewrite (sep_newline_plain c _ Hc).
    rewrite IH by (cbn in Hfuel; try exact Hx; lia).
    cbn [rev]. rewrite <- app_assoc. cbn [app].
    replace (S fuel - S (length x) - 1)%nat with (fuel - length x - 1)%nat by lia.
    reflexivity.
Qed.

Lemma split_go_last (x : list ascii) : forall fuel cur,
  forallb plain_char x = true -> (length x < fuel)%nat ->
  split_go fuel sep_newline cur x = [rev (rev x ++ cur)].
Proof.
  induction x as [| c x IH]; intros fuel cur Hx Hfuel.
  - destruct fuel; reflexivity.
  - cbn in Hx. apply andb_true_iff in Hx as [Hc Hx].
    destruct fuel as [| fuel]; [cbn in Hfuel; lia |].
    cbn [split_go]. rewrite (sep_newline_plain c _ Hc).
    rewrite IH by (cbn in Hfuel; try exact Hx; lia).
    cbn [rev]. rewrite <- app_assoc. reflexivity.
Qed.

(** The bytes of [lines.join("\n")]. *)
Fixpoint join_bytes (xs : list (list ascii)) : list ascii :=
  match xs with
  | [] => []
  | [x] => x
  | x :: rest => (x ++ LFc :: join_bytes rest)%list
  end.

Lemma bytes_join (xs : list string) :
  bytes (join LF xs) = join_bytes (map bytes xs).
Proof.
  induction xs as [| x xs IH]; [reflexivity |].
  destruct xs as [| y xs]; [reflexivity |].
  change (join LF (x :: y :: xs)) with (x ++ LF ++ join LF (y :: xs)).
  rewrite !bytes_app, IH. reflexivity.
Qed.

Lemma split_go_join (xs : list (list ascii)) : forall fuel,
  xs <> [] ->
  Forall (fun x => forallb plain_char x = true) xs ->
  (length (join_bytes xs) < fuel)%nat ->
  split_go fuel sep_newline [] (join_bytes xs) = xs.
Proof.
  induction xs as [| x xs IH]; intros fuel Hne Hall Hfuel; [contradiction |].
  apply Forall_cons in Hall as [Hx Hall].
  destruct xs as [| y xs].
  - cbn [join_bytes] in *. rewrite split_go_last by assumption.
    rewrite app_nil_r, rev_involutive. reflexivity.
  - change (join_bytes (x :: y :: xs)) with (x ++ LFc :: join_bytes (y :: xs))%list in *.
    rewrite length_app in Hfuel. cbn [length] in Hfuel.
    rewrite split_go_line by (try exact Hx; lia).
    rewrite app_nil_r, rev_involutive. f_equal.
    apply IH; [discriminate | exact Hall | lia].
Qed.

(** Splitting on line ends undoes joining with LF, for a list that is not
    empty and whose strings hold neither CR nor LF. *)
Theorem split_lines_join (xs : list string) :
  xs <> [] -> Forall single_line xs -> split_lines (join LF xs) = xs.
Proof.
  intros Hne Hall. unfold split_lines, split_bytes.
  rewrite bytes_join, split_go_join.
  - rewrite map_map. rewrite <- (map_id xs) at 2. apply map_ext, unbytes_bytes.
  - destruct xs; [contradiction | discriminate].
  - apply List.Forall_forall. intros b Hb. apply in_map_iff in Hb.
    destruct Hb as [x [<- Hx]]. rewrite List.Forall_forall in Hall. now apply Hall.
  - lia.
Qed.

Lemma split_lines_join_witness :
  split_lines (join LF ["--disable-gpu"; ""; "--lang=zh CN"])
  = ["--disable-gpu"; ""; "--lang=zh CN"].
Proof.
  apply (split_lines_join ["--disable-gpu"; ""; "--lang=zh CN"]).
  - discriminate.
  - repeat constructor.
Defined.

End JsStringSplitFacts.

Module GameSettingsModalRoundTripFacts.
Import Js Tauri Ipc GameSettingsModal JsString JsStringTrimFacts JsStringSplitFacts.

(** An argument as [saveLaunchConfig] produces them: not empty, trimmed,
    on one line. *)
Definition clean_arg (a : string) : Prop :=
  a <> "" /\ trim a = a /\ single_line a.

Lemma filter_nonempty_id (xs : list string) :
  Forall (fun a => a <> "") xs ->
  List.filter (fun s => negb (is_empty s)) xs = xs.
Proof.
  induction xs as [| x xs IH]; intros H; [reflexivity |].
  apply Forall_cons in H as [Hx H]. cbn.
  apply is_empty_false in Hx. rewrite Hx. cbn. f_equal. now apply IH.
Qed.

Lemma map_trim_id (xs : list string) :
  Forall (fun a => trim a = a) xs -> map trim xs = xs.
Proof.
  induction xs as [| x xs IH]; intros H; [reflexivity |].
  apply Forall_cons in H as [Hx H]. cbn. rewrite Hx. f_equal. now apply IH.
Qed.

(** The arguments read back from the text area are the ones that were
    written into it. *)
Lemma launch_args_join (args : list string) :
  Forall clean_arg args -> launch_args (join LF args) = args.
Proof.
  intros H. destruct args as [| a args]; [reflexivity |].
  unfold launch_args. rewrite split_lines_join.
  - rewrite map_trim_id, filter_nonempty_id; [reflexivity | |];
      eapply Forall_impl; try exact H; cbn; unfold clean_arg; tauto.
  - discriminate.
  - eapply Forall_impl; [exact H |]. cbn. unfold clean_arg. tauto.
Qed.

(** The arguments [saveLaunchConfig] sends are never empty and carry no
    white space at either end, whatever the text area holds. *)
Theorem launch_args_clean (text : string) :
  Forall (fun a => a <> "" /\ trim a = a) (launch_args text).
Proof. apply trimmed_nonempty_pieces. Qed.

Section Facts.
Variable quote : string -> string.
Variable get_backend : Command -> InvokeOutcome (option LaunchConfigReply).
Variable update_backend : Command -> InvokeOutcome unit.

(** Loading a launch configuration and saving it unchanged sends back the
    arguments and the isolation flag that were loaded, when every argument
    is non-empty, trimmed and on one line. *)
Theorem loadLaunchConfig_then_saveLaunchConfig
    (gameId : string) (args : list string) (sb : bool) (w : World ModalState) :
  Forall clean_arg args ->
  get_backend (mkCommand "get_game_launch_config" [("gameId", JStr gameId)])
    = Resolved (Some (mkLaunchConfigReply (Some args) sb)) ->
  let w1 := snd (loadLaunchConfig quote get_backend gameId w) in
  launch_args (launchArgsText (ui w1)) = args
  /\ sandboxHome (ui w1) = sb
  /\ issued (snd (saveLaunchConfig quote update_backend (Some gameId) w1))
     = mkCommand "update_game_launch_config"
         [("input", JObj [("gameId", JStr gameId);
                          ("args", JArr (map JStr args));
                          ("sandboxHome", JBool sb)])]
       :: issued w1.
Proof.
  intros Hclean Hget. cbv zeta.
  unfold loadLaunchConfig, mbind, send, lift. rewrite Hget.
  cbn [invokeResult fst snd modify ui issued r_args r_sandboxHome default].
  assert (Hargs : launch_args (launchArgsText
                    (set_launch (join LF args) sb (ui w))) = args).
  { cbn [set_launch launchArgsText]. now apply launch_args_join. }
  split; [exact Hargs |]. split; [reflexivity |].
  unfold saveLaunchConfig, mbind, get, send, lift.
  cbn [fst snd ui issued]. change (id args) with args. rewrite Hargs.
  change (sandboxHome (set_launch (join LF args) sb (ui w))) with sb.
  destruct (invokeResult quote _); reflexivity.
Qed.

End Facts.

Lemma loadLaunchConfig_then_saveLaunchConfig_witness :
  let w := mkWorld initial [] in
  let get_backend := fun _ : Command =>
    Resolved (Some (mkLaunchConfigReply (Some ["--disable-gpu"; "--lang=zh"]) false)) in
  let w1 := snd (loadLaunchConfig (fun s => s) get_backend "g1" w) in
  launch_args (launchArgsText (ui w1)) = ["--disable-gpu"; "--lang=zh"]
  /\ sandboxHome (ui w1) = false
  /\ issued (snd (saveLaunchConfig (fun s => s) (fun _ => Resolved tt) (Some "g1") w1))
     = mkCommand "update_game_launch_config"
         [("input", JObj [("gameId", JStr "g1");
                          ("args", JArr (map JStr ["--disable-gpu"; "--lang=zh"]));
                          ("sandboxHome", JBool false)])]
       :: issued w1.
Proof.
  apply (loadLaunchConfig_then_saveLaunchConfig (fun s => s)
           (fun _ => Resolved
                       (Some (mkLaunchConfigReply (Some ["--disable-gpu"; "--lang=zh"]) false)))
           (fun _ => Resolved tt) "g1" ["--disable-gpu"; "--lang=zh"] false
           (mkWorld initial [])).
  - repeat constructor; discriminate.
  - reflexivity.
Defined.

End GameSettingsModalRoundTripFacts.

Module GameSettingsModalActionsFacts.
Import Js Tauri Ipc GameSettingsModal GameSettingsModalActions JsString JsStringTrimFacts.

Section Facts.
Variable quote : string -> string.
Variable title_backend : Command -> InvokeOutcome unit.
Variable delete_backend : Command -> InvokeOutcome unit.

Definition title_command (gameId title : string) : Command :=
  mkCommand "update_game_title" [("gameId", JStr gameId); ("title", JStr title)].

Definition delete_command (gameId : string) : Command :=
  mkCommand "delete_game" [("gameId", JStr gameId)].

(** Renaming is guarded: without a game, or with a draft that is blank,
    [saveTitle] sends nothing and emits nothing; otherwise it sends one
    [update_game_title] whose title is the trimmed draft (not empty, with no
    white space left at its ends), and it emits [titleUpdated] exactly when
    the command was accepted. *)
Theorem saveTitle_guarded (game : option string) (w : World Modal) :
  let title := trim (titleDraft (fst (ui w))) in
  let r := saveTitle quote title_backend game w in
  match game with
  | None => r = (Normal tt, w)
  | Some gameId =>
      if is_empty title then r = (Normal tt, w)
      else
        issued (snd r) = title_command gameId title :: issued w
        /\ title <> "" /\ trim title = title
        /\ fst (ui (snd r)) = fst (ui w)
        /\ match title_backend (title_command gameId title) with
           | Resolved _ =>
               r = (Normal tt,
                    mkWorld (fst (ui w), TitleUpdated gameId :: snd (ui w))
                            (title_command gameId title :: issued w))
           | Rejected _ => snd (ui (snd r)) = snd (ui w)
           end
  end.
Proof.
  cbv zeta. destruct game as [gameId |]; [| reflexivity].
  unfold saveTitle, mbind, get. cbn beta iota. cbn [ui].
  unfold Modal in *.
  destruct (is_empty (trim (titleDraft (fst (ui w))))) eqn:He; [reflexivity |].
  fold (title_command gameId (trim (titleDraft (fst (ui w))))).
  unfold send, lift. cbn [fst snd ui issued].
  destruct (title_backend _) as [[] | e] eqn:Hb.
  - cbn. destruct w as [[st em] log]. cbn.
    repeat split; try apply is_empty_false; try apply trim_idempotent; assumption.
  - unfold invokeResult, bind.
    destruct (formatInvokeError quote e); cbn;
      repeat split; try apply is_empty_false; try apply trim_idempotent; assumption.
Qed.

(** Deleting is guarded: without a game or without confirmation
    [deleteGame] does nothing at all; once confirmed it sends one
    [delete_game], and it emits [deleted] and closes exactly when the command
    was accepted. *)
Theorem deleteGame_guarded (game : option string) (confirmed : bool) (w : World Modal) :
  let r := deleteGame quote delete_backend game confirmed w in
  match game, confirmed with
  | Some gameId, true =>
      issued (snd r) = delete_command gameId :: issued w
      /\ fst (ui (snd r)) = fst (ui w)
      /\ snd (ui (snd r))
         = match delete_backend (delete_command gameId) with
           | Resolved _ => UpdateOpen false :: Deleted gameId :: snd (ui w)
           | Rejected _ => snd (ui w)
           end
  | _, _ => r = (Normal tt, w)
  end.
Proof.
  cbv zeta. destruct game as [gameId |]; [| destruct confirmed; reflexivity].
  destruct confirmed; [| reflexivity].
  unfold deleteGame, mbind, send, lift. cbn [negb fst snd ui issued].
  fold (delete_command gameId).
  destruct (delete_backend _) as [[] | e].
  - cbn. repeat split.
  - unfold invokeResult, bind. destruct (formatInvokeError quote e); cbn; repeat split.
Qed.

End Facts.

End GameSettingsModalActionsFacts.

Module IpcFacts.
Import Js Tauri Ipc.

(** [m] relates every world to the world it leaves. *)
Definition rel_m {S A} (R : World S -> World S -> Prop) (m : M S A) : Prop :=
  forall w, R w (snd (m w)).

(** A relation on worlds that only looks at the front-end state. *)
Definition on_ui {S} (Q : S -> S -> Prop) : World S -> World S -> Prop :=
  fun w w' => Q (ui w) (ui w').

Section Rules.
Context {S : Type} (Q : S -> S -> Prop).
Hypothesis Q_refl : forall s, Q s s.
Hypothesis Q_trans : forall a b c, Q a b -> Q b c -> Q a c.

Lemma rel_ret {A} (a : A) : rel_m (on_ui Q) (ret a).
Proof. intros w. apply Q_refl. Qed.

Lemma rel_lift {A} (r : result A) : rel_m (on_ui Q) (@lift S A r).
Proof. intros w. apply Q_refl. Qed.

Lemma rel_get : rel_m (on_ui Q) (@get S).
Proof. intros w. apply Q_refl. Qed.

Lemma rel_send {T} (backend : Command -> InvokeOutcome T) c :
  rel_m (on_ui Q) (@send S T backend c).
Proof. intros w. apply Q_refl. Qed.

Lemma rel_modify (f : S -> S) : (forall s, Q s (f s)) -> rel_m (on_ui Q) (modify f).
Proof. intros H w. apply H. Qed.

Lemma rel_bind {A B} (m : M S A) (k : A -> M S B) :
  rel_m (on_ui Q) m -> (forall a, rel_m (on_ui Q) (k a)) -> rel_m (on_ui Q) (mbind m k).
Proof.
  intros Hm Hk w. unfold mbind. specialize (Hm w).
  destruct (m w) as [[a | e] w1]; cbn [snd] in *; [| exact Hm].
  eapply Q_trans; [exact Hm | apply Hk].
Qed.

End Rules.

End IpcFacts.

Ltac rel_auto refl trans :=
  repeat first
    [ simple apply (IpcFacts.rel_ret _ refl)
    | simple apply (IpcFacts.rel_lift _ refl)
    | simple apply (IpcFacts.rel_get _ refl)
    | simple apply (IpcFacts.rel_send _ refl)
    | simple apply (IpcFacts.rel_bind _ trans); [ | intros ? ]
    | match goal with
      | |- IpcFacts.rel_m _ (match ?x with _ => _ end) => destruct x
      | |- IpcFacts.rel_m _ (if ?x then _ else _) => destruct x
      end ].

Module AppShellFacts.
Import Js Tauri Ipc App AppShell IpcFacts.

(** The progress shown, if any, lies between 0 and 100. *)
Definition status_ok (st : AppState) : Prop :=
  match currentTask st with
  | Some t => 0 <= progress t <= 100
  | None => True
  end.

Definition keeps_status (s s' : AppState) : Prop := status_ok s -> status_ok s'.

Definition same_games (s s' : AppState) : Prop :=
  games s' = games s /\ selectedGameId s' = selectedGameId s.

Lemma keeps_status_refl s : keeps_status s s.
Proof. intros H. exact H. Qed.

Lemma keeps_status_trans a b c : keeps_status a b -> keeps_status b c -> keeps_status a c.
Proof. unfold keeps_status. tauto. Qed.

Lemma same_games_refl s : same_games s s.
Proof. split; reflexivity. Qed.

Lemma same_games_trans a b c : same_games a b -> same_games b c -> same_games a c.
Proof. unfold same_games. intros [-> ->] [-> ->]. split; reflexivity. Qed.

Lemma setStatus_keeps_status l p s : keeps_status s (setStatus l p s).
Proof. intros _. unfold status_ok, setStatus, clamp_progress. cbn. lia. Qed.

Lemma setStatus_same_games l p s : same_games s (setStatus l p s).
Proof. split; reflexivity. Qed.

Section Facts.
Variable quote : string -> string.
Variable list_backend : Command -> InvokeOutcome (list ListedGame).
Variable scan_backend : Command -> InvokeOutcome ScanReply.
Variable info_backend : Command -> InvokeOutcome StableInfo.
Variable download_backend : Command -> InvokeOutcome Installed.
Variable cleanup_backend : Command -> InvokeOutcome CleanupReply.
Variable launch_backend : Command -> InvokeOutcome LaunchReply.

Ltac status_step :=
  rel_auto keeps_status_refl keeps_status_trans;
  try (apply rel_modify; intros; apply setStatus_keeps_status).

Lemma refreshGames_keeps_status selectId :
  rel_m (on_ui keeps_status) (refreshGames list_backend selectId).
Proof.
  unfold refreshGames. status_step.
Qed.

(** Whatever the back end answers and whatever the dialogs return, after
    [launchGame], [scanGames], [downloadNwjsStable], [cleanupContainers] or
    [refreshGames] the progress of the status bar lies between 0 and 100 if
    it did before, also when the operation ends with an exception. *)
Theorem shell_progress_in_range (w : World AppState) :
  status_ok (ui w) ->
  (forall gameId, status_ok (ui (snd (launchGame quote launch_backend gameId w))))
  /\ (forall dialog,
         status_ok (ui (snd (scanGames quote list_backend scan_backend dialog w))))
  /\ status_ok (ui (snd (downloadNwjsStable quote info_backend download_backend w)))
  /\ status_ok (ui (snd (cleanupContainers quote cleanup_backend w)))
  /\ (forall selectId, status_ok (ui (snd (refreshGames list_backend selectId w)))).
Proof.
  intros Hok.
  assert (Hlaunch : forall gameId,
             rel_m (on_ui keeps_status) (launchGame quote launch_backend gameId)).
  { intros gameId. unfold launchGame. status_step. }
  assert (Hscan : forall dialog,
             rel_m (on_ui keeps_status) (scanGames quote list_backend scan_backend dialog)).
  { intros dialog. unfold scanGames. status_step.
    apply refreshGames_keeps_status. }
  assert (Hdl : rel_m (on_ui keeps_status)
                      (downloadNwjsStable quote info_backend download_backend)).
  { unfold downloadNwjsStable. status_step. }
  assert (Hclean : rel_m (on_ui keeps_status) (cleanupContainers quote cleanup_backend)).
  { unfold cleanupContainers. status_step. }
  repeat split; intros.
  - now apply Hlaunch.
  - now apply Hscan.
  - now apply Hdl.
  - now apply Hclean.
  - now apply refreshGames_keeps_status.
Qed.

End Facts.

Definition busy_world : World AppState :=
  mkWorld (mkAppState [mkGameEntry "g0" "Bar" "rmmz" None "/games/Bar" true]
                      "g0" (Some (mkTaskStatus "扫描中…" 40))) [].

Lemma shell_progress_in_range_witness :
  status_ok (ui busy_world)
  /\ status_ok (ui (snd (cleanupContainers (fun s => s)
                           (fun _ => Rejected (VStr "denied")) busy_world))).
Proof.
  assert (Hok : status_ok (ui busy_world)) by (cbn; lia).
  split; [exact Hok |].
  apply (shell_progress_in_range (fun s => s)
           (fun _ => Resolved [])
           (fun _ => Resolved (mkScanReply "t1" 3 1 1 0))
           (fun _ => Resolved (mkStableInfo "0.80.0" "linux-x64"))
           (fun _ => Resolved (mkInstalled "0.80.0" "linux-x64" "/opt/nwjs"))
           (fun _ => Rejected (VStr "denied"))
           (fun _ => Resolved (mkLaunchReply 7))
           busy_world Hok).
Defined.

End AppShellFacts.

Module AppShellCommandFacts.
Import Js Tauri Ipc App AppShell IpcFacts AppShellFacts.

Definition info_command : Command := mkCommand "get_nwjs_stable_info" [].
Definition download_command : Command :=
  mkCommand "download_nwjs_stable" [("flavor", JStr "normal")].
Definition cleanup_command : Command := mkCommand "cleanup_unused_containers" [].
Definition list_command : Command := mkCommand "list_games" [].
Definition launch_command (gameId : string) : Command :=
  mkCommand "launch_game" [("gameId", JStr gameId)].

Ltac run_m :=
  unfold mbind, send, lift, modify, get, ret, invokeResult, bind;
  cbn [fst snd ui issued];
  repeat (match goal with
          | |- context [match ?x with _ => _ end] =>
              lazymatch x with
              | context [match _ with _ => _ end] => fail
              | _ => destruct x
              end
          end; cbn [fst snd ui issued]).

Section Facts.
Variable quote : string -> string.
Variable info_backend : Command -> InvokeOutcome StableInfo.
Variable download_backend : Command -> InvokeOutcome Installed.
Variable cleanup_backend : Command -> InvokeOutcome CleanupReply.
Variable launch_backend : Command -> InvokeOutcome LaunchReply.

Lemma launchGame_same_games gameId :
  rel_m (on_ui same_games) (launchGame quote launch_backend gameId).
Proof.
  unfold launchGame. rel_auto same_games_refl same_games_trans;
    apply rel_modify; intros; apply setStatus_same_games.
Qed.

Lemma downloadNwjsStable_same_games :
  rel_m (on_ui same_games) (downloadNwjsStable quote info_backend download_backend).
Proof.
  unfold downloadNwjsStable. rel_auto same_games_refl same_games_trans;
    apply rel_modify; intros; apply setStatus_same_games.
Qed.

Lemma cleanupContainers_same_games :
  rel_m (on_ui same_games) (cleanupContainers quote cleanup_backend).
Proof.
  unfold cleanupContainers. rel_auto same_games_refl same_games_trans;
    apply rel_modify; intros; apply setStatus_same_games.
Qed.

(** Launching, downloading the runtime and cleaning up never change the
    list of games or the selection, whatever the back end answers.
    [cleanupContainers] always sends exactly its one command.
    [downloadNwjsStable] asks for the stable version first and, when it runs
    to its end, has then sent the download command too, also when the
    version request failed. [launchGame] sends nothing or the one
    [launch_game] for the id it was given. *)
Theorem maintenance_frame_and_commands (w : World AppState) :
  (forall gameId,
      let r := launchGame quote launch_backend gameId w in
      same_games (ui w) (ui (snd r))
      /\ (issued (snd r) = issued w
          \/ issued (snd r) = launch_command gameId :: issued w))
  /\ (let r := downloadNwjsStable quote info_backend download_backend w in
      same_games (ui w) (ui (snd r))
      /\ (fst r = Normal tt ->
          issued (snd r) = download_command :: info_command :: issued w)
      /\ (exists rest, issued (snd r) = (rest ++ info_command :: issued w)%list))
  /\ (let r := cleanupContainers quote cleanup_backend w in
      same_games (ui w) (ui (snd r))
      /\ issued (snd r) = cleanup_command :: issued w).
Proof.
  split; [| split].
  - intros gameId. cbv zeta. split; [apply launchGame_same_games |].
    unfold launchGame. run_m; auto.
  - cbv zeta. split; [apply downloadNwjsStable_same_games |].
    unfold downloadNwjsStable. fold info_command download_command. split.
    + run_m; intros H; try reflexivity; discriminate H.
    + run_m;
        first [ exists [download_command]; reflexivity | exists []; reflexivity ].
  - cbv zeta. split; [apply cleanupContainers_same_games |].
    unfold cleanupContainers. fold cleanup_command. run_m; reflexivity.
Qed.

End Facts.

End AppShellCommandFacts.

Module AppShellRefreshFacts.
Import Js Tauri Ipc App AppShell IpcFacts AppShellFacts AppShellCommandFacts.

Section Facts.
Variable quote : string -> string.
Variable list_backend : Command -> InvokeOutcome (list ListedGame).
Variable import_backend : Command -> InvokeOutcome ImportedGame.

Lemma map_id_to_entry l : map id (map to_entry l) = map l_id l.
Proof. rewrite map_map. reflexivity. Qed.

(** [refreshGames] never throws and sends one [list_games]. When the
    command fails nothing on screen changes. When it succeeds the list shows
    the listed games in the order received, and the selection is the id
    asked for, else the id of the first game, else empty; so a refresh
    without an id to select always selects a listed game when there is
    one. The status bar is not touched. *)
Theorem refreshGames_result (selectId : option string) (w : World AppState) :
  let r := refreshGames list_backend selectId w in
  fst r = Normal tt
  /\ issued (snd r) = list_command :: issued w
  /\ currentTask (ui (snd r)) = currentTask (ui w)
  /\ match list_backend list_command with
     | Rejected _ => ui (snd r) = ui w
     | Resolved l =>
         games (ui (snd r)) = map to_entry l
         /\ map id (games (ui (snd r))) = map l_id l
         /\ selectedGameId (ui (snd r))
            = match selectId, l with
              | Some i, _ => i
              | None, g :: _ => l_id g
              | None, [] => ""
              end
         /\ (selectId = None -> l <> [] ->
             In (selectedGameId (ui (snd r))) (map id (games (ui (snd r)))))
     end.
Proof.
  cbv zeta. unfold refreshGames, mbind, send, lift. fold list_command.
  cbn [fst snd]. destruct (list_backend list_command) as [l | e]; cbn.
  - repeat split.
    + apply map_id_to_entry.
    + destruct selectId, l; reflexivity.
    + intros -> Hl. destruct l as [| g l]; [contradiction |]. cbn. now left.
  - destruct w. repeat split.
Qed.

Definition import_command (dir : string) : Command :=
  mkCommand "import_game_dir" [("path", JStr dir)].

(** [importGame]: when no directory is picked nothing happens at all. When
    the import is accepted, the list is refreshed after it (the commands go
    out as [import_game_dir], then [list_games]), the settings of the new
    game are opened, the new game is selected if the refresh succeeded, and
    the status ends at 100. When the import is rejected with a string, no
    refresh is sent, the list, the selection and the modals stay as they
    were, and the status shows the failure at 0. *)
Theorem importGame_result (dialog : DialogOutcome) (w : World Shell) :
  let r := importGame quote list_backend import_backend dialog w in
  match pickDirectory dialog with
  | None => r = (Normal tt, w)
  | Some dir =>
      if JsString.is_empty dir then r = (Normal tt, w)
      else
        match import_backend (import_command dir) with
        | Resolved data =>
            fst r = Normal tt
            /\ issued (snd r) = list_command :: import_command dir :: issued w
            /\ gameSettingsOpen (ui (snd r)) = true
            /\ gameSettingsGameId (ui (snd r)) = Some (i_id data)
            /\ currentTask (core (ui (snd r)))
               = Some (mkTaskStatus ("已导入：" ++ i_title data) 100)
            /\ match list_backend list_command with
               | Resolved l =>
                   games (core (ui (snd r))) = map to_entry l
                   /\ selectedGameId (core (ui (snd r))) = i_id data
               | Rejected _ =>
                   games (core (ui (snd r))) = games (core (ui w))
                   /\ selectedGameId (core (ui (snd r)))
                      = selectedGameId (core (ui w))
               end
        | Rejected (VStr text) =>
            fst r = Normal tt
            /\ issued (snd r) = import_command dir :: issued w
            /\ games (core (ui (snd r))) = games (core (ui w))
            /\ selectedGameId (core (ui (snd r))) = selectedGameId (core (ui w))
            /\ gameSettingsOpen (ui (snd r)) = gameSettingsOpen (ui w)
            /\ gameSettingsGameId (ui (snd r)) = gameSettingsGameId (ui w)
            /\ currentTask (core (ui (snd r)))
               = Some (mkTaskStatus ("导入失败：" ++ text) 0)
        | Rejected _ => issued (snd r) = import_command dir :: issued w
        end
  end.
Proof.
  cbv zeta. unfold importGame.
  destruct (pickDirectory dialog) as [dir |]; [| reflexivity].
  cbn [not_picked]. destruct (JsString.is_empty dir); [reflexivity |].
  change (default "" (Some dir)) with dir. fold (import_command dir).
  unfold mbind, on_core, send, lift, modify, refreshGames. fold list_command.
  cbn [fst snd ui issued].
  destruct (import_backend (import_command dir)) as [data | e].
  - cbn [invokeResult fst snd ui issued mbind send lift safeInvoke].
    unfold mbind, send, lift. cbn [fst snd ui issued core with_core].
    destruct (list_backend list_command) as [l | e]; cbn; repeat split.
  - destruct e; try (cbn; repeat split; fail);
      unfold invokeResult, bind;
      match goal with
      | |- context [formatInvokeError quote ?v] =>
          destruct (formatInvokeError quote v) as [v' | e']; cbn;
          [destruct (ToString v'); reflexivity | reflexivity]
      end.
Qed.

End Facts.

End AppShellRefreshFacts.

Module EntryPathFacts.
Import Types JsString JsStringTrimFacts JsStringSplitFacts GameSettingsDialog.















Example toAbsoluteEntryPath_sample :
  toAbsoluteEntryPath
    (mkDialog (Some (mkGameDto "g1" "Foo" "other" "C:\Games\Foo\" true None None 1 None))
              "Foo" "other" "C:\Games\Foo\" "" "" "" true "" false false false "")
    " bin\Game.exe "
  = "C:\Games\Foo\bin\Game.exe".
Proof. reflexivity. Qed.

End EntryPathFacts.

Module GameLibraryActionsFacts.
Import Js Tauri Ipc Types Wire GameSettingsDialog GameLibraryActions.

Section Facts.
Variable update_backend : Command -> InvokeOutcome GameDto.
Variable settings_backend : Command -> InvokeOutcome unit.

(** [handleGameSave] never throws. The game is updated first and its
    settings are saved only after that succeeded. If the update is rejected
    nothing else is sent; if the settings are rejected the update has
    already gone through. In both failures one error toast is shown, the
    dialog stays open and the list is not refreshed; only when both commands
    succeed is the success toast shown, the dialog closed and the list
    refreshed once. *)
Theorem handleGameSave_order (p : SavePayload) (w : World Effects) :
  let r := handleGameSave update_backend settings_backend p w in
  fst r = Normal tt
  /\ match update_backend (update_game_command p) with
     | Rejected e =>
         issued (snd r) = update_game_command p :: issued w
         /\ ui (snd r) = toast (ToastError (save_error e)) (ui w)
     | Resolved _ =>
         issued (snd r)
         = saveGameSettings_command p :: update_game_command p :: issued w
         /\ match settings_backend (saveGameSettings_command p) with
            | Rejected e => ui (snd r) = toast (ToastError (save_error e)) (ui w)
            | Resolved _ =>
                toasts (ui (snd r)) = ToastSuccess "已保存游戏设置" :: toasts (ui w)
                /\ settingsClosed (ui (snd r)) = true
                /\ refreshes (ui (snd r)) = S (refreshes (ui w))
            end
     end.
Proof.
  cbv zeta. unfold handleGameSave, mbind, send, modify. cbn [fst snd ui issued].
  destruct (update_backend (update_game_command p)) as [g | e]; cbn [Api.invoke].
  - cbn [fst snd ui issued].
    destruct (settings_backend (saveGameSettings_command p)) as [[] | e]; cbn;
      repeat split.
  - cbn. repeat split.
Qed.

End Facts.

End GameLibraryActionsFacts.

Module HandleSaveFacts.
Import Ipc Types Wire WireFacts JsString JsStringTrimFacts
       GameSettingsDialog GameSettingsDialogFacts.

Lemma or_undefined_not_empty s : or_undefined s <> Some "".
Proof. unfold or_undefined. destruct s; cbn; congruence. Qed.

Lemma save_settings_args (d : Dialog) :
  field "args" (serialise (save_settings d))
  = Some (JArr (map JStr (save_args (argsText d)))).
Proof.
  unfold save_settings.
  destruct (or_undefined (trim (runtimeVersion d))); reflexivity.
Qed.

(** What [handleSave] emits is normalised: the title and the path are
    trimmed; the arguments are never empty and carry no white space at their
    ends; an optional runtime version is never the empty string; and
    [useBottles] can be true only for the engine type ["other"]. Without a
    game nothing is emitted. *)
Theorem handleSave_normalised (d : Dialog) :
  match game d, handleSave d with
  | None, r => r = None
  | Some g, Some p =>
      s_id p = Types.id g
      /\ trim (s_title p) = s_title p
      /\ trim (s_path p) = s_path p
      /\ s_runtimeVersion p <> Some ""
      /\ field "args" (serialise (s_settings p))
         = Some (JArr (map JStr (save_args (argsText d))))
      /\ Forall (fun a => a <> "" /\ trim a = a) (save_args (argsText d))
      /\ (field "useBottles" (serialise (s_settings p)) = Some (JBool true) ->
          engineType d = "other")
  | Some _, None => False
  end.
Proof.
  unfold handleSave. destruct (game d) as [g |]; [| reflexivity].
  cbn [s_id s_title s_path s_runtimeVersion s_settings].
  split; [reflexivity |].
  split; [apply trim_idempotent |].
  split; [apply trim_idempotent |].
  split; [apply or_undefined_not_empty |].
  split; [apply save_settings_args |].
  split; [apply trimmed_nonempty_pieces |].
  rewrite save_settings_useBottles. intros [= Hb]. unfold usingBottles in Hb.
  apply andb_true_iff in Hb as [Hb _]. apply andb_true_iff in Hb as [Hb _].
  apply andb_true_iff in Hb as [Hb _]. now apply String.eqb_eq.
Qed.

End HandleSaveFacts.

Module NumbersFacts.
Import Numbers.

Section Facts.
Context {num : Type}.
Variable leb : num -> num -> bool.
Variable is_zero : num -> bool.
Hypothesis leb_total : forall a b, leb a b = true \/ leb b a = true.

Lemma leb_refl a : leb a a = true.
Proof. destruct (leb_total a a); assumption. Qed.

Lemma math_max_lower lo x : leb lo (math_max leb lo x) = true.
Proof.
  unfold math_max. destruct (leb lo x) eqn:E; [exact E | apply leb_refl].
Qed.

Lemma math_min_upper hi x : leb (math_min leb hi x) hi = true.
Proof.
  unfold math_min. destruct (leb x hi) eqn:E; [exact E | apply leb_refl].
Qed.

Lemma math_max_upper lo hi x :
  leb lo hi = true -> leb x hi = true -> leb (math_max leb lo x) hi = true.
Proof. intros Hlo Hx. unfold math_max. now destruct (leb lo x). Qed.

Lemma safe_progress_range zero hundred p :
  leb zero hundred = true ->
  leb zero (safe_progress leb is_zero zero hundred p) = true
  /\ leb (safe_progress leb is_zero zero hundred p) hundred = true.
Proof.
  intros H. unfold safe_progress. split.
  - apply math_max_lower.
  - apply math_max_upper; [exact H | apply math_min_upper].
Qed.

End Facts.

(** The integers are such an order. *)
Lemma Z_leb_total (a b : Z) : (a <=? b) = true \/ (b <=? a) = true.
Proof. rewrite !Z.leb_le. lia. Qed.

End NumbersFacts.

Module ScanDialogFacts.
Import Numbers ScanDialog NumbersFacts.

Section Facts.
Context {num : Type}.
Variable leb : num -> num -> bool.
Variable is_zero : num -> bool.
Variable one : num.
Hypothesis leb_total : forall a b, leb a b = true \/ leb b a = true.

(** The scan form emits nothing while the root is empty; otherwise it emits
    the root as typed together with a depth of at least 1, which is the
    depth typed whenever that is a number of at least 1 other than zero,
    and 1 when the field does not hold a number. *)
Theorem submit_depth_at_least_one (root : string) (maxDepth : number num) :
  (root = "" -> submit leb is_zero one root maxDepth = None)
  /\ (root <> "" ->
      exists d, submit leb is_zero one root maxDepth = Some (root, d)
                /\ leb one d = true
                /\ (maxDepth = NaN -> d = one)
                /\ (forall x, maxDepth = Num x -> is_zero x = false ->
                              leb one x = true -> d = x)).
Proof.
  split.
  - intros ->. reflexivity.
  - intros Hroot. unfold submit.
    destruct (JsString.is_empty root) eqn:E.
    { destruct root; [congruence | discriminate E]. }
    eexists. split; [reflexivity |]. split; [| split].
    + unfold safe_depth. now apply math_max_lower.
    + intros ->. unfold safe_depth, math_max. cbn. now rewrite leb_refl.
    + intros x -> Hz Hx. unfold safe_depth, math_max. cbn. now rewrite Hz, Hx.
Qed.

End Facts.

Lemma submit_depth_at_least_one_witness :
  (forall a b : Z, (a <=? b) = true \/ (b <=? a) = true)
  /\ exists d, submit Z.leb (Z.eqb 0) 1 "/games" (Num 0) = Some ("/games", d)
               /\ (1 <=? d) = true.
Proof.
  split; [exact Z_leb_total |].
  destruct (submit_depth_at_least_one Z.leb (Z.eqb 0) 1 Z_leb_total "/games" (Num 0))
    as [_ H].
  destruct (H ltac:(discriminate)) as (d & Hd & Hle & _).
  exists d. split; [exact Hd | exact Hle].
Defined.

End ScanDialogFacts.

Module TaskStatusFacts.
Import Numbers TaskStatus NumbersFacts.

Section Facts.
Context {num : Type}.
Variable leb : num -> num -> bool.
Variable is_zero : num -> bool.
Variables zero hundred : num.
Hypothesis leb_total : forall a b, leb a b = true \/ leb b a = true.
Hypothesis zero_le_hundred : leb zero hundred = true.

Local Abbreviation safe := (safe_progress leb is_zero zero hundred).
Local Abbreviation update := (updateTask leb is_zero zero hundred).
Local Abbreviation runs := (run leb is_zero zero hundred).

(** At most the timer kept in [taskClearTimer] is armed, and only while the
    task shown is complete. *)
Definition timer_ok (st : State (num := num)) : Prop :=
  match armed st with
  | [] => True
  | [t] =>
      taskClearTimer st = Some t
      /\ exists l p, currentTask st = Some (l, p) /\ leb hundred p = true
  | _ => False
  end.

Definition task_in_range (st : State (num := num)) : Prop :=
  forall l p, currentTask st = Some (l, p) ->
              leb zero p = true /\ leb p hundred = true.

Lemma clearTimeout_single t : clearTimeout t [t] = [].
Proof. unfold clearTimeout. cbn. now rewrite Nat.eqb_refl. Qed.

Lemma cleared_when_ok st :
  timer_ok st ->
  match taskClearTimer st with
  | Some t => clearTimeout t (armed st)
  | None => armed st
  end = [].
Proof.
  unfold timer_ok. destruct (armed st) as [| t [| u r]]; intros H.
  - now destruct (taskClearTimer st).
  - destruct H as [-> _]. apply clearTimeout_single.
  - contradiction.
Qed.

Lemma updateTask_ok l p st : timer_ok st -> timer_ok (update l p st).
Proof.
  intros H. unfold updateTask. rewrite (cleared_when_ok st H).
  destruct (leb hundred (safe p)) eqn:E; unfold timer_ok; cbn; [| exact I].
  split; [reflexivity |]. exists l, (safe p). now split.
Qed.

Lemma fire_ok t st : timer_ok st -> timer_ok (fire t st).
Proof.
  intros H. unfold fire. destruct (existsb (Nat.eqb t) (armed st)) eqn:E; [| exact H].
  unfold timer_ok in *. destruct (armed st) as [| u [| v r]]; try contradiction.
  - discriminate E.
  - cbn in E. rewrite orb_false_r in E. apply Nat.eqb_eq in E. subst u.
    cbn [armed]. now rewrite clearTimeout_single.
Qed.

Lemma updateTask_in_range l p st : task_in_range (update l p st).
Proof.
  unfold updateTask, task_in_range.
  destruct (leb hundred (safe p)); cbn; intros l' p' [= _ <-];
    now apply safe_progress_range.
Qed.

Lemma fire_in_range t st : task_in_range st -> task_in_range (fire t st).
Proof.
  unfold fire, task_in_range.
  destruct (existsb (Nat.eqb t) (armed st)); cbn; [discriminate | auto].
Qed.

Lemma run_snoc es e : runs (es ++ [e])%list = step leb is_zero zero hundred (runs es) e.
Proof. unfold run. now rewrite fold_left_app. Qed.

Lemma task_run_ok es : timer_ok (runs es) /\ task_in_range (runs es).
Proof.
  induction es as [| e es IH] using rev_ind.
  - split; [exact I | intros l p H; discriminate H].
  - rewrite run_snoc. destruct IH as [Ht Hr]. destruct e as [l p | t]; cbn.
    + split; [now apply updateTask_ok | apply updateTask_in_range].
    + split; [now apply fire_ok | now apply fire_in_range].
Qed.

(** After any sequence of [updateTask] calls and timer callbacks: the
    progress shown lies between 0 and 100; at most one clear timer is
    armed; a timer callback only ever removes a task whose progress has
    reached 100; and a task below 100 set by [updateTask] is still shown
    after any timer callback, because the call cancelled the timer of the
    task before it. *)
Theorem updateTask_timer (es : list (Event (num := num))) :
  let st := runs es in
  (forall l p, currentTask st = Some (l, p) ->
               leb zero p = true /\ leb p hundred = true)
  /\ (length (armed st) <= 1)%nat
  /\ (forall t l p, currentTask st = Some (l, p) ->
                    currentTask (fire t st) = None -> leb hundred p = true)
  /\ (forall l p t, leb hundred (safe p) = false ->
                    currentTask (fire t (update l p st)) = Some (l, safe p)).
Proof.
  cbv zeta. destruct (task_run_ok es) as [Ht Hr]. split; [exact Hr |]. split; [| split].
  - unfold timer_ok in Ht. destruct (armed (runs es)) as [| t [| u r]]; cbn; [lia | lia | contradiction].
  - intros t l p Hcur Hfire. unfold fire in Hfire.
    destruct (existsb (Nat.eqb t) (armed (runs es))) eqn:E; [| congruence].
    unfold timer_ok in Ht. destruct (armed (runs es)) as [| u [| v r]]; try contradiction.
    + discriminate E.
    + destruct Ht as (_ & l' & p' & Hcur' & Hp'). congruence.
  - intros l p t Hlt. unfold fire, updateTask.
    rewrite (cleared_when_ok _ Ht), Hlt. reflexivity.
Qed.

End Facts.

Lemma updateTask_timer_witness :
  (forall a b : Z, (a <=? b) = true \/ (b <=? a) = true)
  /\ (0 <=? 100) = true
  /\ currentTask
       (fire 1 (updateTask Z.leb (Z.eqb 0) 0 100 "下载中" (Num 30)
                  (run Z.leb (Z.eqb 0) 0 100 [Update "完成" (Num 250)])))
     = Some ("下载中", 30).
Proof.
  split; [exact Z_leb_total |]. split; [reflexivity |].
  destruct (updateTask_timer Z.leb (Z.eqb 0) 0 100 Z_leb_total
              eq_refl [Update "完成" (Num 250)]) as (_ & _ & _ & H).
  apply (H "下载中" (Num 30) 1%nat). reflexivity.
Defined.

End TaskStatusFacts.

Module DragDropFacts.
Import DragDrop.

(** With the DOM handlers the overlay is shown exactly while the counter is
    positive and the counter is never negative. *)
Definition overlay_ok (st : State) : Prop :=
  0 <= dragCounter st /\ (isDragging st = true <-> 0 < dragCounter st).

(** The import dialog is open only on a path that is not empty. *)
Definition import_ok (st : State) : Prop :=
  importOpen st = true -> pendingImportPath st <> "".

Lemma not_empty p : JsString.is_empty p = false -> p <> "".
Proof. intros H ->. discriminate H. Qed.

Lemma drag_step_ok st e : overlay_ok st /\ import_ok st -> overlay_ok (step st e) /\ import_ok (step st e).
Proof.
  unfold overlay_ok, import_ok. intros ((Hc & Hd) & Hp).
  destruct e as [f | f | f | d]; cbn.
  - unfold handleDragEnter. destruct f; cbn; [| now repeat split; try apply Hd].
    repeat split; cbn; try lia; auto.
  - now repeat split; try apply Hd.
  - unfold handleDragLeave. destruct f; cbn; [| now repeat split; try apply Hd].
    destruct (dragCounter st - 1 <=? 0) eqn:E; cbn.
    + repeat split; try lia; try discriminate; auto.
    + apply Z.leb_gt in E. repeat split; try lia; auto.
      intros _. apply Hd. lia.
  - unfold handleDrop. destruct d as [| [p |] r]; [| destruct (JsString.is_empty p) eqn:E |];
      cbn; repeat split; try lia; try discriminate; auto.
    intros _. now apply not_empty.
Qed.

Lemma window_step_ok e st :
  dragCounter st = 0 /\ import_ok st ->
  dragCounter (onDragDropEvent e st) = 0 /\ import_ok (onDragDropEvent e st).
Proof.
  unfold import_ok, onDragDropEvent. intros (Hc & Hp).
  destruct (String.eqb (type e) "enter" || String.eqb (type e) "over");
    [now split |].
  destruct (String.eqb (type e) "leave"); [now split |].
  destruct (String.eqb (type e) "drop"); [| now split].
  destruct (paths e) as [| p r]; [now split |].
  destruct (JsString.is_empty p) eqn:E; cbn; [now split |].
  split; [reflexivity |]. intros _. now apply not_empty.
Qed.

(** Whatever drag events reach the DOM handlers, in whatever order: the
    counter of nested enters is never negative and the drop overlay is
    shown exactly while it is positive. With the window's own events the
    counter stays 0. In both cases, a drop opens the import dialog only on
    a path that is not empty. *)
Theorem drag_overlay_tracks_counter :
  (forall es : list Event,
      let st := run es in
      0 <= dragCounter st
      /\ (isDragging st = true <-> 0 < dragCounter st)
      /\ (importOpen st = true -> pendingImportPath st <> ""))
  /\ (forall es : list WindowEvent,
         let st := run_window es in
         dragCounter st = 0
         /\ (importOpen st = true -> pendingImportPath st <> "")).
Proof.
  split; intros es; cbv zeta.
  - enough (H : overlay_ok (run es) /\ import_ok (run es)).
    { destruct H as ((H1 & H2) & H3). auto. }
    induction es as [| e es IH] using rev_ind.
    + unfold overlay_ok, import_ok. cbn. repeat split; try lia; discriminate.
    + unfold run. rewrite fold_left_app. cbn. now apply drag_step_ok.
  - change (dragCounter (run_window es) = 0 /\ import_ok (run_window es)).
    induction es as [| e es IH] using rev_ind.
    + split; [reflexivity | discriminate].
    + unfold run_window. rewrite fold_left_app. cbn. now apply window_step_ok.
Qed.

(** An enter that is left again hides the overlay it showed, and a drop
    hides it however deep the nesting was. *)
Example drag_sample :
  isDragging (run [DragEnter true; DragEnter true; DragLeave true]) = true
  /\ isDragging (run [DragEnter true; DragEnter true; DragLeave true; DragLeave true]) = false
  /\ run [DragEnter true; DragEnter true; Drop [Some "/games/Foo/Game.exe"]]
     = mkState false 0 "/games/Foo/Game.exe" true ["已选择拖拽文件，请选择引擎类型"].
Proof. repeat split. Qed.

End DragDropFacts.

Module DeleteConfirmFacts.
Import Js Tauri Types UseGames DeleteConfirm.

(** Asking to delete the game [id] and confirming calls [deleteGame] once,
    for that id, and closes the dialog; when the back end accepts, exactly
    the games with that id leave the list and one toast is shown, and when
    it refuses the list is unchanged and no toast is shown. Confirming a
    second time does nothing, whatever the back end would answer. With the
    empty id nothing is called and the dialog stays open. *)
Theorem confirmDeleteGame_once (id' : string) (r1 r2 : InvokeOutcome unit) (p : Page) :
  let p1 := onDeleteGame id' p in
  let p2 := confirmDeleteGame r1 p1 in
  confirmDeleteGame r2 p2 = p2
  /\ (id' <> "" ->
      deleteCalls p2 = id' :: deleteCalls p
      /\ pendingDeleteId p2 = None
      /\ deleteConfirmOpen p2 = false
      /\ match r1 with
         | Resolved _ =>
             games (store p2)
             = List.filter (fun g => negb (String.eqb (id g) id')) (games (store p))
             /\ toasts p2 = "游戏删除成功" :: toasts p
         | Rejected _ =>
             games (store p2) = games (store p) /\ toasts p2 = toasts p
         end)
  /\ (id' = "" -> p2 = p1 /\ deleteCalls p2 = deleteCalls p
                  /\ deleteConfirmOpen p2 = true).
Proof.
  cbv zeta. destruct id' as [| c s].
  - split; [reflexivity |]. split; [congruence |]. intros _. repeat split.
  - split; [reflexivity |]. split; [| discriminate]. intros _.
    unfold confirmDeleteGame, onDeleteGame, handleDeleteGame, Api.invoke. cbn.
    destruct r1; cbn; repeat split.
Qed.

End DeleteConfirmFacts.

Module EngineTableFacts.
Import Engines.

(** Every member of [EngineType] has a display name of its own, so
    [getEngineDisplayName] never falls back to the raw value on a member.
    Every member but [NWjs] has an icon of its own; for [NWjs]
    [getEngineIcon] gives the icon of [Other]. No two members share a
    value, and the engines offered for selection are all members but
    [NWjs]. *)
Theorem engine_tables_cover_members (e : EngineType) :
  (exists name,
      ENGINE_DISPLAY_NAMES !! EngineType_value e = Some name
      /\ getEngineDisplayName (EngineType_value e) = PString name
      /\ name <> "" /\ name <> EngineType_value e)
  /\ (exists icon,
         getEngineIcon (EngineType_value e) = PString icon
         /\ icon <> ""
         /\ (e <> NWjs -> ENGINE_ICONS !! EngineType_value e = Some icon)
         /\ (e = NWjs -> ENGINE_ICONS !! EngineType_value e = None
                         /\ getEngineIcon (EngineType_value e)
                            = getEngineIcon (EngineType_value Other)))
  /\ (forall e', EngineType_value e = EngineType_value e' -> e = e')
  /\ (In e SUPPORTED_ENGINES <-> e <> NWjs).
Proof.
  split; [| split; [| split]].
  - destruct e; eexists; (split; [vm_compute; reflexivity |]);
      (split; [vm_compute; reflexivity |]); split; discriminate.
  - destruct e; eexists; (split; [vm_compute; reflexivity |]);
      (split; [discriminate |]); split; intros H;
      first [ congruence | vm_compute; reflexivity | split; vm_compute; reflexivity ].
  - intros e'. destruct e, e'; intros H; first [reflexivity | discriminate H].
  - destruct e; cbn; split; intros H; try congruence; try tauto;
      repeat (destruct H as [H | H]; try discriminate H); try contradiction.
Qed.

End EngineTableFacts.

Module MaintenanceFacts.
Import Js Tauri UseGames Maintenance.

(** The flag is set exactly while one handler is suspended, and no second
    one is. *)
Definition guard_ok (st : State) : Prop :=
  match waiting st with
  | [] => maintenanceLoading st = false
  | [_] => maintenanceLoading st = true
  | _ => False
  end.

Lemma start_ok w c st : guard_ok st -> guard_ok (start w c st).
Proof.
  unfold start, guard_ok. destruct (maintenanceLoading st) eqn:E; [now rewrite E |].
  cbn. destruct (waiting st) as [| a [| b r]]; cbn; intros H; congruence.
Qed.

Lemma resume_ok w r st : guard_ok st -> waiting st = [w] -> guard_ok (resume w r [] [] st).
Proof.
  unfold guard_ok. intros H Hw. rewrite Hw in H.
  destruct w, r; cbn; auto.
Qed.

Lemma guard_step_ok st e : guard_ok st -> guard_ok (step st e).
Proof.
  intros H. destruct e as [| | i n | k r]; cbn; try now apply start_ok.
  destruct (nth_error (waiting st) k) as [w |] eqn:E; [| exact H].
  pose proof H as H'. unfold guard_ok in H'.
  destruct (waiting st) as [| a [| b l]] eqn:Ew; try contradiction.
  - destruct k; discriminate E.
  - destruct k as [| k]; [| destruct k; discriminate E].
    cbn in E. injection E as ->. cbn [firstn skipn].
    apply resume_ok; [exact H | exact Ew].
Qed.

Lemma guard_run_ok es : guard_ok (run es).
Proof.
  induction es as [| e es IH] using rev_ind.
  - reflexivity.
  - unfold run. rewrite fold_left_app. cbn. now apply guard_step_ok.
Qed.

(** However calls of the three guarded handlers and the answers of the back
    end interleave: at most one of the handlers is suspended at any time,
    [maintenanceLoading] is set exactly while one is, and a handler called
    in the meantime makes no call to the back end and changes nothing. *)
Theorem maintenance_handlers_exclusive (es : list Event) :
  let st := run es in
  (in_flight st <= 1)%nat
  /\ (maintenanceLoading st = true <-> in_flight st = 1%nat)
  /\ (in_flight st = 1%nat ->
      handleDownloadNwjs st = st
      /\ handleCleanupContainers st = st
      /\ forall i n, handleRemoveEngine i n st = st).
Proof.
  cbv zeta. pose proof (guard_run_ok es) as H. unfold guard_ok, in_flight in *.
  destruct (waiting (run es)) as [| a [| b l]] eqn:Ew; try contradiction; cbn.
  - split; [lia |]. split; [rewrite H; split; intros; [discriminate | lia] | lia].
  - split; [lia |]. split; [tauto |]. intros _.
    unfold handleDownloadNwjs, handleCleanupContainers, handleRemoveEngine, start.
    rewrite H. auto.
Qed.

(** One download, with a cleanup asked for while it runs. *)
Example maintenance_sample :
  run [CallDownload; CallCleanup; Settle 0 (Resolved (mkAnswer "0.80.0" 0));
       CallCleanup; Settle 0 (Resolved (mkAnswer "0.80.0" 0))]
  = mkState false []
      [DownloadNwjsStable "normal"; GetNwjsStableInfo]
      [VStr "NW.js 下载完成"]
      [("下载完成", 100); ("下载 NW.js 0.80.0", 0)] 1.
Proof. reflexivity. Qed.

End MaintenanceFacts.
